(** * avltrees: an AVL tree with subtree sizes and parent back-references

    A shallow embedding of [avltrees.go] and the verification of its
    specification.

    - Nodes live in a store ([heap]); a [*Node] is an optional address,
      [None] being Go's [nil].  Dereferencing [nil] panics: the embedded
      operation then has no result.
    - A [Tree] is its one field, the root pointer; an operation that
      assigns [t.Root] returns the new [Tree] next to its result.
    - [K cmp.Ordered] is the class [Ordered]: the comparison [<] and the
      equality [==] of the key type, with the laws of a strict total order
      (which the specification requires of a key type).
    - Go's [int] (heights, sizes, the index given to [Kth]) is [Z]; the
      heights and sizes of a tree are bounded by the number of nodes of
      the store, far below the range of a machine [int].
    - Loops and recursive calls take a [fuel : nat]; an operation that runs
      out of fuel has no result.  Every theorem that states a result gives
      the fuel that suffices. *)

From Stdlib Require Import ZArith List Lia Bool.
From stdpp Require Import base tactics option list sets.

Open Scope Z_scope.

(** ** Keys *)

Class Ordered (K : Type) := {
  less : K -> K -> bool;                       (* Go's [x < y] *)
  equal : K -> K -> bool;                      (* Go's [x == y] *)
  equal_spec : forall x y, equal x y = true <-> x = y;
  less_irrefl : forall x, less x x = false;
  less_trans : forall x y z, less x y = true -> less y z = true -> less x z = true;
  less_total : forall x y, less x y = false -> less y x = false -> x = y
}.

#[global] Program Instance Z_Ordered : Ordered Z := {
  less := Z.ltb;
  equal := Z.eqb
}.
Next Obligation. intros; apply Z.eqb_eq. Qed.
Next Obligation. intros; apply Z.ltb_irrefl. Qed.
Next Obligation. intros x y z; rewrite !Z.ltb_lt; lia. Qed.
Next Obligation. intros x y; rewrite !Z.ltb_ge; lia. Qed.

(** ** The data model *)

(** An address in the store, and a pointer ([None] is [nil]). *)
Abbreviation loc := nat.
Abbreviation ptr := (option loc).

Record Node {K V : Type} := mkNode {
  key : K;
  value : V;
  height : Z;
  size : Z;
  left : ptr;
  right : ptr;
  parent : ptr
}.
Arguments Node : clear implicits.
Arguments mkNode {K V}.

Record Tree := mkTree { Root : ptr }.

(** ** Mutating code: a state monad over the store, with failure *)

Definition StoreM (K V A : Type) : Type := list (Node K V) -> option (A * list (Node K V)).

Section Monad.
Context {K V : Type}.

Abbreviation M := (StoreM K V).

Definition ret {A} (a : A) : M A := fun h => Some (a, h).

Definition bind {A B} (m : M A) (f : A -> M B) : M B :=
  fun h => match m h with
           | Some (a, h') => f a h'
           | None => None
           end.

End Monad.

Notation "'do' x <- m ; k" := (bind m (fun x => k))
  (at level 10, x name, m at level 100, k at level 200).
Notation "'do' ( x , y ) <- m ; k" := (bind m (fun xy => let (x, y) := xy in k))
  (at level 10, x name, y name, m at level 100, k at level 200).
Notation "m ;; k" := (bind m (fun _ => k))
  (at level 100, k at level 200, right associativity).

Section Model.
Context {K V : Type} `{Ordered K}.

Abbreviation Node := (Node K V).
Abbreviation heap := (list Node).
Abbreviation M := (StoreM K V).

Definition set_key (x : K) (n : Node) : Node :=
  mkNode x (value n) (height n) (size n) (left n) (right n) (parent n).
Definition set_value (x : V) (n : Node) : Node :=
  mkNode (key n) x (height n) (size n) (left n) (right n) (parent n).
Definition set_height (x : Z) (n : Node) : Node :=
  mkNode (key n) (value n) x (size n) (left n) (right n) (parent n).
Definition set_size (x : Z) (n : Node) : Node :=
  mkNode (key n) (value n) (height n) x (left n) (right n) (parent n).
Definition set_left (x : ptr) (n : Node) : Node :=
  mkNode (key n) (value n) (height n) (size n) x (right n) (parent n).
Definition set_right (x : ptr) (n : Node) : Node :=
  mkNode (key n) (value n) (height n) (size n) (left n) x (parent n).
Definition set_parent (x : ptr) (n : Node) : Node :=
  mkNode (key n) (value n) (height n) (size n) (left n) (right n) x.

(** [p.f]: a field of the node [p] points to. *)
Definition get {A} (f : Node -> A) (p : ptr) : M A :=
  fun h => match p with
           | Some l => match h !! l with
                       | Some n => Some (f n, h)
                       | None => None
                       end
           | None => None
           end.

(** [p.f = x], as an update of the node [p] points to. *)
Definition set (p : ptr) (upd : Node -> Node) : M unit :=
  fun h => match p with
           | Some l => match h !! l with
                       | Some n => Some (tt, <[l := upd n]> h)
                       | None => None
                       end
           | None => None
           end.

(** [&Node{...}]: a fresh address. *)
Definition new (n : Node) : M ptr :=
  fun h => Some (Some (length h), h ++ [n]).

Definition when (b : bool) (m : M unit) : M unit := if b then m else ret tt.

Definition not_nil (p : ptr) : bool := match p with Some _ => true | None => false end.
Definition is_nil (p : ptr) : bool := negb (not_nil p).

Definition ptr_eqb (p q : ptr) : bool :=
  match p, q with
  | Some a, Some b => Nat.eqb a b
  | None, None => true
  | _, _ => false
  end.

(** ** Structural maintenance *)

Definition max (a b : Z) : Z := if a >? b then a else b.

Definition height_of (n : ptr) : M Z :=
  if is_nil n then ret 0 else get height n.

Definition updateSize (n : ptr) : M unit :=
  do l <- get left n;
  do hl <- height_of l;
  do r <- get right n;
  do hr <- height_of r;
  set n (set_height (max hl hr + 1));;
  set n (set_size 1);;
  do l <- get left n;
  when (not_nil l)
    (do s <- get size n; do ls <- get size l; set n (set_size (s + ls)));;
  do r <- get right n;
  when (not_nil r)
    (do s <- get size n; do rs <- get size r; set n (set_size (s + rs))).

Definition balanceFactor (n : ptr) : M Z :=
  do l <- get left n;
  do hl <- height_of l;
  do r <- get right n;
  do hr <- height_of r;
  ret (hl - hr).

Definition rotateLeft (z : ptr) : M ptr :=
  do y <- get right z;
  do yl <- get left y;
  set z (set_right yl);;
  do yl <- get left y;
  when (not_nil yl) (set yl (set_parent z));;
  set y (set_left z);;
  do zp <- get parent z;
  set y (set_parent zp);;
  set z (set_parent y);;
  updateSize z;;
  updateSize y;;
  ret y.

Definition rotateRight (z : ptr) : M ptr :=
  do y <- get left z;
  do yr <- get right y;
  set z (set_left yr);;
  do yr <- get right y;
  when (not_nil yr) (set yr (set_parent z));;
  set y (set_right z);;
  do zp <- get parent z;
  set y (set_parent zp);;
  set z (set_parent y);;
  updateSize z;;
  updateSize y;;
  ret y.

Definition rebalance (n : ptr) : M ptr :=
  updateSize n;;
  do balance <- balanceFactor n;
  if balance >? 1 then
    do l <- get left n;
    do bl <- balanceFactor l;
    (if bl <? 0 then
       do l <- get left n;
       do l' <- rotateLeft l;
       set n (set_left l')
     else ret tt);;
    rotateRight n
  else if balance <? -1 then
    do r <- get right n;
    do br <- balanceFactor r;
    (if br >? 0 then
       do r <- get right n;
       do r' <- rotateRight r;
       set n (set_right r')
     else ret tt);;
    rotateLeft n
  else ret n.

(** ** Insert and Delete *)

Fixpoint insertRec (fuel : nat) (n : ptr) (k : K) (v : V) (par : ptr) : M (ptr * bool) :=
  match fuel with
  | O => fun _ => None
  | S fuel =>
    if is_nil n then
      do p <- new (mkNode k v 1 1 None None par);
      ret (p, true)
    else
      do nk <- get key n;
      if less k nk then
        do l <- get left n;
        do (l', inserted) <- insertRec fuel l k v n;
        set n (set_left l');;
        do n' <- rebalance n;
        ret (n', inserted)
      else
        do nk <- get key n;
        if less nk k then
          do r <- get right n;
          do (r', inserted) <- insertRec fuel r k v n;
          set n (set_right r');;
          do n' <- rebalance n;
          ret (n', inserted)
        else
          set n (set_value v);;
          ret (n, false)
  end.

(** ** Reading code: functions of the store, with failure *)

Definition deref (h : heap) (p : ptr) : option Node :=
  match p with
  | Some l => h !! l
  | None => None
  end.

(** A read-only computation run inside mutating code. *)
Definition read {A} (q : heap -> option A) : M A :=
  fun h => match q h with
           | Some a => Some (a, h)
           | None => None
           end.

(** [for n.left != nil { n = n.left }; return n] *)
Fixpoint minNode (fuel : nat) (n : ptr) (h : heap) : option ptr :=
  match fuel with
  | O => None
  | S fuel =>
    nn ← deref h n;
    if not_nil (left nn) then minNode fuel (left nn) h else Some n
  end.

Fixpoint maxNode (fuel : nat) (n : ptr) (h : heap) : option ptr :=
  match fuel with
  | O => None
  | S fuel =>
    nn ← deref h n;
    if not_nil (right nn) then maxNode fuel (right nn) h else Some n
  end.

Fixpoint deleteRec (fuel : nat) (n : ptr) (k : K) : M (ptr * bool) :=
  match fuel with
  | O => fun _ => None
  | S fuel =>
    if is_nil n then ret (None, false)
    else
      do nk <- get key n;
      if less k nk then
        do l <- get left n;
        do (l', deleted) <- deleteRec fuel l k;
        set n (set_left l');;
        do n' <- rebalance n;
        ret (n', deleted)
      else
        do nk <- get key n;
        if less nk k then
          do r <- get right n;
          do (r', deleted) <- deleteRec fuel r k;
          set n (set_right r');;
          do n' <- rebalance n;
          ret (n', deleted)
        else
          do l <- get left n;
          do r <- get right n;
          if is_nil l || is_nil r then
            do l <- get left n;
            do child <- (if not_nil l then get left n else get right n);
            when (not_nil child)
              (do np <- get parent n; set child (set_parent np));;
            ret (child, true)
          else
            (* the loop [for successor.left != nil] is that of [minNode] *)
            do r <- get right n;
            do successor <- read (minNode fuel r);
            do sk <- get key successor;
            do sv <- get value successor;
            set n (set_key sk);;
            set n (set_value sv);;
            do r <- get right n;
            do sk <- get key successor;
            do (r', _) <- deleteRec fuel r sk;
            set n (set_right r');;
            do n' <- rebalance n;
            ret (n', true)
  end.

Definition New : Tree := mkTree None.

Definition Clear (t : Tree) : Tree := mkTree None.

Definition Insert (fuel : nat) (t : Tree) (k : K) (v : V) : M (bool * Tree) :=
  do (root, inserted) <- insertRec fuel (Root t) k v None;
  ret (inserted, mkTree root).

Definition Delete (fuel : nat) (t : Tree) (k : K) : M (bool * Tree) :=
  do (root, deleted) <- deleteRec fuel (Root t) k;
  when (not_nil root) (set root (set_parent None));;
  ret (deleted, mkTree root).

(** ** Point and bounded queries

    A query returns a [ptr]: [Some p] for Go's [(p, true)] and [None] for
    [(nil, false)]. *)

Fixpoint Search_loop (fuel : nat) (k : K) (curr : ptr) (h : heap) : option ptr :=
  match fuel with
  | O => None
  | S fuel =>
    match curr with
    | None => Some None
    | Some c =>
      n ← h !! c;
      if less k (key n) then Search_loop fuel k (left n) h
      else if less (key n) k then Search_loop fuel k (right n) h
      else Some curr
    end
  end.

Definition Search (fuel : nat) (t : Tree) (k : K) (h : heap) : option ptr :=
  Search_loop fuel k (Root t) h.

Definition Min (fuel : nat) (t : Tree) (h : heap) : option ptr :=
  if is_nil (Root t) then Some None else minNode fuel (Root t) h.

Definition Max (fuel : nat) (t : Tree) (h : heap) : option ptr :=
  if is_nil (Root t) then Some None else maxNode fuel (Root t) h.

Fixpoint Ceiling_loop (fuel : nat) (k : K) (curr result : ptr) (h : heap) : option ptr :=
  match fuel with
  | O => None
  | S fuel =>
    match curr with
    | None => Some result
    | Some c =>
      n ← h !! c;
      if equal k (key n) then Some curr
      else if less k (key n) then Ceiling_loop fuel k (left n) curr h
      else Ceiling_loop fuel k (right n) result h
    end
  end.

Definition Ceiling (fuel : nat) (t : Tree) (k : K) (h : heap) : option ptr :=
  Ceiling_loop fuel k (Root t) None h.

Fixpoint Floor_loop (fuel : nat) (k : K) (curr result : ptr) (h : heap) : option ptr :=
  match fuel with
  | O => None
  | S fuel =>
    match curr with
    | None => Some result
    | Some c =>
      n ← h !! c;
      if equal k (key n) then Some curr
      else if less k (key n) then Floor_loop fuel k (left n) result h
      else Floor_loop fuel k (right n) curr h
    end
  end.

Definition Floor (fuel : nat) (t : Tree) (k : K) (h : heap) : option ptr :=
  Floor_loop fuel k (Root t) None h.

Fixpoint Higher_loop (fuel : nat) (k : K) (curr result : ptr) (h : heap) : option ptr :=
  match fuel with
  | O => None
  | S fuel =>
    match curr with
    | None => Some result
    | Some c =>
      n ← h !! c;
      if less k (key n) then Higher_loop fuel k (left n) curr h
      else Higher_loop fuel k (right n) result h
    end
  end.

Definition Higher (fuel : nat) (t : Tree) (k : K) (h : heap) : option ptr :=
  Higher_loop fuel k (Root t) None h.

(** [key <= curr.key] is [key < curr.key || key == curr.key]. *)
Fixpoint Lower_loop (fuel : nat) (k : K) (curr result : ptr) (h : heap) : option ptr :=
  match fuel with
  | O => None
  | S fuel =>
    match curr with
    | None => Some result
    | Some c =>
      n ← h !! c;
      if less k (key n) || equal k (key n) then Lower_loop fuel k (left n) result h
      else Lower_loop fuel k (right n) curr h
    end
  end.

Definition Lower (fuel : nat) (t : Tree) (k : K) (h : heap) : option ptr :=
  Lower_loop fuel k (Root t) None h.

(** The loop [for p != nil && n == p.left { n = p; p = p.parent }]
    followed by the return. *)
Fixpoint Predecessor_loop (fuel : nat) (n p : ptr) (h : heap) : option ptr :=
  match fuel with
  | O => None
  | S fuel =>
    match p with
    | None => Some None
    | Some pl =>
      pn ← h !! pl;
      if ptr_eqb n (left pn) then Predecessor_loop fuel p (parent pn) h
      else Some p
    end
  end.

Definition Predecessor (fuel : nat) (n : ptr) (h : heap) : option ptr :=
  nn ← deref h n;
  if not_nil (left nn) then maxNode fuel (left nn) h
  else Predecessor_loop fuel n (parent nn) h.

Fixpoint Successor_loop (fuel : nat) (n p : ptr) (h : heap) : option ptr :=
  match fuel with
  | O => None
  | S fuel =>
    match p with
    | None => Some None
    | Some pl =>
      pn ← h !! pl;
      if ptr_eqb n (right pn) then Successor_loop fuel p (parent pn) h
      else Some p
    end
  end.

Definition Successor (fuel : nat) (n : ptr) (h : heap) : option ptr :=
  nn ← deref h n;
  if not_nil (right nn) then minNode fuel (right nn) h
  else Successor_loop fuel n (parent nn) h.

(** ** Iteration

    An [iter.Seq] is run against its consumer [yield], which sees the node
    (a copy, [*n]) and answers whether to go on; a consumer is a function
    of the nodes it has seen so far and of the current one.  The result is
    the sequence of nodes handed to [yield].  The stack is a list whose head
    is the top. *)

Definition consumer : Type := list Node -> Node -> bool.

(** A consumer that never stops: the whole sequence. *)
Definition all : consumer := fun _ _ => true.

(** [for curr != nil { stack = append(stack, curr); curr = curr.left }] *)
Fixpoint push_left (fuel : nat) (stack : list loc) (curr : ptr) (h : heap) : option (list loc) :=
  match fuel with
  | O => None
  | S fuel =>
    match curr with
    | None => Some stack
    | Some c => n ← h !! c; push_left fuel (c :: stack) (left n) h
    end
  end.

Fixpoint InOrder_loop (fuel : nat) (yield : consumer) (seen : list Node)
    (stack : list loc) (curr : ptr) (h : heap) : option (list Node) :=
  match fuel with
  | O => None
  | S fuel' =>
    if is_nil curr && bool_decide (stack = []) then Some seen
    else
      stack ← push_left fuel stack curr h;
      match stack with
      | [] => None
      | c :: stack =>
        n ← h !! c;
        if yield seen n then InOrder_loop fuel' yield (seen ++ [n]) stack (right n) h
        else Some (seen ++ [n])
      end
  end.

Definition InOrder (fuel : nat) (t : Tree) (yield : consumer) (h : heap) : option (list Node) :=
  InOrder_loop fuel yield [] [] (Root t) h.

(** [n.key >= from] is [!(n.key < from)]. *)
Fixpoint Range_loop (fuel : nat) (from to : K) (yield : consumer) (seen : list Node)
    (stack : list loc) (curr : ptr) (h : heap) : option (list Node) :=
  match fuel with
  | O => None
  | S fuel' =>
    if is_nil curr && bool_decide (stack = []) then Some seen
    else
      stack ← push_left fuel stack curr h;
      match stack with
      | [] => None
      | c :: stack =>
        n ← h !! c;
        let next := if negb (less (key n) to) then None else right n in
        if negb (less (key n) from) && less (key n) to then
          if yield seen n then Range_loop fuel' from to yield (seen ++ [n]) stack next h
          else Some (seen ++ [n])
        else Range_loop fuel' from to yield seen stack next h
      end
  end.

Definition Range (fuel : nat) (t : Tree) (from to : K) (yield : consumer) (h : heap)
    : option (list Node) :=
  Range_loop fuel from to yield [] [] (Root t) h.

(** ** Order statistics *)

(** [leftSize := 0; if p != nil { leftSize = p.size }] *)
Definition size_of (p : ptr) (h : heap) : option Z :=
  if is_nil p then Some 0 else size <$> deref h p.

Fixpoint Rank_loop (fuel : nat) (k : K) (rank : Z) (curr : ptr) (h : heap) : option Z :=
  match fuel with
  | O => None
  | S fuel =>
    match curr with
    | None => Some rank
    | Some c =>
      n ← h !! c;
      if less k (key n) then Rank_loop fuel k rank (left n) h
      else
        leftSize ← size_of (left n) h;
        if equal k (key n) then Some (rank + leftSize)
        else Rank_loop fuel k (rank + (leftSize + 1)) (right n) h
    end
  end.

Definition Rank (fuel : nat) (t : Tree) (k : K) (h : heap) : option Z :=
  Rank_loop fuel k 0 (Root t) h.

Fixpoint Kth_loop (fuel : nat) (k : Z) (curr : ptr) (h : heap) : option ptr :=
  match fuel with
  | O => None
  | S fuel =>
    match curr with
    | None => Some None
    | Some c =>
      n ← h !! c;
      leftSize ← size_of (left n) h;
      if k <? leftSize then Kth_loop fuel k (left n) h
      else if k >? leftSize then Kth_loop fuel (k - (leftSize + 1)) (right n) h
      else Some curr
    end
  end.

Definition Kth (fuel : nat) (t : Tree) (k : Z) (h : heap) : option ptr :=
  Kth_loop fuel k (Root t) h.

Definition Len (t : Tree) (h : heap) : option Z := size_of (Root t) h.

End Model.

(** * Verification *)

(** ** Reasoning about keys *)

Section Keys.
Context {K : Type} `{Ordered K}.

Definition klt (x y : K) : Prop := less x y = true.
Definition kle (x y : K) : Prop := less y x = false.

Lemma klt_irrefl x : ~ klt x x.
Proof. unfold klt. rewrite less_irrefl. discriminate. Qed.

Lemma klt_trans x y z : klt x y -> klt y z -> klt x z.
Proof. apply less_trans. Qed.

Lemma klt_asym x y : klt x y -> ~ klt y x.
Proof. intros H1 H2. exact (klt_irrefl x (klt_trans _ _ _ H1 H2)). Qed.

Lemma klt_le x y : klt x y -> kle x y.
Proof.
  intros H1. unfold kle. destruct (less y x) eqn:E; [|done].
  destruct (klt_asym _ _ H1 E).
Qed.

Lemma kle_refl x : kle x x.
Proof. apply less_irrefl. Qed.

Lemma kle_antisym x y : kle x y -> kle y x -> x = y.
Proof. intros H1 H2. apply less_total; assumption. Qed.

Lemma kle_lt_trans x y z : kle x y -> klt y z -> klt x z.
Proof.
  intros H1 H2. destruct (less x y) eqn:E.
  - exact (klt_trans _ _ _ E H2).
  - rewrite (less_total _ _ E H1). exact H2.
Qed.

Lemma klt_le_trans x y z : klt x y -> kle y z -> klt x z.
Proof.
  intros H1 H2. destruct (less y z) eqn:E.
  - exact (klt_trans _ _ _ H1 E).
  - rewrite <- (less_total _ _ E H2). exact H1.
Qed.

Lemma kle_trans x y z : kle x y -> kle y z -> kle x z.
Proof.
  intros H1 H2. unfold kle. destruct (less z x) eqn:E; [|done].
  destruct (klt_irrefl z).
  apply klt_le_trans with y; [apply klt_le_trans with x|]; assumption.
Qed.

Lemma knot_lt_le x y : less x y = false -> kle y x.
Proof. done. Qed.

Lemma equal_true x y : equal x y = true -> x = y.
Proof. apply equal_spec. Qed.

Lemma equal_false x y : equal x y = false -> x <> y.
Proof. intros E ->. rewrite (proj2 (equal_spec y y) eq_refl) in E. discriminate. Qed.

Lemma equal_refl x : equal x x = true.
Proof. by apply equal_spec. Qed.

Lemma kle_neq_lt x y : kle x y -> x <> y -> klt x y.
Proof.
  intros H1 H2. unfold klt. destruct (less x y) eqn:E; [done|].
  destruct H2. by apply less_total.
Qed.

End Keys.

(** [order] decides a goal from the comparisons in the context: it
    saturates them under transitivity and looks for [x < x]. *)
Ltac order_prep :=
  repeat match goal with
  | H : less ?x ?y = true |- _ => change (klt x y) in H
  | H : less ?x ?y = false |- _ => change (kle y x) in H
  | H : equal _ _ = true |- _ => apply equal_true in H
  | H : equal _ _ = false |- _ => apply equal_false in H
  | H : ~ klt ?x ?y |- _ => apply not_true_is_false in H; change (kle y x) in H
  | |- less ?x ?y = true => change (klt x y)
  | |- less ?x ?y = false => change (kle y x)
  | |- equal _ _ = true => apply equal_spec
  | |- equal ?x ?y = false =>
      let E := fresh in destruct (equal x y) eqn:E; [exfalso|reflexivity]
  | |- ~ _ => intro
  end.

Ltac order_new H :=
  let T := type of H in
  lazymatch goal with
  | _ : T |- _ => fail
  | _ => pose proof H
  end.

Ltac order_sat :=
  repeat match goal with
  | H : klt ?x ?x |- _ => destruct (klt_irrefl x H)
  | H1 : klt ?x ?y, H2 : klt ?y ?z |- _ => order_new (klt_trans x y z H1 H2)
  | H1 : kle ?x ?y, H2 : klt ?y ?z |- _ => order_new (kle_lt_trans x y z H1 H2)
  | H1 : klt ?x ?y, H2 : kle ?y ?z |- _ => order_new (klt_le_trans x y z H1 H2)
  | H1 : kle ?x ?y, H2 : kle ?y ?x |- _ =>
      first [ constr_eq x y; fail 1
            | pose proof (kle_antisym x y H1 H2); subst; clear H1 ]
  | H1 : kle ?x ?y, H2 : kle ?y ?z |- _ => order_new (kle_trans x y z H1 H2)
  end.

Ltac order_goal :=
  lazymatch goal with
  | |- klt ?x ?y =>
      let E := fresh in
      destruct (less x y) eqn:E; [exact E|exfalso; change (kle y x) in E]
  | |- kle ?x ?y =>
      let E := fresh in
      destruct (less y x) eqn:E; [exfalso; change (klt y x) in E|exact E]
  | |- @eq _ ?x ?y => apply kle_antisym; order_goal
  | |- False => idtac
  | |- _ => exfalso
  end.

Ltac order := order_prep; subst; order_goal; order_sat; try congruence.

(** ** The tree a store holds

    A [tree] is the shape the store holds below a pointer: at each node
    its address, key and value.  Heights and sizes are not part of it;
    they are computed, and [repr] says that the stored fields agree. *)

Section Shape.
Context {K V : Type} `{Ordered K}.

Abbreviation Node := (Node K V).
Abbreviation heap := (list Node).

Inductive tree : Type :=
| Leaf
| Br (l : tree) (p : loc) (k : K) (v : V) (r : tree).

Fixpoint ht (t : tree) : Z :=
  match t with
  | Leaf => 0
  | Br l _ _ _ r => Z.max (ht l) (ht r) + 1
  end.

Fixpoint sz (t : tree) : Z :=
  match t with
  | Leaf => 0
  | Br l _ _ _ r => 1 + sz l + sz r
  end.

Fixpoint depth (t : tree) : nat :=
  match t with
  | Leaf => O
  | Br l _ _ _ r => S (Nat.max (depth l) (depth r))
  end.

Definition root_of (t : tree) : ptr :=
  match t with
  | Leaf => None
  | Br _ p _ _ _ => Some p
  end.

Fixpoint locs (t : tree) : list loc :=
  match t with
  | Leaf => []
  | Br l p _ _ r => locs l ++ p :: locs r
  end.

Fixpoint keys (t : tree) : list K :=
  match t with
  | Leaf => []
  | Br l _ k _ r => keys l ++ k :: keys r
  end.

Fixpoint kvs (t : tree) : list (K * V) :=
  match t with
  | Leaf => []
  | Br l _ k v r => kvs l ++ (k, v) :: kvs r
  end.

(** The node stored for the root of [Br l p k v r] below the parent [par]. *)
Definition node_of (par : ptr) (l : tree) (k : K) (v : V) (r : tree) : Node :=
  mkNode k v (Z.max (ht l) (ht r) + 1) (1 + sz l + sz r) (root_of l) (root_of r) par.

Fixpoint nodes (par : ptr) (t : tree) : list Node :=
  match t with
  | Leaf => []
  | Br l p k v r => nodes (Some p) l ++ node_of par l k v r :: nodes (Some p) r
  end.

(** The store [h] holds [t] below the parent [par]: every field of every
    node, the parent back-reference included, is as the shape says. *)
Fixpoint repr (h : heap) (par : ptr) (t : tree) : Prop :=
  match t with
  | Leaf => True
  | Br l p k v r =>
      h !! p = Some (node_of par l k v r) /\ repr h (Some p) l /\ repr h (Some p) r
  end.

(** The node at [p] has the children [l] and [r], which the store holds;
    its own height and size are not yet refreshed. *)
Definition stale (h : heap) (par : ptr) (l : tree) (p : loc) (k : K) (v : V) (r : tree) : Prop :=
  (exists hh ss, h !! p = Some (mkNode k v hh ss (root_of l) (root_of r) par))
  /\ repr h (Some p) l /\ repr h (Some p) r.

(** [h'] is [h] but for the nodes at [ls]. *)
Definition updated (h h' : heap) (ls : list loc) : Prop :=
  length h' = length h /\ forall q, q ∉ ls -> h' !! q = h !! q.

Lemma ht_nonneg t : 0 <= ht t.
Proof. induction t; simpl; lia. Qed.

Lemma sz_nonneg t : 0 <= sz t.
Proof. induction t; simpl; lia. Qed.

Lemma sz_length t : sz t = Z.of_nat (length (locs t)).
Proof. induction t; [done|]. cbn [sz locs]. rewrite length_app. cbn [length]. lia. Qed.

Lemma ht_depth t : ht t = Z.of_nat (depth t).
Proof. induction t; [done|]. cbn [ht depth]. lia. Qed.

Lemma depth_le_size t : (depth t <= length (locs t))%nat.
Proof. induction t; simpl; [done|]. rewrite length_app. simpl. lia. Qed.

Lemma length_keys t : length (keys t) = length (locs t).
Proof. induction t; simpl; [done|]. rewrite !length_app. simpl. lia. Qed.

Lemma keys_kvs t : keys t = (kvs t).*1.
Proof. induction t; [done|]. cbn [keys kvs]. by rewrite fmap_app, fmap_cons, IHt1, IHt2. Qed.

Lemma keys_nodes par t : keys t = key <$> nodes par t.
Proof.
  revert par. induction t; intros par; [done|]. cbn [keys nodes].
  by rewrite fmap_app, fmap_cons, <- IHt1, <- IHt2.
Qed.

Lemma length_nodes par t : length (nodes par t) = length (locs t).
Proof.
  revert par. induction t; intros par; simpl; [done|].
  rewrite !length_app. simpl. by rewrite IHt1, IHt2.
Qed.

Lemma max_Zmax a b : max a b = Z.max a b.
Proof. unfold max. destruct (Z.gtb_spec a b); lia. Qed.

Lemma repr_locs_lt h par t q : repr h par t -> q ∈ locs t -> (q < length h)%nat.
Proof.
  revert par. induction t; intros par; simpl.
  - intros _ Hq. by apply elem_of_nil in Hq.
  - intros (Hp & Hl & Hr) Hq.
    apply elem_of_app in Hq as [Hq|Hq]; [by eapply IHt1|].
    apply elem_of_cons in Hq as [->|Hq]; [|by eapply IHt2].
    by eapply lookup_lt_Some.
Qed.

Lemma repr_frame h h' par t :
  repr h par t -> (forall q, q ∈ locs t -> h' !! q = h !! q) -> repr h' par t.
Proof.
  revert par. induction t; intros par; simpl; [done|].
  intros (Hp & Hl & Hr) Hq. split_and!.
  - rewrite Hq; [done|]. apply elem_of_app. right. apply elem_of_cons. by left.
  - apply IHt1; [done|]. intros q Hin. apply Hq. apply elem_of_app. by left.
  - apply IHt2; [done|]. intros q Hin. apply Hq.
    apply elem_of_app. right. apply elem_of_cons. by right.
Qed.

Lemma repr_updated h h' par t ls :
  repr h par t -> updated h h' ls -> (forall q, q ∈ locs t -> q ∉ ls) -> repr h' par t.
Proof.
  intros Hr [_ Hu] Hd. eapply repr_frame; [done|].
  intros q Hq. apply Hu. by apply Hd.
Qed.

Lemma repr_app h par t n : repr h par t -> repr (h ++ [n]) par t.
Proof.
  intros Hr. eapply repr_frame; [done|].
  intros q Hq. apply lookup_app_l. by eapply repr_locs_lt.
Qed.

Lemma updated_refl h ls : updated h h ls.
Proof. by split. Qed.

Lemma updated_trans h1 h2 h3 ls1 ls2 ls :
  updated h1 h2 ls1 -> updated h2 h3 ls2 -> ls1 ⊆ ls -> ls2 ⊆ ls -> updated h1 h3 ls.
Proof.
  intros [L1 U1] [L2 U2] S1 S2. split; [congruence|].
  intros q Hq. rewrite U2, U1; [done| |]; intros Hin; apply Hq; auto.
Qed.

Lemma updated_weaken h h' ls ls' : updated h h' ls -> ls ⊆ ls' -> updated h h' ls'.
Proof. intros [L U] S. split; [done|]. intros q Hq. apply U. intros Hin. by apply Hq, S. Qed.

Lemma updated_insert h p n ls : p ∈ ls -> updated h (<[p := n]> h) ls.
Proof.
  intros Hp. split; [apply length_insert|].
  intros q Hq. apply list_lookup_insert_ne. by intros ->.
Qed.

(** The height and size a pointer stands for, as [height(n)] and the
    [leftSize] idiom read them. *)
Definition hgt (h : heap) (p : ptr) : Z :=
  match p with
  | Some l => match h !! l with Some n => height n | None => 0 end
  | None => 0
  end.

Definition siz (h : heap) (p : ptr) : Z :=
  match p with
  | Some l => match h !! l with Some n => size n | None => 0 end
  | None => 0
  end.

Lemma repr_hgt h par t : repr h par t -> hgt h (root_of t) = ht t.
Proof. destruct t; simpl; [done|]. by intros (-> & _). Qed.

Lemma repr_siz h par t : repr h par t -> siz h (root_of t) = sz t.
Proof. destruct t; simpl; [done|]. by intros (-> & _). Qed.

Lemma repr_size_of h par t : repr h par t -> size_of (root_of t) h = Some (sz t).
Proof. destruct t; simpl; [done|]. unfold size_of. simpl. by intros (-> & _). Qed.

End Shape.

(** ** Running the mutating code on a store *)

Section Run.
Context {K V : Type} `{Ordered K}.

Abbreviation Node := (Node K V).
Abbreviation heap := (list Node).
Abbreviation M := (StoreM K V).

Lemma bind_eq {A B} (m : M A) (f : A -> M B) (h h1 : heap) a r :
  m h = Some (a, h1) -> f a h1 = r -> bind m f h = r.
Proof. unfold bind. by intros -> ->. Qed.

Lemma get_eq {A} (f : Node -> A) (h : heap) l n :
  h !! l = Some n -> get f (Some l) h = Some (f n, h).
Proof. unfold get. by intros ->. Qed.

Lemma set_eq (u : Node -> Node) (h : heap) l n :
  h !! l = Some n -> set (Some l) u h = Some (tt, <[l := u n]> h).
Proof. unfold set. by intros ->. Qed.

Lemma read_eq {A} (q : heap -> option A) (h : heap) a :
  q h = Some a -> read q h = Some (a, h).
Proof. unfold read. by intros ->. Qed.

(** A child pointer of the node at [p]: [nil], or another node of the store. *)
Definition child_ok (h : heap) (p : loc) (q : ptr) : Prop :=
  match q with
  | None => True
  | Some c => c <> p /\ is_Some (h !! c)
  end.

Lemma child_ok_insert (h : heap) p q l n : child_ok h p q -> child_ok (<[l := n]> h) p q.
Proof.
  destruct q as [c|]; [|done]. intros [? ?]. split; [done|].
  by apply list_lookup_insert_is_Some.
Qed.

(** The addresses among some pointers. *)
Fixpoint somes (l : list ptr) : list loc :=
  match l with
  | [] => []
  | Some x :: l => x :: somes l
  | None :: l => somes l
  end.

(** [q.parent = par] when [q] is not [nil]. *)
Definition reparent (par : ptr) (q : ptr) (h : heap) : heap :=
  match q with
  | Some c => match h !! c with Some n => <[c := set_parent par n]> h | None => h end
  | None => h
  end.

End Run.

Ltac heap_len :=
  rewrite ?length_insert;
  first [ lia | eapply lookup_lt_Some; eassumption | eapply lookup_lt_is_Some_1; eassumption ].

(** Solve [h' !! l = Some ?n] where [h'] is a store updated at known addresses. *)
Ltac lookup :=
  lazymatch goal with
  | |- <[?p := _]> _ !! ?q = _ =>
      first [ rewrite (list_lookup_insert_ne _ p q) by congruence; lookup
            | rewrite (list_lookup_insert_eq _ p) by heap_len; reflexivity ]
  | |- _ => eassumption
  end.

Ltac msimpl :=
  cbv beta;
  cbn [key value height size left right parent
       set_key set_value set_height set_size set_left set_right set_parent
       not_nil is_nil negb when orb andb fst snd].

Ltac record_simpl :=
  unfold set_key, set_value, set_height, set_size, set_left, set_right, set_parent;
  cbn [key value height size left right parent].

(** Equality of two nodes given field by field. *)
Ltac record_eq := record_simpl; f_equal; try done; try lia.

Ltac nodup_facts :=
  repeat match goal with
  | H : NoDup (_ :: _) |- _ => apply NoDup_cons in H as [? ?]
  | H : NoDup [] |- _ => clear H
  | H : _ ∉ _ :: _ |- _ => apply not_elem_of_cons in H as [? ?]
  | H : _ ∉ [] |- _ => clear H
  end.

Ltac forall_facts :=
  repeat match goal with
  | H : Forall _ (_ :: _) |- _ => apply Forall_cons in H as [? ?]
  | H : Forall _ [] |- _ => clear H
  | H : is_Some _ |- _ => destruct H
  end.

(** Read through the updates of a store. *)
Ltac hsimpl :=
  unfold hgt, siz;
  repeat first
    [ rewrite list_lookup_insert_ne by congruence
    | rewrite list_lookup_insert_eq by heap_len
    | match goal with
      | H : ?h !! ?l = Some _ |- context [?h !! ?l] => rewrite H
      end ];
  rewrite ?list_insert_insert_eq; record_simpl.

(** Two stores built by updates of one store are equal: compare them
    address by address. *)
Ltac heap_eq_at i :=
  repeat first [ rewrite list_lookup_insert_ne by congruence
               | rewrite list_lookup_insert_eq by heap_len ];
  try reflexivity;
  lazymatch goal with
  | |- context [<[?p := _]> _ !! i] =>
      destruct (decide (p = i)); [subst i|]; heap_eq_at i
  | |- _ => idtac
  end.

Ltac heap_eq :=
  let i := fresh "i" in
  apply list_eq; intros i; heap_eq_at i.

(** Close [Some (a, h) = Some (?a, ?h)]; leave a concrete result to the proof. *)
Ltac mdone :=
  lazymatch goal with
  | |- _ = Some (_, ?h) => tryif is_evar h then reflexivity else idtac
  | |- _ => idtac
  end.

(** Run straight-line code: reads, writes and returns at known addresses. *)
Ltac mrun :=
  msimpl;
  lazymatch goal with
  | |- bind _ _ _ = _ => eapply bind_eq; [ mrun | mrun ]
  | |- get _ (Some _) _ = _ => etrans; [ eapply get_eq; lookup | mdone ]
  | |- set (Some _) _ _ = _ => etrans; [ eapply set_eq; lookup | mdone ]
  | |- ret _ _ = _ => unfold ret; mdone
  | |- _ => idtac
  end.

Section UpdateSize.
Context {K V : Type} `{Ordered K}.

Abbreviation Node := (Node K V).
Abbreviation heap := (list Node).

Lemma updateSize_spec (h : heap) p n :
  h !! p = Some n -> child_ok h p (left n) -> child_ok h p (right n) ->
  updateSize (Some p) h =
    Some (tt, <[p := mkNode (key n) (value n)
                       (Z.max (hgt h (left n)) (hgt h (right n)) + 1)
                       (1 + siz h (left n) + siz h (right n))
                       (left n) (right n) (parent n)]> h).
Proof.
  intros Hp Hl Hr. destruct n as [k v hh ss l r par]. cbn [left right key value parent] in *.
  destruct l as [lc|], r as [rc|]; cbn [child_ok hgt siz] in *;
    repeat match goal with H : _ /\ is_Some _ |- _ => destruct H as [? [? ?]] end;
    repeat match goal with H : _ !! _ = Some _ |- _ => rewrite H end;
    unfold updateSize, height_of; mrun;
    rewrite ?list_insert_insert_eq, ?max_Zmax;
    do 3 f_equal; rewrite ?max_Zmax; record_eq.
Qed.

Lemma balanceFactor_spec (h : heap) p n :
  h !! p = Some n -> child_ok h p (left n) -> child_ok h p (right n) ->
  balanceFactor (Some p) h = Some (hgt h (left n) - hgt h (right n), h).
Proof.
  intros Hp Hl Hr. destruct n as [k v hh ss l r par]. cbn [left right key value parent] in *.
  destruct l as [lc|], r as [rc|]; cbn [child_ok hgt siz] in *;
    repeat match goal with H : _ /\ is_Some _ |- _ => destruct H as [? [? ?]] end;
    repeat match goal with H : _ !! _ = Some _ |- _ => rewrite H end;
    unfold balanceFactor, height_of; mrun; reflexivity.
Qed.

End UpdateSize.

Ltac child_ok_solve :=
  msimpl; repeat apply child_ok_insert;
  lazymatch goal with
  | |- child_ok _ _ None => exact I
  | |- child_ok _ _ (Some _) => split; [congruence|eauto]
  | |- _ => idtac
  end.

(** [mrun], with [updateSize] as one step. *)
Ltac mrun2 :=
  msimpl;
  lazymatch goal with
  | |- bind _ _ _ = _ => eapply bind_eq; [ mrun2 | mrun2 ]
  | |- get _ (Some _) _ = _ => etrans; [ eapply get_eq; lookup | mdone ]
  | |- set (Some _) _ _ = _ => etrans; [ eapply set_eq; lookup | mdone ]
  | |- updateSize (Some _) _ = _ =>
      etrans; [ eapply updateSize_spec; [ lookup | child_ok_solve | child_ok_solve ]
              | mdone ]
  | |- ret _ _ = _ => unfold ret; mdone
  | |- _ => idtac
  end.

Section Rotations.
Context {K V : Type} `{Ordered K}.

Abbreviation Node := (Node K V).
Abbreviation heap := (list Node).

(** What [rotateLeft(z)] leaves in the store: [y = z.right] takes the place
    of [z], [z] becomes its left child and takes over [y]'s left child. *)
Lemma rotateLeft_heap (h : heap) z zn y yn :
  h !! z = Some zn -> right zn = Some y -> h !! y = Some yn ->
  NoDup (z :: y :: somes [left zn; left yn; right yn]) ->
  Forall (fun q => is_Some (h !! q)) (somes [left zn; left yn; right yn]) ->
  let HZ := Z.max (hgt h (left zn)) (hgt h (left yn)) + 1 in
  let SZ := 1 + siz h (left zn) + siz h (left yn) in
  rotateLeft (Some z) h =
    Some (Some y,
      <[y := mkNode (key yn) (value yn) (Z.max HZ (hgt h (right yn)) + 1)
                    (1 + SZ + siz h (right yn)) (Some z) (right yn) (parent zn)]>
      (<[z := mkNode (key zn) (value zn) HZ SZ (left zn) (left yn) (Some y)]>
      (reparent (Some z) (left yn) h))).
Proof.
  intros Hz Hzr Hy Hnd Hok HZ SZ. subst HZ SZ.
  destruct zn as [kz vz hz sz a zr pz], yn as [ky vy hy sy b c py].
  cbn [left right key value parent] in *. subst zr.
  destruct a as [a|], b as [b|], c as [c|]; cbn [somes reparent] in *;
    nodup_facts; forall_facts;
    repeat match goal with H : h !! _ = Some _ |- _ => rewrite H end;
    unfold rotateLeft; mrun2; hsimpl; do 2 f_equal; heap_eq.
Qed.

(** The mirror image: [y = z.left] takes the place of [z]. *)
Lemma rotateRight_heap (h : heap) z zn y yn :
  h !! z = Some zn -> left zn = Some y -> h !! y = Some yn ->
  NoDup (z :: y :: somes [right zn; right yn; left yn]) ->
  Forall (fun q => is_Some (h !! q)) (somes [right zn; right yn; left yn]) ->
  let HZ := Z.max (hgt h (right yn)) (hgt h (right zn)) + 1 in
  let SZ := 1 + siz h (right yn) + siz h (right zn) in
  rotateRight (Some z) h =
    Some (Some y,
      <[y := mkNode (key yn) (value yn) (Z.max (hgt h (left yn)) HZ + 1)
                    (1 + siz h (left yn) + SZ) (left yn) (Some z) (parent zn)]>
      (<[z := mkNode (key zn) (value zn) HZ SZ (right yn) (right zn) (Some y)]>
      (reparent (Some z) (right yn) h))).
Proof.
  intros Hz Hzl Hy Hnd Hok HZ SZ. subst HZ SZ.
  destruct zn as [kz vz hz sz zl c pz], yn as [ky vy hy sy a b py].
  cbn [left right key value parent] in *. subst zl.
  destruct a as [a|], b as [b|], c as [c|]; cbn [somes reparent] in *;
    nodup_facts; forall_facts;
    repeat match goal with H : h !! _ = Some _ |- _ => rewrite H end;
    unfold rotateRight; mrun2; hsimpl; do 2 f_equal; heap_eq.
Qed.

End Rotations.

Ltac nodup_split :=
  repeat match goal with
  | H : NoDup (_ ++ _) |- _ => apply NoDup_app in H as (? & ? & ?)
  | H : NoDup (_ :: _) |- _ => apply NoDup_cons in H as (? & ?)
  end.

(** ** The mutating code in terms of the tree it works on *)

Section Ghost.
Context {K V : Type} `{Ordered K}.

Abbreviation Node := (Node K V).
Abbreviation heap := (list Node).
Abbreviation tree := (@tree K V).

Definition rotL (t : tree) : tree :=
  match t with
  | Br a z kz vz (Br b y ky vy c) => Br (Br a z kz vz b) y ky vy c
  | _ => t
  end.

Definition rotR (t : tree) : tree :=
  match t with
  | Br (Br a y ky vy b) z kz vz c => Br a y ky vy (Br b z kz vz c)
  | _ => t
  end.

Lemma root_in_locs (t : tree) q : root_of t = Some q -> q ∈ locs t.
Proof. destruct t; simpl; [done|]. intros [= ->]. set_solver. Qed.

Lemma repr_root_is_Some (h : heap) par (t : tree) q :
  repr h par t -> root_of t = Some q -> is_Some (h !! q).
Proof. destruct t; simpl; [done|]. intros (Hp & _) [= ->]. eauto. Qed.

Lemma root_sublist (t : tree) : somes [root_of t] `sublist_of` locs t.
Proof.
  destruct t as [|l p k v r]; simpl; [done|].
  apply sublist_inserts_l. apply sublist_skip. apply sublist_nil_l.
Qed.

Lemma roots_sublist (a b c : tree) :
  somes [root_of a; root_of b; root_of c] `sublist_of` locs a ++ locs b ++ locs c.
Proof.
  replace (somes [root_of a; root_of b; root_of c])
    with (somes [root_of a] ++ somes [root_of b] ++ somes [root_of c])
    by (by destruct (root_of a), (root_of b), (root_of c)).
  repeat apply sublist_app; apply root_sublist.
Qed.

Lemma NoDup_roots z y (a b c : tree) :
  z <> y -> z ∉ locs a ++ locs b ++ locs c -> y ∉ locs a ++ locs b ++ locs c ->
  NoDup (locs a ++ locs b ++ locs c) ->
  NoDup (z :: y :: somes [root_of a; root_of b; root_of c]).
Proof.
  intros Hzy Hz Hy Hnd. pose proof (roots_sublist a b c) as Hs.
  apply NoDup_cons. split.
  - apply not_elem_of_cons. split; [done|]. intros Hin. apply Hz. by eapply elem_of_sublist.
  - apply NoDup_cons. split; [|by eapply sublist_NoDup].
    intros Hin. apply Hy. by eapply elem_of_sublist.
Qed.

Lemma Forall_roots (h : heap) pa pb pc (a b c : tree) :
  repr h pa a -> repr h pb b -> repr h pc c ->
  Forall (fun q => is_Some (h !! q)) (somes [root_of a; root_of b; root_of c]).
Proof.
  intros Ha Hb Hc.
  pose proof (fun q => repr_root_is_Some _ _ _ q Ha) as Sa.
  pose proof (fun q => repr_root_is_Some _ _ _ q Hb) as Sb.
  pose proof (fun q => repr_root_is_Some _ _ _ q Hc) as Sc.
  destruct (root_of a), (root_of b), (root_of c); cbn [somes];
    repeat (apply Forall_cons; split); try apply Forall_nil_2; eauto.
Qed.

Lemma updated_reparent (h : heap) par q ls :
  (forall c, q = Some c -> c ∈ ls) -> updated h (reparent par q h) ls.
Proof.
  intros Hq. destruct q as [c|]; simpl; [|apply updated_refl].
  destruct (h !! c); [|apply updated_refl]. apply updated_insert. auto.
Qed.

Lemma updated_insert_r (h h' : heap) p n ls :
  updated h h' ls -> p ∈ ls -> updated h (<[p := n]> h') ls.
Proof.
  intros [L U] Hp. split; [by rewrite length_insert|].
  intros q Hq. rewrite list_lookup_insert_ne; [by apply U|]. by intros ->.
Qed.

Lemma length_reparent (h : heap) par q : length (reparent par q h) = length h.
Proof. destruct q as [c|]; simpl; [|done]. destruct (h !! c); [|done]. apply length_insert. Qed.

Lemma reparent_lookup_ne (h : heap) par q p : q <> Some p -> reparent par q h !! p = h !! p.
Proof.
  intros Hq. destruct q as [c|]; simpl; [|done]. destruct (h !! c); [|done].
  apply list_lookup_insert_ne. congruence.
Qed.

Lemma repr_insert_ne (h : heap) par (t : tree) p n :
  repr h par t -> p ∉ locs t -> repr (<[p := n]> h) par t.
Proof.
  intros Hr Hp. eapply repr_frame; [done|]. intros q Hq.
  apply list_lookup_insert_ne. by intros ->.
Qed.

Lemma repr_reparent_ne (h : heap) par par' (t : tree) q :
  repr h par t -> (forall c, q = Some c -> c ∉ locs t) -> repr (reparent par' q h) par t.
Proof.
  intros Hr Hq. eapply repr_frame; [done|]. intros p Hp.
  apply reparent_lookup_ne. intros ->. by eapply Hq.
Qed.

(** A subtree handed to another parent. *)
Lemma repr_reparent (h : heap) par par' (t : tree) :
  repr h par t -> NoDup (locs t) -> repr (reparent par' (root_of t) h) par' t.
Proof.
  destruct t as [|l p k v r]; [done|]. simpl. intros (Hp & Hl & Hr) Hnd.
  rewrite Hp. nodup_split.
  split_and!.
  - rewrite list_lookup_insert_eq by heap_len. done.
  - apply repr_insert_ne; [done|]. set_solver.
  - by apply repr_insert_ne.
Qed.

Lemma rotateLeft_repr (h : heap) par a z kz vz b y ky vy c :
  stale h par a z kz vz (Br b y ky vy c) ->
  NoDup (locs (Br a z kz vz (Br b y ky vy c))) ->
  exists h', rotateLeft (Some z) h = Some (Some y, h')
    /\ repr h' par (Br (Br a z kz vz b) y ky vy c)
    /\ updated h h' (locs (Br a z kz vz (Br b y ky vy c))).
Proof.
  intros ((hh & ss & Hz) & Ha & Hy & Hb & Hc) Hnd. cbn [locs] in Hnd.
  assert (Hlz := lookup_lt_Some _ _ _ Hz). assert (Hly := lookup_lt_Some _ _ _ Hy).
  pose proof (root_in_locs b) as Rb.
  nodup_split.
  assert (z <> y) by set_solver.
  eexists. split; [|split].
  - eapply rotateLeft_heap; [exact Hz|reflexivity|exact Hy| |]; cbn [left right node_of].
    + apply NoDup_roots; [done|set_solver|set_solver|].
      apply NoDup_app. split_and!; [done|set_solver|]. apply NoDup_app. set_solver.
    + by eapply Forall_roots.
  - cbn [left right node_of key value parent repr].
    rewrite (repr_hgt _ _ _ Ha), (repr_hgt _ _ _ Hb), (repr_hgt _ _ _ Hc).
    rewrite (repr_siz _ _ _ Ha), (repr_siz _ _ _ Hb), (repr_siz _ _ _ Hc).
    split_and!.
    + by rewrite list_lookup_insert_eq by (rewrite length_insert, length_reparent; lia).
    + rewrite list_lookup_insert_ne by done.
      by rewrite list_lookup_insert_eq by (rewrite length_reparent; lia).
    + do 2 (apply repr_insert_ne; [|set_solver]).
      apply repr_reparent_ne; [done|]. set_solver.
    + do 2 (apply repr_insert_ne; [|set_solver]). by eapply repr_reparent.
    + do 2 (apply repr_insert_ne; [|set_solver]).
      apply repr_reparent_ne; [done|]. set_solver.
  - cbn [locs left node_of].
    do 2 (apply updated_insert_r; [|set_solver]).
    apply updated_reparent. intros q Hq. apply Rb in Hq. set_solver.
Qed.

Lemma rotateRight_repr (h : heap) par a y ky vy b z kz vz c :
  stale h par (Br a y ky vy b) z kz vz c ->
  NoDup (locs (Br (Br a y ky vy b) z kz vz c)) ->
  exists h', rotateRight (Some z) h = Some (Some y, h')
    /\ repr h' par (Br a y ky vy (Br b z kz vz c))
    /\ updated h h' (locs (Br (Br a y ky vy b) z kz vz c)).
Proof.
  intros ((hh & ss & Hz) & (Hy & Ha & Hb) & Hc) Hnd. cbn [locs] in Hnd.
  assert (Hlz := lookup_lt_Some _ _ _ Hz). assert (Hly := lookup_lt_Some _ _ _ Hy).
  pose proof (root_in_locs b) as Rb.
  nodup_split.
  assert (z <> y) by set_solver.
  eexists. split; [|split].
  - eapply rotateRight_heap; [exact Hz|reflexivity|exact Hy| |]; cbn [left right node_of].
    + apply NoDup_roots; [done|set_solver|set_solver|].
      apply NoDup_app. split_and!; [done|set_solver|]. apply NoDup_app. set_solver.
    + by eapply Forall_roots.
  - cbn [left right node_of key value parent repr].
    rewrite (repr_hgt _ _ _ Ha), (repr_hgt _ _ _ Hb), (repr_hgt _ _ _ Hc).
    rewrite (repr_siz _ _ _ Ha), (repr_siz _ _ _ Hb), (repr_siz _ _ _ Hc).
    split_and!.
    + by rewrite list_lookup_insert_eq by (rewrite length_insert, length_reparent; lia).
    + do 2 (apply repr_insert_ne; [|set_solver]).
      apply repr_reparent_ne; [done|]. set_solver.
    + rewrite list_lookup_insert_ne by done.
      by rewrite list_lookup_insert_eq by (rewrite length_reparent; lia).
    + do 2 (apply repr_insert_ne; [|set_solver]). by eapply repr_reparent.
    + do 2 (apply repr_insert_ne; [|set_solver]).
      apply repr_reparent_ne; [done|]. set_solver.
  - cbn [locs left node_of].
    do 2 (apply updated_insert_r; [|set_solver]).
    apply updated_reparent. intros q Hq. apply Rb in Hq. set_solver.
Qed.

End Ghost.

Section Rebalance.
Context {K V : Type} `{Ordered K}.
Abbreviation Node := (Node K V).
Abbreviation heap := (list Node).
Abbreviation tree := (@tree K V).

Lemma repr_stale (h : heap) par l p k v r :
  repr h par (Br l p k v r) -> stale h par l p k v r.
Proof. intros (Hp & Hl & Hr). split; [|done]. unfold node_of in Hp. eauto. Qed.

Lemma repr_child_ok (h : heap) par (t : tree) p :
  repr h par t -> p ∉ locs t -> child_ok h p (root_of t).
Proof.
  intros Hr Hp. destruct (root_of t) as [c|] eqn:E; [|done]. split.
  - intros ->. by apply Hp, root_in_locs.
  - by eapply repr_root_is_Some.
Qed.

Lemma updateSize_repr (h : heap) par l p k v r :
  stale h par l p k v r -> p ∉ locs l -> p ∉ locs r ->
  exists h', updateSize (Some p) h = Some (tt, h')
    /\ repr h' par (Br l p k v r) /\ updated h h' [p].
Proof.
  intros ((hh & ss & Hp) & Hl & Hr) Hpl Hpr.
  eexists. split; [|split].
  - eapply updateSize_spec; [exact Hp| |]; cbn [left right]; by eapply repr_child_ok.
  - cbn [left right key value parent repr].
    rewrite (repr_hgt _ _ _ Hl), (repr_hgt _ _ _ Hr), (repr_siz _ _ _ Hl), (repr_siz _ _ _ Hr).
    split_and!.
    + by rewrite list_lookup_insert_eq by heap_len.
    + by apply repr_insert_ne.
    + by apply repr_insert_ne.
  - apply updated_insert. set_solver.
Qed.

Lemma balanceFactor_repr (h : heap) par l p k v r :
  repr h par (Br l p k v r) -> p ∉ locs l -> p ∉ locs r ->
  balanceFactor (Some p) h = Some (ht l - ht r, h).
Proof.
  intros (Hp & Hl & Hr) Hpl Hpr.
  erewrite balanceFactor_spec; [|exact Hp| |]; cbn [left right node_of].
  - by rewrite (repr_hgt _ _ _ Hl), (repr_hgt _ _ _ Hr).
  - by eapply repr_child_ok.
  - by eapply repr_child_ok.
Qed.

Definition bal (t : tree) : Z :=
  match t with
  | Leaf => 0
  | Br l _ _ _ r => ht l - ht r
  end.

(** [rebalance] on the tree: the node [p] with the children [l] and [r]. *)
Definition rebal (l : tree) (p : loc) (k : K) (v : V) (r : tree) : tree :=
  if ht l - ht r >? 1 then
    rotR (Br (if bal l <? 0 then rotL l else l) p k v r)
  else if ht l - ht r <? -1 then
    rotL (Br l p k v (if bal r >? 0 then rotR r else r))
  else Br l p k v r.

Lemma locs_rotL (t : tree) : locs (rotL t) = locs t.
Proof.
  destruct t as [|a z kz vz [|b y ky vy c]]; try done.
  cbn [rotL locs]. by rewrite <- !app_assoc.
Qed.

Lemma locs_rotR (t : tree) : locs (rotR t) = locs t.
Proof.
  destruct t as [|[|a y ky vy b] z kz vz c]; try done.
  cbn [rotR locs]. by rewrite <- !app_assoc.
Qed.

Lemma locs_rebal l p k v r : locs (rebal l p k v r) = locs (Br l p k v r).
Proof.
  unfold rebal. repeat case_match; rewrite ?locs_rotR, ?locs_rotL; cbn [locs];
    rewrite ?locs_rotR, ?locs_rotL; done.
Qed.

Lemma ht_pos_Br (t : tree) : 0 < ht t -> exists l p k v r, t = Br l p k v r.
Proof. destruct t; simpl; [lia|]. eauto 10. Qed.

Lemma updated_app_l (h h' : heap) ls1 ls2 : updated h h' ls1 -> updated h h' (ls1 ++ ls2).
Proof. intros U. eapply updated_weaken; [done|]. set_solver. Qed.


End Rebalance.

Section RebalanceRepr.
Context {K V : Type} `{Ordered K}.
Abbreviation Node := (Node K V).
Abbreviation heap := (list Node).
Abbreviation tree := (@tree K V).

Lemma rebalance_left (h : heap) par l p k v r :
  repr h par (Br l p k v r) ->
  NoDup (locs (Br l p k v r)) ->
  ht l - ht r > 1 ->
  exists h',
    (do l0 <- get left (Some p);
     do bl <- balanceFactor l0;
     (if bl <? 0 then
        do l1 <- get left (Some p);
        do l' <- rotateLeft l1;
        set (Some p) (set_left l')
      else ret tt);;
     rotateRight (Some p)) h
    = Some (root_of (rotR (Br (if bal l <? 0 then rotL l else l) p k v r)), h')
    /\ repr h' par (rotR (Br (if bal l <? 0 then rotL l else l) p k v r))
    /\ updated h h' (locs (Br l p k v r)).
Proof.
  intros R1 Hnd Hbal. pose proof R1 as (Hp & Rl & Rr).
  pose proof Hnd as Hnd'. cbn [locs] in Hnd'. nodup_split.
  assert (Hpl : p ∉ locs l) by set_solver.
  destruct (ht_pos_Br l) as (a & y & ky & vy & b & ->); [pose proof (ht_nonneg r); lia|].
  pose proof Rl as (Hy & Ra & Rb).
  assert (Hya : (y ∉ locs a) /\ (y ∉ locs b)).
  { clear -Hnd. cbn [locs] in Hnd. nodup_split. set_solver. }
  destruct Hya as [Hya Hyb].
  cbn [bal]. destruct (ht a - ht b <? 0) eqn:Ebl.
  - (* left-right: rotate the left child to the left first *)
    destruct (ht_pos_Br b) as (b1 & q & kq & vq & b2 & ->);
      [pose proof (ht_nonneg a); lia|].
    destruct (rotateLeft_repr h (Some p) a y ky vy b1 q kq vq b2) as (h2 & E2 & R2 & U2);
      [by apply repr_stale|done|].
    assert (Hp2 : h2 !! p = Some (node_of par (Br a y ky vy (Br b1 q kq vq b2)) k v r)).
    { destruct U2 as [_ U2]. by rewrite U2. }
    set (h3 := <[p := set_left (Some q) (node_of par (Br a y ky vy (Br b1 q kq vq b2)) k v r)]> h2).
    assert (U3 : updated h h3 (locs (Br a y ky vy (Br b1 q kq vq b2)) ++ p :: locs r)).
    { apply updated_insert_r; [by apply updated_app_l|]. apply elem_of_app. right. apply elem_of_cons. by left. }
    assert (L3 : locs (Br (Br a y ky vy b1) q kq vq b2) = locs (Br a y ky vy (Br b1 q kq vq b2)))
      by apply (locs_rotL (Br a y ky vy (Br b1 q kq vq b2))).
    destruct (rotateRight_repr h3 par (Br a y ky vy b1) q kq vq b2 p k v r) as (h4 & E4 & R4 & U4).
    { split; [|split].
      - eexists _, _. unfold h3. rewrite list_lookup_insert_eq by heap_len. reflexivity.
      - apply repr_insert_ne; [done|]. by rewrite L3.
      - apply repr_insert_ne; [|done]. eapply repr_updated; [exact Rr|exact U2|].
        intros x Hx Hx'. apply (H1 x Hx'). apply elem_of_cons. by right. }
    { change (NoDup (locs (Br (Br a y ky vy b1) q kq vq b2) ++ p :: locs r)).
      by rewrite L3. }
    exists h4. split_and!; [|exact R4|].
    + eapply bind_eq; [eapply get_eq; exact Hp|]. msimpl. cbn [node_of root_of left].
      eapply bind_eq; [exact (balanceFactor_repr _ _ _ _ _ _ _ Rl Hya Hyb)|].
      cbv beta. rewrite Ebl.
      eapply bind_eq; [|exact E4].
      eapply bind_eq; [eapply get_eq; exact Hp|]. msimpl. cbn [node_of root_of left].
      eapply bind_eq; [exact E2|]. cbv beta.
      eapply set_eq. exact Hp2.
    + eapply updated_trans; [exact U3|exact U4|done|].
      change (locs (Br (Br a y ky vy b1) q kq vq b2) ++ p :: locs r ⊆ locs (Br a y ky vy (Br b1 q kq vq b2)) ++ p :: locs r).
      by rewrite L3.
  - destruct (rotateRight_repr h par a y ky vy b p k v r) as (h4 & E4 & R4 & U4);
      [by apply repr_stale|done|].
    exists h4. split_and!; [|done..].
    eapply bind_eq; [eapply get_eq; exact Hp|]. msimpl. cbn [node_of root_of left].
    eapply bind_eq; [exact (balanceFactor_repr _ _ _ _ _ _ _ Rl Hya Hyb)|].
    cbv beta. rewrite Ebl.
    eapply bind_eq; [reflexivity|]. exact E4.
Qed.

(** The right-heavy case, mirrored. *)
Lemma rebalance_right (h : heap) par l p k v r :
  repr h par (Br l p k v r) ->
  NoDup (locs (Br l p k v r)) ->
  ht l - ht r < -1 ->
  exists h',
    (do r0 <- get right (Some p);
     do br <- balanceFactor r0;
     (if br >? 0 then
        do r1 <- get right (Some p);
        do r' <- rotateRight r1;
        set (Some p) (set_right r')
      else ret tt);;
     rotateLeft (Some p)) h
    = Some (root_of (rotL (Br l p k v (if bal r >? 0 then rotR r else r))), h')
    /\ repr h' par (rotL (Br l p k v (if bal r >? 0 then rotR r else r)))
    /\ updated h h' (locs (Br l p k v r)).
Proof.
  intros R1 Hnd Hbal. pose proof R1 as (Hp & Rl & Rr).
  pose proof Hnd as Hnd'. cbn [locs] in Hnd'. nodup_split.
  destruct (ht_pos_Br r) as (b & y & ky & vy & c & ->); [pose proof (ht_nonneg l); lia|].
  pose proof Rr as (Hy & Rb & Rc).
  assert (Hya : (y ∉ locs b) /\ (y ∉ locs c)).
  { clear -Hnd. cbn [locs] in Hnd. nodup_split. set_solver. }
  destruct Hya as [Hyb Hyc].
  assert (Hpr : p ∉ locs (Br b y ky vy c)) by done.
  cbn [bal]. destruct (ht b - ht c >? 0) eqn:Ebr.
  - (* right-left: rotate the right child to the right first *)
    destruct (ht_pos_Br b) as (b1 & q & kq & vq & b2 & ->);
      [pose proof (ht_nonneg c); lia|].
    destruct (rotateRight_repr h (Some p) b1 q kq vq b2 y ky vy c) as (h2 & E2 & R2 & U2);
      [by apply repr_stale|done|].
    assert (Hp2 : h2 !! p = Some (node_of par l k v (Br (Br b1 q kq vq b2) y ky vy c))).
    { destruct U2 as [_ U2]. by rewrite U2. }
    set (h3 := <[p := set_right (Some q) (node_of par l k v (Br (Br b1 q kq vq b2) y ky vy c))]> h2).
    assert (L3 : locs (Br b1 q kq vq (Br b2 y ky vy c)) = locs (Br (Br b1 q kq vq b2) y ky vy c))
      by apply (locs_rotR (Br (Br b1 q kq vq b2) y ky vy c)).
    assert (U3 : updated h h3 (locs l ++ p :: locs (Br (Br b1 q kq vq b2) y ky vy c))).
    { apply updated_insert_r.
      - eapply updated_weaken; [exact U2|]. intros x Hx.
        apply elem_of_app. right. apply elem_of_cons. by right.
      - apply elem_of_app. right. apply elem_of_cons. by left. }
    destruct (rotateLeft_repr h3 par l p k v b1 q kq vq (Br b2 y ky vy c)) as (h4 & E4 & R4 & U4).
    { split; [|split].
      - eexists _, _. unfold h3. rewrite list_lookup_insert_eq by heap_len. reflexivity.
      - apply repr_insert_ne; [|set_solver]. eapply repr_updated; [exact Rl|exact U2|].
        intros x Hx Hx'. apply (H1 x Hx). apply elem_of_cons. by right.
      - apply repr_insert_ne; [done|]. by rewrite L3. }
    { change (NoDup (locs l ++ p :: locs (Br b1 q kq vq (Br b2 y ky vy c)))).
      by rewrite L3. }
    exists h4. split_and!; [|exact R4|].
    + eapply bind_eq; [eapply get_eq; exact Hp|]. msimpl. cbn [node_of root_of right].
      eapply bind_eq; [exact (balanceFactor_repr _ _ _ _ _ _ _ Rr Hyb Hyc)|].
      cbv beta. rewrite Ebr.
      eapply bind_eq; [|exact E4].
      eapply bind_eq; [eapply get_eq; exact Hp|]. msimpl. cbn [node_of root_of right].
      eapply bind_eq; [exact E2|]. cbv beta.
      eapply set_eq. exact Hp2.
    + eapply updated_trans; [exact U3|exact U4|done|].
      change (locs l ++ p :: locs (Br b1 q kq vq (Br b2 y ky vy c)) ⊆ locs l ++ p :: locs (Br (Br b1 q kq vq b2) y ky vy c)).
      by rewrite L3.
  - destruct (rotateLeft_repr h par l p k v b y ky vy c) as (h4 & E4 & R4 & U4);
      [by apply repr_stale|done|].
    exists h4. split_and!; [|done..].
    eapply bind_eq; [eapply get_eq; exact Hp|]. msimpl. cbn [node_of root_of right].
    eapply bind_eq; [exact (balanceFactor_repr _ _ _ _ _ _ _ Rr Hyb Hyc)|].
    cbv beta. rewrite Ebr.
    eapply bind_eq; [reflexivity|]. exact E4.
Qed.

Lemma rebalance_repr (h : heap) par l p k v r :
  stale h par l p k v r ->
  NoDup (locs (Br l p k v r)) ->
  exists h', rebalance (Some p) h = Some (root_of (rebal l p k v r), h')
    /\ repr h' par (rebal l p k v r)
    /\ updated h h' (locs (Br l p k v r)).
Proof.
  intros Hst Hnd. pose proof Hnd as Hnd'. cbn [locs] in Hnd'. nodup_split.
  assert (Hpl : p ∉ locs l) by set_solver.
  destruct (updateSize_repr _ _ _ _ _ _ _ Hst) as (h1 & E1 & R1 & U1); [done..|].
  assert (U1' : updated h h1 (locs (Br l p k v r))).
  { eapply updated_weaken; [exact U1|]. intros x ->%list_elem_of_singleton.
    cbn [locs]. apply elem_of_app. right. apply elem_of_cons. by left. }
  unfold rebal, rebalance.
  destruct (ht l - ht r >? 1) eqn:E; [|destruct (ht l - ht r <? -1) eqn:E'].
  - destruct (rebalance_left h1 par l p k v r) as (h2 & E2 & R2 & U2); [done|done|lia|].
    exists h2. split_and!; [|done|by eapply updated_trans].
    eapply bind_eq; [exact E1|]. cbv beta.
    eapply bind_eq; [by eapply balanceFactor_repr|]. cbv beta. rewrite E. exact E2.
  - destruct (rebalance_right h1 par l p k v r) as (h2 & E2 & R2 & U2); [done|done|lia|].
    exists h2. split_and!; [|done|by eapply updated_trans].
    eapply bind_eq; [exact E1|]. cbv beta.
    eapply bind_eq; [by eapply balanceFactor_repr|]. cbv beta. rewrite E, E'. exact E2.
  - exists h1. split_and!; [|done..].
    eapply bind_eq; [exact E1|]. cbv beta.
    eapply bind_eq; [by eapply balanceFactor_repr|]. cbv beta. rewrite E, E'. done.
Qed.

End RebalanceRepr.

(** ** Insert and Delete on the tree *)

Section Pure.
Context {K V : Type} `{Ordered K}.
Abbreviation Node := (Node K V).
Abbreviation heap := (list Node).
Abbreviation tree := (@tree K V).

(** [insertRec]: the new node is stored at the address [f]. *)
Fixpoint ins (f : loc) (k : K) (v : V) (t : tree) : tree * bool :=
  match t with
  | Leaf => (Br Leaf f k v Leaf, true)
  | Br l p k' v' r =>
      if less k k' then
        let (l', b) := ins f k v l in (rebal l' p k' v' r, b)
      else if less k' k then
        let (r', b) := ins f k v r in (rebal l p k' v' r', b)
      else (Br l p k' v r, false)
  end.

(** The leftmost node of [Br l p k v _]. *)
Fixpoint tmin (l : tree) (p : loc) (k : K) (v : V) : loc * K * V :=
  match l with
  | Leaf => (p, k, v)
  | Br l' p' k' v' _ => tmin l' p' k' v'
  end.

(** [deleteRec]. *)
Fixpoint del (k : K) (t : tree) : tree * bool :=
  match t with
  | Leaf => (Leaf, false)
  | Br l p k' v' r =>
      if less k k' then
        let (l', b) := del k l in (rebal l' p k' v' r, b)
      else if less k' k then
        let (r', b) := del k r in (rebal l p k' v' r', b)
      else
        match l, r with
        | Leaf, _ => (r, true)
        | _, Leaf => (l, true)
        | _, Br rl rp rk rv _ =>
            let '(_, sk, sv) := tmin rl rp rk rv in
            (rebal l p sk sv (del sk r).1, true)
        end
  end.

Lemma locs_ins f k v (t : tree) :
  locs (ins f k v t).1 ≡ₚ if (ins f k v t).2 then f :: locs t else locs t.
Proof.
  induction t as [|l IHl p k' v' r IHr]; [done|]. cbn [ins].
  destruct (less k k').
  - destruct (ins f k v l) as [l' b]. cbn [fst snd] in *.
    rewrite locs_rebal. cbn [locs]. rewrite IHl. by destruct b.
  - destruct (less k' k); [|done].
    destruct (ins f k v r) as [r' b]. cbn [fst snd] in *.
    rewrite locs_rebal. cbn [locs]. rewrite IHr. destruct b; [|done].
    symmetry.
    replace (locs l ++ p :: f :: locs r) with ((locs l ++ [p]) ++ f :: locs r)
      by (by rewrite <- app_assoc).
    apply Permutation_cons_app. by rewrite <- app_assoc.
Qed.

Lemma locs_ins_elem f k v (t : tree) q :
  q ∈ locs (ins f k v t).1 -> q = f \/ q ∈ locs t.
Proof.
  rewrite locs_ins. destruct (ins f k v t).2; [|by right].
  intros [->|?]%elem_of_cons; auto.
Qed.

Lemma locs_ins_NoDup f k v (t : tree) :
  NoDup (locs t) -> f ∉ locs t -> NoDup (locs (ins f k v t).1).
Proof.
  intros Hnd Hf. rewrite locs_ins. destruct (ins f k v t).2; [|done].
  by apply NoDup_cons.
Qed.

Lemma locs_del k (t : tree) : locs (del k t).1 `sublist_of` locs t.
Proof.
  revert k. induction t as [|l IHl p k' v' r IHr]; intros k; [done|]. cbn [del].
  destruct (less k k').
  - specialize (IHl k). destruct (del k l) as [l' b]. cbn [fst snd] in *.
    rewrite locs_rebal. cbn [locs]. by apply sublist_app.
  - destruct (less k' k).
    + specialize (IHr k). destruct (del k r) as [r' b]. cbn [fst snd] in *.
      rewrite locs_rebal. cbn [locs]. apply sublist_app; [done|]. by apply sublist_skip.
    + destruct l as [|ll lp lk lv lr].
      * cbn [fst locs app]. by apply sublist_cons.
      * destruct r as [|rl rp rk rv rr].
        -- cbn [fst locs]. apply sublist_inserts_r. done.
        -- destruct (tmin rl rp rk rv) as [[s sk] sv]. cbn [fst].
           rewrite locs_rebal. cbn [locs]. apply sublist_app; [done|].
           apply sublist_skip. apply (IHr sk).
Qed.

Lemma locs_del_elem k (t : tree) q : q ∈ locs (del k t).1 -> q ∈ locs t.
Proof. intros Hq. eapply elem_of_sublist; [done|]. apply locs_del. Qed.

Lemma locs_del_NoDup k (t : tree) : NoDup (locs t) -> NoDup (locs (del k t).1).
Proof. intros Hnd. eapply sublist_NoDup; [done|]. apply locs_del. Qed.

End Pure.

Section InsertRepr.
Context {K V : Type} `{Ordered K}.
Abbreviation Node := (Node K V).
Abbreviation heap := (list Node).
Abbreviation tree := (@tree K V).

(** [h'] is [h], possibly with new nodes, but for the nodes at [ls]. *)
Definition grown (h h' : heap) (ls : list loc) : Prop :=
  (length h <= length h')%nat /\
  forall q, q ∉ ls -> (q < length h)%nat -> h' !! q = h !! q.

Lemma updated_grown (h h' : heap) ls : updated h h' ls -> grown h h' ls.
Proof. intros [L U]. split; [lia|]. intros q Hq _. by apply U. Qed.

Lemma repr_grown (h h' : heap) par (t : tree) ls :
  repr h par t -> grown h h' ls -> (forall q, q ∈ locs t -> q ∉ ls) -> repr h' par t.
Proof.
  intros Hr [_ G] Hd. eapply repr_frame; [done|].
  intros q Hq. apply G; [by apply Hd|]. by eapply repr_locs_lt.
Qed.

Lemma insertRec_repr k v (t : tree) : forall fuel par (h : heap),
  repr h par t -> NoDup (locs t) -> (depth t < fuel)%nat ->
  exists h',
    insertRec fuel (root_of t) k v par h
      = Some ((root_of (ins (length h) k v t).1, (ins (length h) k v t).2), h')
    /\ repr h' par (ins (length h) k v t).1
    /\ grown h h' (locs t)
    /\ length h' = (if (ins (length h) k v t).2 then S (length h) else length h).
Proof.
  induction t as [|l IHl p k' v' r IHr]; intros fuel par h Hr Hnd Hf;
    (destruct fuel as [|fuel]; [lia|]).
  - exists (h ++ [mkNode k v 1 1 None None par]). cbn [ins fst snd root_of]. split_and!.
    + reflexivity.
    + cbn [repr]. split; [|done]. rewrite lookup_app_r by lia.
      by rewrite Nat.sub_diag.
    + split; [rewrite length_app; lia|]. intros q _ Hq. by apply lookup_app_l.
    + rewrite length_app. cbn [length]. lia.
  - pose proof Hr as (Hp & Rl & Rr). cbn [locs] in Hnd. nodup_split.
    cbn [depth] in Hf.
    assert (Hpl : p ∉ locs l) by set_solver.
    assert (Hlp : (p < length h)%nat) by (by eapply lookup_lt_Some).
    cbn [insertRec root_of is_nil not_nil negb ins].
    destruct (less k k') eqn:Elt.
    + destruct (IHl fuel (Some p) h Rl) as (h1 & E1 & R1 & G1 & L1); [done|lia|].
      pose proof (locs_ins_elem (length h) k v l) as Hel.
      pose proof (locs_ins_NoDup (length h) k v l) as Hndl.
      destruct (ins (length h) k v l) as [l' b]. cbn [fst snd] in *.
      assert (Hp1 : h1 !! p = Some (node_of par l k' v' r)).
      { destruct G1 as [_ G1]. by rewrite G1. }
      assert (Hfl : length h ∉ locs l).
      { intros Hin. pose proof (repr_locs_lt _ _ _ _ Rl Hin). lia. }
      assert (Hpl' : p ∉ locs l').
      { intros [E|Hin]%Hel; [lia|done]. }
      assert (Hrl' : forall x, x ∈ locs l' -> x ∉ p :: locs r).
      { intros x [E|Hin]%Hel; [|by auto].
        intros [E'|Hin]%elem_of_cons; [lia|].
        pose proof (repr_locs_lt _ _ _ _ Rr Hin). lia. }
      destruct (rebalance_repr (<[p := set_left (root_of l') (node_of par l k' v' r)]> h1)
                  par l' p k' v' r) as (h3 & E3 & R3 & U3).
      { split; [|split].
        - eexists _, _. rewrite list_lookup_insert_eq by heap_len. reflexivity.
        - by apply repr_insert_ne.
        - apply repr_insert_ne; [|done]. eapply repr_grown; [exact Rr|exact G1|].
          intros x Hx Hx'. apply (H1 x Hx'). apply elem_of_cons. by right. }
      { cbn [locs]. apply NoDup_app. split_and!; [by apply Hndl|done|by apply NoDup_cons]. }
      exists h3. split_and!.
      * eapply bind_eq; [eapply get_eq; exact Hp|]. cbn [node_of key]. rewrite Elt.
        eapply bind_eq; [eapply get_eq; exact Hp|]. cbn [node_of left].
        eapply bind_eq; [exact E1|]. cbv beta iota.
        eapply bind_eq; [eapply set_eq; exact Hp1|].
        eapply bind_eq; [exact E3|]. reflexivity.
      * exact R3.
      * destruct G1 as [Ll1 G1], U3 as [Ll3 U3]. rewrite length_insert in Ll3.
        split; [lia|]. intros q Hq Hql.
        rewrite U3, list_lookup_insert_ne, G1; [done| |done| |].
        -- intros Hin. apply Hq. apply elem_of_app. by left.
        -- intros ->. apply Hq. apply elem_of_app. right. apply elem_of_cons. by left.
        -- cbn [locs]. intros [Hin|Hin]%elem_of_app.
           ++ apply Hel in Hin as [E|Hin]; [lia|].
              apply Hq. apply elem_of_app. by left.
           ++ apply Hq. apply elem_of_app. by right.
      * destruct U3 as [Ll3 _]. rewrite length_insert in Ll3. congruence.
    + destruct (less k' k) eqn:Egt.
      * destruct (IHr fuel (Some p) h Rr) as (h1 & E1 & R1 & G1 & L1); [done|lia|].
        pose proof (locs_ins_elem (length h) k v r) as Hel.
        pose proof (locs_ins_NoDup (length h) k v r) as Hndr.
        destruct (ins (length h) k v r) as [r' b]. cbn [fst snd] in *.
        assert (Hp1 : h1 !! p = Some (node_of par l k' v' r)).
        { destruct G1 as [_ G1]. by rewrite G1. }
        assert (Hfr : length h ∉ locs r).
        { intros Hin. pose proof (repr_locs_lt _ _ _ _ Rr Hin). lia. }
        assert (Hpr' : p ∉ locs r').
        { intros [E|Hin]%Hel; [lia|done]. }
        assert (Hlr' : forall x, x ∈ locs l -> x ∉ p :: locs r').
        { intros x Hx [E'|Hin]%elem_of_cons; [by subst|].
          apply Hel in Hin as [E|Hin].
          - pose proof (repr_locs_lt _ _ _ _ Rl Hx). lia.
          - apply (H1 x Hx). apply elem_of_cons. by right. }
        destruct (rebalance_repr (<[p := set_right (root_of r') (node_of par l k' v' r)]> h1)
                    par l p k' v' r') as (h3 & E3 & R3 & U3).
        { split; [|split].
          - eexists _, _. rewrite list_lookup_insert_eq by heap_len. reflexivity.
          - apply repr_insert_ne; [|done]. eapply repr_grown; [exact Rl|exact G1|].
            intros x Hx Hx'. apply (H1 x Hx). apply elem_of_cons. by right.
          - by apply repr_insert_ne. }
        { cbn [locs]. apply NoDup_app. split_and!; [done|done|].
          apply NoDup_cons. split; [done|]. by apply Hndr. }
        exists h3. split_and!.
        -- eapply bind_eq; [eapply get_eq; exact Hp|]. cbn [node_of key]. rewrite Elt.
           eapply bind_eq; [eapply get_eq; exact Hp|]. cbn [node_of key]. rewrite Egt.
           eapply bind_eq; [eapply get_eq; exact Hp|]. cbn [node_of right].
           eapply bind_eq; [exact E1|]. cbv beta iota.
           eapply bind_eq; [eapply set_eq; exact Hp1|].
           eapply bind_eq; [exact E3|]. reflexivity.
        -- exact R3.
        -- destruct G1 as [Ll1 G1], U3 as [Ll3 U3]. rewrite length_insert in Ll3.
           split; [lia|]. intros q Hq Hql.
           rewrite U3, list_lookup_insert_ne, G1; [done| |done| |].
           ++ intros Hin. apply Hq. apply elem_of_app. right. apply elem_of_cons. by right.
           ++ intros ->. apply Hq. apply elem_of_app. right. apply elem_of_cons. by left.
           ++ cbn [locs]. intros [Hin|Hin]%elem_of_app.
              ** apply Hq. apply elem_of_app. by left.
              ** apply Hq. apply elem_of_app. right.
                 apply elem_of_cons in Hin as [->|Hin]; [apply elem_of_cons; by left|].
                 apply Hel in Hin as [E|Hin]; [lia|]. apply elem_of_cons. by right.
        -- destruct U3 as [Ll3 _]. rewrite length_insert in Ll3. congruence.
      * exists (<[p := set_value v (node_of par l k' v' r)]> h). cbn [fst snd root_of].
        split_and!.
        -- eapply bind_eq; [eapply get_eq; exact Hp|]. cbn [node_of key]. rewrite Elt.
           eapply bind_eq; [eapply get_eq; exact Hp|]. cbn [node_of key]. rewrite Egt.
           eapply bind_eq; [eapply set_eq; exact Hp|]. reflexivity.
        -- cbn [repr]. split_and!.
           ++ by rewrite list_lookup_insert_eq by heap_len.
           ++ by apply repr_insert_ne.
           ++ by apply repr_insert_ne.
        -- apply updated_grown, updated_insert. cbn [locs].
           apply elem_of_app. right. apply elem_of_cons. by left.
        -- apply length_insert.
Qed.
End InsertRepr.

Section DeleteRepr.
Context {K V : Type} `{Ordered K}.
Abbreviation Node := (Node K V).
Abbreviation heap := (list Node).
Abbreviation tree := (@tree K V).

Lemma tmin_elem (l : tree) p k v : (tmin l p k v).1.1 ∈ locs l ++ [p].
Proof.
  revert p k v. induction l as [|ll IHl lp lk lv lr _]; intros p k v; cbn [tmin locs].
  - cbn. apply elem_of_cons. by left.
  - apply elem_of_app. left. specialize (IHl lp lk lv).
    apply elem_of_app in IHl as [Hin|Hin]; apply elem_of_app; [by left|right].
    apply list_elem_of_singleton in Hin as ->. apply elem_of_cons. by left.
Qed.

Lemma minNode_repr (l : tree) : forall fuel (h : heap) par p k v r,
  repr h par (Br l p k v r) -> (depth l < fuel)%nat ->
  minNode fuel (Some p) h = Some (Some (tmin l p k v).1.1)
  /\ exists n, h !! (tmin l p k v).1.1 = Some n
       /\ key n = (tmin l p k v).1.2 /\ value n = (tmin l p k v).2.
Proof.
  induction l as [|ll IHl lp lk lv lr _]; intros fuel h par p k v r (Hp & Rl & Rr) Hf;
    (destruct fuel as [|fuel]; [lia|]); cbn [minNode deref tmin fst snd].
  - rewrite Hp. cbn. split; [done|]. eauto.
  - rewrite Hp. cbn [mbind option_bind node_of left root_of not_nil].
    cbn [depth] in Hf. apply (IHl fuel h (Some p) lp lk lv lr Rl). lia.
Qed.

Lemma deleteRec_repr (t : tree) : forall k fuel par (h : heap),
  repr h par t -> NoDup (locs t) -> (depth t < fuel)%nat ->
  exists h',
    deleteRec fuel (root_of t) k h = Some ((root_of (del k t).1, (del k t).2), h')
    /\ repr h' par (del k t).1
    /\ updated h h' (locs t).
Proof.
  induction t as [|l IHl p k' v' r IHr]; intros k fuel par h Hr Hnd Hf;
    (destruct fuel as [|fuel]; [lia|]).
  - exists h. split_and!; [done|done|apply updated_refl].
  - pose proof Hr as (Hp & Rl & Rr). pose proof Hnd as Hnd'. cbn [locs] in Hnd'. nodup_split.
    cbn [depth] in Hf.
    assert (Hpl : p ∉ locs l) by set_solver.
    assert (Hlp : (p < length h)%nat) by (by eapply lookup_lt_Some).
    cbn [deleteRec root_of is_nil not_nil negb del].
    destruct (less k k') eqn:Elt; [|destruct (less k' k) eqn:Egt].
    + destruct (IHl k fuel (Some p) h Rl) as (h1 & E1 & R1 & U1); [done|lia|].
      pose proof (locs_del_elem k l) as Hel.
      pose proof (locs_del_NoDup k l) as Hndl.
      destruct (del k l) as [l' b]. cbn [fst snd] in *.
      assert (Hp1 : h1 !! p = Some (node_of par l k' v' r)).
      { destruct U1 as [_ U1]. by rewrite U1. }
      destruct (rebalance_repr (<[p := set_left (root_of l') (node_of par l k' v' r)]> h1)
                  par l' p k' v' r) as (h3 & E3 & R3 & U3).
      { split; [|split].
        - eexists _, _. rewrite list_lookup_insert_eq by heap_len. reflexivity.
        - apply repr_insert_ne; [done|]. intros Hin. by apply Hpl, Hel.
        - apply repr_insert_ne; [|done]. eapply repr_updated; [exact Rr|exact U1|].
          intros x Hx Hx'. apply (H1 x Hx'). apply elem_of_cons. by right. }
      { cbn [locs]. apply NoDup_app. split_and!; [by apply Hndl| |by apply NoDup_cons].
        intros x Hx. apply H1. by apply Hel. }
      exists h3. split_and!.
      * eapply bind_eq; [eapply get_eq; exact Hp|]. cbn [node_of key]. rewrite Elt.
        eapply bind_eq; [eapply get_eq; exact Hp|]. cbn [node_of left].
        eapply bind_eq; [exact E1|]. cbv beta iota.
        eapply bind_eq; [eapply set_eq; exact Hp1|].
        eapply bind_eq; [exact E3|]. reflexivity.
      * exact R3.
      * eapply (updated_trans _ _ _ (p :: locs l)); [|exact U3| |].
        -- apply updated_insert_r; [|apply elem_of_cons; by left].
           eapply updated_weaken; [exact U1|]. intros x Hx. apply elem_of_cons. by right.
        -- cbn [locs]. intros x [E|Hin]%elem_of_cons.
           ++ subst. apply elem_of_app. right. apply elem_of_cons. by left.
           ++ apply elem_of_app. by left.
        -- cbn [locs]. intros x [Hin|Hin]%elem_of_app; apply elem_of_app; [left|by right].
           by apply Hel.
    + destruct (IHr k fuel (Some p) h Rr) as (h1 & E1 & R1 & U1); [done|lia|].
      pose proof (locs_del_elem k r) as Hel.
      pose proof (locs_del_NoDup k r) as Hndr.
      destruct (del k r) as [r' b]. cbn [fst snd] in *.
      assert (Hp1 : h1 !! p = Some (node_of par l k' v' r)).
      { destruct U1 as [_ U1]. by rewrite U1. }
      destruct (rebalance_repr (<[p := set_right (root_of r') (node_of par l k' v' r)]> h1)
                  par l p k' v' r') as (h3 & E3 & R3 & U3).
      { split; [|split].
        - eexists _, _. rewrite list_lookup_insert_eq by heap_len. reflexivity.
        - apply repr_insert_ne; [|done]. eapply repr_updated; [exact Rl|exact U1|].
          intros x Hx Hx'. apply (H1 x Hx). apply elem_of_cons. by right.
        - apply repr_insert_ne; [done|]. intros Hin. by apply H2, Hel. }
      { cbn [locs]. apply NoDup_app. split_and!; [done| |].
        - intros x Hx [E|Hin]%elem_of_cons; [by subst|].
          apply (H1 x Hx). apply elem_of_cons. right. by apply Hel.
        - apply NoDup_cons. split; [|by apply Hndr]. intros Hin. by apply H2, Hel. }
      exists h3. split_and!.
      * eapply bind_eq; [eapply get_eq; exact Hp|]. cbn [node_of key]. rewrite Elt.
        eapply bind_eq; [eapply get_eq; exact Hp|]. cbn [node_of key]. rewrite Egt.
        eapply bind_eq; [eapply get_eq; exact Hp|]. cbn [node_of right].
        eapply bind_eq; [exact E1|]. cbv beta iota.
        eapply bind_eq; [eapply set_eq; exact Hp1|].
        eapply bind_eq; [exact E3|]. reflexivity.
      * exact R3.
      * eapply (updated_trans _ _ _ (p :: locs r)); [|exact U3| |].
        -- apply updated_insert_r; [|apply elem_of_cons; by left].
           eapply updated_weaken; [exact U1|]. intros x Hx. apply elem_of_cons. by right.
        -- cbn [locs]. intros x Hx. apply elem_of_app. by right.
        -- cbn [locs]. intros x [Hin|Hin]%elem_of_app; apply elem_of_app; [by left|right].
           apply elem_of_cons in Hin as [E|Hin]; apply elem_of_cons; [by left|right].
           by apply Hel.
    + destruct l as [|ll lp lk lv lr].
      { (* no left child: the right child, if any, takes the place *)
        exists (reparent par (root_of r) h). cbn [fst snd]. split_and!.
        - eapply bind_eq; [eapply get_eq; exact Hp|]. cbn [node_of key]. rewrite Elt.
          eapply bind_eq; [eapply get_eq; exact Hp|]. cbn [node_of key]. rewrite Egt.
          eapply bind_eq; [eapply get_eq; exact Hp|]. cbn [node_of left root_of].
          eapply bind_eq; [eapply get_eq; exact Hp|]. cbn [node_of right].
          cbn [is_nil not_nil negb orb].
          eapply bind_eq; [eapply get_eq; exact Hp|]. cbn [node_of left root_of not_nil].
          eapply bind_eq; [eapply get_eq; exact Hp|]. cbn [node_of right].
          destruct r as [|rl rp rk rv rr]; cbn [root_of not_nil when reparent].
          + reflexivity.
          + destruct Rr as (Hrp & _). rewrite Hrp.
            eapply bind_eq; [|reflexivity].
            eapply bind_eq; [eapply get_eq; exact Hp|]. cbn [node_of parent].
            eapply set_eq. exact Hrp.
        - by eapply repr_reparent.
        - apply updated_reparent. intros c Hc. apply root_in_locs in Hc.
          cbn [locs app]. apply elem_of_cons. by right. }
      destruct r as [|rl rp rk rv rr].
      { (* no right child: the left child takes the place *)
        exists (reparent par (Some lp) h). cbn [fst snd]. split_and!.
        - eapply bind_eq; [eapply get_eq; exact Hp|]. cbn [node_of key]. rewrite Elt.
          eapply bind_eq; [eapply get_eq; exact Hp|]. cbn [node_of key]. rewrite Egt.
          eapply bind_eq; [eapply get_eq; exact Hp|]. cbn [node_of left root_of].
          eapply bind_eq; [eapply get_eq; exact Hp|]. cbn [node_of right root_of].
          cbn [is_nil not_nil negb orb].
          eapply bind_eq; [eapply get_eq; exact Hp|]. cbn [node_of left root_of not_nil].
          eapply bind_eq; [eapply get_eq; exact Hp|]. cbn [node_of left root_of].
          cbn [not_nil when reparent].
          destruct Rl as (Hlp' & _). rewrite Hlp'.
          eapply bind_eq; [|reflexivity].
          eapply bind_eq; [eapply get_eq; exact Hp|]. cbn [node_of parent].
          eapply set_eq. exact Hlp'.
        - by apply (repr_reparent h (Some p) par (Br ll lp lk lv lr)).
        - apply updated_reparent. intros c [= <-].
          cbn [locs]. apply elem_of_app. left. apply elem_of_app. right.
          apply elem_of_cons. by left. }
      (* two children: the successor's key and value move up *)
      assert (Hfr : (depth rl < fuel)%nat /\ (depth (Br rl rp rk rv rr) < fuel)%nat)
        by (cbn [depth] in *; lia).
      destruct Hfr as [Hfrl Hfr].
      destruct (minNode_repr rl fuel h (Some p) rp rk rv rr Rr) as (Emin & n & Hs & Hk & Hv).
      { done. }
      pose proof (tmin_elem rl rp rk rv) as Hsin.
      destruct (tmin rl rp rk rv) as [[s sk] sv]. cbn [fst snd] in *.
      assert (HsR : s ∈ locs (Br rl rp rk rv rr)).
      { cbn [locs]. apply elem_of_app in Hsin as [Hin|Hin]; apply elem_of_app;
          [by left|right]. apply list_elem_of_singleton in Hin as ->.
        apply elem_of_cons. by left. }
      assert (Hsp : s <> p) by (by intros ->).
      set (h1 := <[p := set_value sv (set_key sk (node_of par (Br ll lp lk lv lr) k' v' (Br rl rp rk rv rr)))]> (<[p := set_key sk (node_of par (Br ll lp lk lv lr) k' v' (Br rl rp rk rv rr))]> h)).
      assert (R1 : repr h1 (Some p) (Br rl rp rk rv rr))
        by (apply repr_insert_ne; [apply repr_insert_ne|]; done).
      destruct (IHr sk fuel (Some p) h1 R1) as (h2 & E2 & R2 & U2); [done|done|].
      pose proof (locs_del_elem sk (Br rl rp rk rv rr)) as Hel.
      pose proof (locs_del_NoDup sk (Br rl rp rk rv rr)) as Hndr.
      destruct (del sk (Br rl rp rk rv rr)) as [r' b]. cbn [fst snd] in *.
      assert (Hp1 : h1 !! p = Some (set_value sv (set_key sk (node_of par (Br ll lp lk lv lr) k' v' (Br rl rp rk rv rr))))).
      { unfold h1. by rewrite list_lookup_insert_eq by heap_len. }
      assert (Hp2 : h2 !! p = Some (set_value sv (set_key sk (node_of par (Br ll lp lk lv lr) k' v' (Br rl rp rk rv rr))))).
      { destruct U2 as [_ U2]. by rewrite U2. }
      assert (Hs1 : h1 !! s = Some n).
      { unfold h1. by rewrite !list_lookup_insert_ne by done. }
      destruct (rebalance_repr (<[p := set_right (root_of r') (set_value sv (set_key sk (node_of par (Br ll lp lk lv lr) k' v' (Br rl rp rk rv rr))))]> h2)
                  par (Br ll lp lk lv lr) p sk sv r') as (h4 & E4 & R4 & U4).
      { split; [|split].
        - eexists _, _. rewrite list_lookup_insert_eq by heap_len. reflexivity.
        - apply repr_insert_ne; [|done]. eapply repr_updated; [|exact U2|].
          + apply repr_insert_ne; [apply repr_insert_ne|]; done.
          + intros x Hx Hx'. apply (H1 x Hx). apply elem_of_cons. by right.
        - apply repr_insert_ne; [done|]. intros Hin. by apply H2, Hel. }
      { cbn [locs]. apply NoDup_app. split_and!; [done| |].
        - intros x Hx [E|Hin]%elem_of_cons; [by subst|].
          apply (H1 x Hx). apply elem_of_cons. right. by apply Hel.
        - apply NoDup_cons. split; [|by apply Hndr]. intros Hin. by apply H2, Hel. }
      exists h4. split_and!.
      * eapply bind_eq; [eapply get_eq; exact Hp|]. cbn [node_of key]. rewrite Elt.
        eapply bind_eq; [eapply get_eq; exact Hp|]. cbn [node_of key]. rewrite Egt.
        eapply bind_eq; [eapply get_eq; exact Hp|]. cbn [node_of left root_of].
        eapply bind_eq; [eapply get_eq; exact Hp|]. cbn [node_of right root_of].
        cbn [is_nil not_nil negb orb].
        eapply bind_eq; [eapply get_eq; exact Hp|]. cbn [node_of right root_of].
        eapply bind_eq; [apply read_eq; exact Emin|].
        eapply bind_eq; [eapply get_eq; exact Hs|]. rewrite Hk.
        eapply bind_eq; [eapply get_eq; exact Hs|]. rewrite Hv.
        eapply bind_eq; [eapply set_eq; exact Hp|].
        eapply bind_eq; [eapply set_eq; by rewrite list_lookup_insert_eq by heap_len|].
        fold h1.
        eapply bind_eq; [eapply get_eq; exact Hp1|]. cbn [node_of right root_of set_value set_key].
        eapply bind_eq; [eapply get_eq; exact Hs1|]. rewrite Hk.
        eapply bind_eq; [exact E2|]. cbv beta iota.
        eapply bind_eq; [eapply set_eq; exact Hp2|].
        eapply bind_eq; [exact E4|]. reflexivity.
      * exact R4.
      * eapply (updated_trans _ _ _ (p :: locs (Br rl rp rk rv rr))); [|exact U4| |].
        -- apply updated_insert_r; [|apply elem_of_cons; by left].
           eapply (updated_trans _ h1 _ [p]); [|exact U2| |].
           ++ unfold h1. do 2 (apply updated_insert_r; [|apply elem_of_cons; by left]).
              apply updated_refl.
           ++ intros x ->%list_elem_of_singleton. apply elem_of_cons. by left.
           ++ intros x Hx. apply elem_of_cons. by right.
        -- cbn [locs]. intros x Hx. apply elem_of_app. by right.
        -- cbn [locs]. intros x [Hin|Hin]%elem_of_app; apply elem_of_app; [by left|right].
           apply elem_of_cons in Hin as [E|Hin]; apply elem_of_cons; [by left|right].
           by apply Hel.
Qed.
End DeleteRepr.

(** ** Ordering: the keys of a tree in ascending order *)

Section Sorted.
Context {K : Type} `{Ordered K}.

(** Strictly ascending. *)
Fixpoint sorted (l : list K) : Prop :=
  match l with
  | [] => True
  | x :: l' => Forall (klt x) l' /\ sorted l'
  end.

Lemma sorted_app (l1 l2 : list K) :
  sorted (l1 ++ l2) <->
  sorted l1 /\ sorted l2 /\ forall x y, x ∈ l1 -> y ∈ l2 -> klt x y.
Proof.
  induction l1 as [|a l1 IH]; cbn [app sorted].
  - split; [intros Hs; split_and!; [done|done|]|by intros (_ & ? & _)].
    intros x y Hx. by apply elem_of_nil in Hx.
  - rewrite Forall_app, IH. split.
    + intros ((F1 & F2) & S1 & S2 & Hxy). split_and!; try done.
      intros x y [->|Hx]%elem_of_cons Hy; [|by apply Hxy].
      by eapply Forall_forall in F2.
    + intros ((F1 & S1) & S2 & Hxy). split_and!; try done.
      * apply Forall_forall. intros y Hy. apply Hxy; [|done]. apply elem_of_cons. by left.
      * intros x y Hx Hy. apply Hxy; [|done]. apply elem_of_cons. by right.
Qed.

Lemma sorted_cons_inv (a : K) l x : sorted (a :: l) -> x ∈ l -> klt a x.
Proof. intros [F _] Hx. by eapply Forall_forall in F. Qed.

Lemma sorted_middle (l1 l2 : list K) k :
  sorted (l1 ++ k :: l2) <->
  sorted l1 /\ sorted l2 /\ (forall x, x ∈ l1 -> klt x k) /\ (forall y, y ∈ l2 -> klt k y).
Proof.
  rewrite sorted_app. cbn [sorted]. split.
  - intros (S1 & (F & S2) & Hxy). split_and!; try done.
    + intros x Hx. apply Hxy; [done|]. apply elem_of_cons. by left.
    + intros y Hy. by eapply Forall_forall in F.
  - intros (S1 & S2 & H1 & H2). split_and!; try done.
    + apply Forall_forall. auto.
    + intros x y Hx [->|Hy]%elem_of_cons; [by apply H1|].
      eapply klt_trans; [by apply H1|by apply H2].
Qed.

End Sorted.

Section PureOrder.
Context {K V : Type} `{Ordered K}.
Abbreviation tree := (@tree K V).

(** The ordering invariant of a tree: its keys, in order, ascend. *)
Definition bst (t : tree) : Prop := sorted (keys t).

Lemma bst_Br (l : tree) p k v (r : tree) :
  bst (Br l p k v r) <->
  bst l /\ bst r /\ (forall x, x ∈ keys l -> klt x k) /\ (forall y, y ∈ keys r -> klt k y).
Proof. apply sorted_middle. Qed.

Lemma kvs_rotL (t : tree) : kvs (rotL t) = kvs t.
Proof.
  destruct t as [|a z kz vz [|b y ky vy c]]; try done.
  cbn [rotL kvs]. by rewrite <- !app_assoc.
Qed.

Lemma kvs_rotR (t : tree) : kvs (rotR t) = kvs t.
Proof.
  destruct t as [|[|a y ky vy b] z kz vz c]; try done.
  cbn [rotR kvs]. by rewrite <- !app_assoc.
Qed.

Lemma kvs_rebal (l : tree) p k v r : kvs (rebal l p k v r) = kvs (Br l p k v r).
Proof.
  unfold rebal. repeat case_match; rewrite ?kvs_rotR, ?kvs_rotL; cbn [kvs];
    rewrite ?kvs_rotR, ?kvs_rotL; done.
Qed.

Lemma keys_rebal (l : tree) p k v r : keys (rebal l p k v r) = keys (Br l p k v r).
Proof. by rewrite !keys_kvs, kvs_rebal. Qed.

Lemma elem_kvs_keys (t : tree) k v : (k, v) ∈ kvs t -> k ∈ keys t.
Proof. intros Hin. rewrite keys_kvs. apply list_elem_of_fmap. by exists (k, v). Qed.

Lemma elem_keys_kvs (t : tree) k : k ∈ keys t -> exists v, (k, v) ∈ kvs t.
Proof.
  rewrite keys_kvs. intros ([k' v] & -> & Hin)%list_elem_of_fmap. by exists v.
Qed.

Lemma elem_kvs_Br (l : tree) p k v r x :
  x ∈ kvs (Br l p k v r) <-> x ∈ kvs l \/ x = (k, v) \/ x ∈ kvs r.
Proof. cbn [kvs]. by rewrite elem_of_app, elem_of_cons. Qed.

Lemma elem_keys_Br (l : tree) p k v r x :
  x ∈ keys (Br l p k v r) <-> x ∈ keys l \/ x = k \/ x ∈ keys r.
Proof. cbn [keys]. by rewrite elem_of_app, elem_of_cons. Qed.

(** In an ordered tree a key has one value. *)
Lemma bst_unique (t : tree) k v1 v2 :
  bst t -> (k, v1) ∈ kvs t -> (k, v2) ∈ kvs t -> v1 = v2.
Proof.
  induction t as [|l IHl p k' v' r IHr]; [by intros _ ?%elem_of_nil|].
  intros (Bl & Br' & Hl & Hr)%bst_Br H1%elem_kvs_Br H2%elem_kvs_Br.
  assert (Ll : forall v, (k, v) ∈ kvs l -> klt k k') by (intros; eapply Hl, elem_kvs_keys; eauto).
  assert (Lr : forall v, (k, v) ∈ kvs r -> klt k' k) by (intros; eapply Hr, elem_kvs_keys; eauto).
  destruct H1 as [H1|[H1|H1]], H2 as [H2|[H2|H2]];
    try (pose proof (Ll _ H1)); try (pose proof (Lr _ H1));
    try (pose proof (Ll _ H2)); try (pose proof (Lr _ H2));
    simplify_eq; auto; exfalso; order.
Qed.

End PureOrder.

Section PureInsert.
Context {K V : Type} `{Ordered K}.
Abbreviation tree := (@tree K V).

Lemma ins_keys_elem f k v (t : tree) x :
  (forall y, y ∈ kvs (ins f k v t).1 <-> y = (k, v) \/ (y.1 <> k /\ y ∈ kvs t)) ->
  x ∈ keys (ins f k v t).1 -> x = k \/ x ∈ keys t.
Proof.
  intros Hs (w & Hin)%elem_keys_kvs. apply Hs in Hin as [[= -> ->]|[_ Hin]]; [by left|].
  right. by eapply elem_kvs_keys.
Qed.

(** What [insertRec] does to an ordered tree: the entry [(k, v)] is in,
    every other key keeps its value, and the result says whether [k] is new. *)
Lemma ins_spec f k v (t : tree) :
  bst t ->
  bst (ins f k v t).1
  /\ (forall x, x ∈ kvs (ins f k v t).1 <-> x = (k, v) \/ (x.1 <> k /\ x ∈ kvs t))
  /\ ((ins f k v t).2 = true <-> k ∉ keys t).
Proof.
  induction t as [|l IHl p k' v' r IHr].
  - intros _. cbn [ins fst snd kvs keys app]. split_and!.
    + cbn. split; [constructor|done].
    + intros x. rewrite list_elem_of_singleton. split; [by left|].
      intros [->|[_ Hx]]; [done|]. by apply elem_of_nil in Hx.
    + split; [intros _ Hin; by apply elem_of_nil in Hin|done].
  - intros (Bl & Brr & Hl & Hr)%bst_Br. cbn [ins].
    destruct (less k k') eqn:Elt; [|destruct (less k' k) eqn:Egt].
    + destruct (IHl Bl) as (B' & M' & R'). pose proof (ins_keys_elem f k v l) as Hel.
      destruct (ins f k v l) as [l' b]. cbn [fst snd] in *. split_and!.
      * unfold bst. rewrite keys_rebal. apply bst_Br. split_and!; [done|done| |done].
        intros x [->|Hx]%Hel; [done| by apply Hl |done].
      * intros x. rewrite kvs_rebal, !elem_kvs_Br, M'. split.
        -- intros [[->|[Hn Hx]]|[->|Hx]]; [by left|right..].
           ++ split; [done|]. by left.
           ++ split; [cbn; intros ->; order|]. right. by left.
           ++ split; [|by right; right]. intros <-.
              destruct x as [xk xv]. apply elem_kvs_keys, Hr in Hx. cbn in *. order.
        -- intros [->|[Hn [Hx|[->|Hx]]]]; [left; by left|left; by right|right; by left|by right; right].
      * rewrite R', elem_keys_Br. split.
        -- intros Hn [Hx|[->|Hx]]; [done|order|]. apply Hr in Hx. order.
        -- intros Hn Hx. apply Hn. by left.
    + destruct (IHr Brr) as (B' & M' & R'). pose proof (ins_keys_elem f k v r) as Hel.
      destruct (ins f k v r) as [r' b]. cbn [fst snd] in *. split_and!.
      * unfold bst. rewrite keys_rebal. apply bst_Br. split_and!; [done|done|done|].
        intros x [->|Hx]%Hel; [done| by apply Hr |done].
      * intros x. rewrite kvs_rebal, !elem_kvs_Br, M'. split.
        -- intros [Hx|[->|[->|[Hn Hx]]]]; [right|right|by left|right].
           ++ split; [|by left]. intros <-.
              destruct x as [xk xv]. apply elem_kvs_keys, Hl in Hx. cbn in *. order.
           ++ split; [cbn; intros ->; order|]. right. by left.
           ++ split; [done|]. by right; right.
        -- intros [->|[Hn [Hx|[->|Hx]]]]; [right; right; by left|by left|right; by left|].
           right. right. by right.
      * rewrite R', elem_keys_Br. split.
        -- intros Hn [Hx|[->|Hx]]; [|order|done]. apply Hl in Hx. order.
        -- intros Hn Hx. apply Hn. by right; right.
    + assert (k = k') as <- by order. cbn [fst snd]. split_and!.
      * apply bst_Br. by split_and!.
      * intros x. rewrite !elem_kvs_Br. split.
        -- intros [Hx|[->|Hx]]; [right|by left|right].
           ++ split; [|by left]. intros <-.
              destruct x as [xk xv]. apply elem_kvs_keys, Hl in Hx. cbn in *. order.
           ++ split; [|by right; right]. intros <-.
              destruct x as [xk xv]. apply elem_kvs_keys, Hr in Hx. cbn in *. order.
        -- intros [->|[Hn [Hx|[->|Hx]]]]; [right; by left|by left|done|by right; right].
      * split; [done|]. intros Hn. destruct Hn. apply elem_keys_Br. right. by left.
Qed.

End PureInsert.

Section PureDelete.
Context {K V : Type} `{Ordered K}.
Abbreviation tree := (@tree K V).

Lemma elem_kvs_left (l : tree) p k v (r : tree) x :
  x ∈ kvs l ++ [(k, v)] -> x ∈ kvs (Br l p k v r).
Proof.
  intros [Hin|Hin]%elem_of_app; apply elem_kvs_Br; [by left|right; left].
  by apply list_elem_of_singleton in Hin.
Qed.

(** The leftmost node holds the least key. *)
Lemma tmin_spec (l : tree) : forall p k v (r : tree),
  bst (Br l p k v r) ->
  ((tmin l p k v).1.2, (tmin l p k v).2) ∈ kvs l ++ [(k, v)]
  /\ forall y, y ∈ keys (Br l p k v r) -> y = (tmin l p k v).1.2 \/ klt (tmin l p k v).1.2 y.
Proof.
  induction l as [|ll IHl lp lk lv lr _]; intros p k v r (Bl & Brr & Hl & Hr)%bst_Br.
  - cbn [tmin fst snd kvs app]. split; [apply elem_of_cons; by left|].
    intros y [Hy|[->|Hy]]%elem_keys_Br; [by apply elem_of_nil in Hy|by left|right; by apply Hr].
  - cbn [tmin]. destruct (IHl lp lk lv lr Bl) as (Hin & Hmin). split.
    + apply elem_of_app. left. by apply elem_kvs_left.
    + apply (elem_kvs_left _ lp _ _ lr), elem_kvs_keys in Hin.
      intros y [Hy|[->|Hy]]%elem_keys_Br; [by apply Hmin| |].
      * right. by apply Hl.
      * right. eapply klt_trans; [by apply Hl|by apply Hr].
Qed.

Lemma del_keys_elem k (t : tree) x :
  (forall y, y ∈ kvs (del k t).1 <-> y.1 <> k /\ y ∈ kvs t) ->
  x ∈ keys (del k t).1 -> x <> k /\ x ∈ keys t.
Proof.
  intros Hs (w & Hin)%elem_keys_kvs. apply Hs in Hin as [Hn Hin].
  split; [done|]. by eapply elem_kvs_keys.
Qed.

(** What [deleteRec] does to an ordered tree: the key [k] is out, every
    other key keeps its value, and the result says whether [k] was there. *)
Lemma del_spec (t : tree) : forall k,
  bst t ->
  bst (del k t).1
  /\ (forall x, x ∈ kvs (del k t).1 <-> x.1 <> k /\ x ∈ kvs t)
  /\ ((del k t).2 = true <-> k ∈ keys t).
Proof.
  induction t as [|l IHl p k' v' r IHr]; intros k.
  - intros _. cbn [del fst snd kvs keys]. split_and!; [done| |].
    + intros x. split; [by intros ?%elem_of_nil|by intros [_ ?%elem_of_nil]].
    + split; [done|by intros ?%elem_of_nil].
  - intros HB. pose proof HB as (Bl & Brr & Hl & Hr)%bst_Br. cbn [del].
    assert (Kl : forall x : K * V, x ∈ kvs l -> klt x.1 k').
    { intros [xk xv] Hx. by apply elem_kvs_keys, Hl in Hx. }
    assert (Kr : forall x : K * V, x ∈ kvs r -> klt k' x.1).
    { intros [xk xv] Hx. by apply elem_kvs_keys, Hr in Hx. }
    destruct (less k k') eqn:Elt; [|destruct (less k' k) eqn:Egt].
    + destruct (IHl k Bl) as (B' & M' & R'). pose proof (del_keys_elem k l) as Hel.
      destruct (del k l) as [l' b]. cbn [fst snd] in *. split_and!.
      * unfold bst. rewrite keys_rebal. apply bst_Br. split_and!; [done|done| |done].
        intros x [_ Hx]%Hel; [by apply Hl|done].
      * intros x. rewrite kvs_rebal, !elem_kvs_Br, M'. split.
        -- intros [[Hn Hx]|[->|Hx]]; (split; [|tauto]); [done| |].
           ++ cbn. intros ->. order.
           ++ intros <-. apply Kr in Hx. order.
        -- intros [Hn [Hx|[->|Hx]]]; tauto.
      * rewrite R', elem_keys_Br. split; [tauto|].
        intros [Hx|[->|Hx]]; [done|order|]. apply Hr in Hx. order.
    + destruct (IHr k Brr) as (B' & M' & R'). pose proof (del_keys_elem k r) as Hel.
      destruct (del k r) as [r' b]. cbn [fst snd] in *. split_and!.
      * unfold bst. rewrite keys_rebal. apply bst_Br. split_and!; [done|done|done|].
        intros x [_ Hx]%Hel; [by apply Hr|done].
      * intros x. rewrite kvs_rebal, !elem_kvs_Br, M'. split.
        -- intros [Hx|[->|[Hn Hx]]]; (split; [|tauto]); [| |done].
           ++ intros <-. apply Kl in Hx. order.
           ++ cbn. intros ->. order.
        -- intros [Hn [Hx|[->|Hx]]]; tauto.
      * rewrite R', elem_keys_Br. split; [tauto|].
        intros [Hx|[->|Hx]]; [|order|done]. apply Hl in Hx. order.
    + assert (k = k') as <- by order.
      assert (Rt : true = true <-> k ∈ keys (Br l p k v' r)).
      { split; [|done]. intros _. apply elem_keys_Br. right. by left. }
      destruct l as [|ll lp lk lv lr]; [|destruct r as [|rl rp rk rv rr]].
      * cbn [fst snd]. split_and!; [done| |done].
        intros x. rewrite elem_kvs_Br. split.
        -- intros Hx. split; [|tauto]. intros <-. apply Kr in Hx. order.
        -- intros [Hn [Hx|[->|Hx]]]; [by apply elem_of_nil in Hx|done|done].
      * cbn [fst snd]. split_and!; [done| |done].
        intros x. rewrite (elem_kvs_Br _ p). split.
        -- intros Hx. split; [|tauto]. intros <-. apply Kl in Hx. order.
        -- intros [Hn [Hx|[->|Hx]]]; [done|done|by apply elem_of_nil in Hx].
      * destruct (tmin_spec rl rp rk rv rr Brr) as (Hsin & Hmin).
        destruct (tmin rl rp rk rv) as [[s sk] sv]. cbn [fst snd] in *.
        assert (HsR : (sk, sv) ∈ kvs (Br rl rp rk rv rr)).
        { by apply elem_kvs_left. }
        assert (Hks : klt k sk) by (by apply Kr in HsR).
        destruct (IHr sk Brr) as (B' & M' & R'). pose proof (del_keys_elem sk (Br rl rp rk rv rr)) as Hel.
        destruct (del sk (Br rl rp rk rv rr)) as [r' b]. cbn [fst snd] in *. split_and!; [| |done].
        -- unfold bst. rewrite keys_rebal. apply bst_Br. split_and!; [done|done| |].
           ++ intros x Hx. eapply klt_trans; [by apply Hl|done].
           ++ intros y [Hn Hy]%Hel; [|done]. destruct (Hmin y Hy); [done|done].
        -- intros x. rewrite kvs_rebal, (elem_kvs_Br _ p), (elem_kvs_Br _ p), M'. split.
           ++ intros [Hx|[->|[Hn Hx]]]; (split; [|tauto]).
              ** intros <-. apply Kl in Hx. order.
              ** cbn. intros ->. order.
              ** intros <-. apply Kr in Hx. order.
           ++ intros [Hn [Hx|[->|Hx]]]; [tauto|done|].
              destruct (equal x.1 sk) eqn:Eq.
              ** apply equal_true in Eq. right. left. destruct x as [xk xv]. cbn in Eq. subst xk.
                 f_equal. exact (bst_unique _ _ _ _ Brr Hx HsR).
              ** apply equal_false in Eq. tauto.
Qed.

End PureDelete.

(** ** Balance *)

Section PureBalance.
Context {K V : Type} `{Ordered K}.
Abbreviation tree := (@tree K V).

(** The AVL condition at every node. *)
Fixpoint avl (t : tree) : Prop :=
  match t with
  | Leaf => True
  | Br l _ _ _ r => avl l /\ avl r /\ -1 <= ht l - ht r <= 1
  end.

Lemma avl_rebal (l : tree) p k v (r : tree) :
  avl l -> avl r -> -2 <= ht l - ht r <= 2 ->
  avl (rebal l p k v r)
  /\ ht (Br l p k v r) - 1 <= ht (rebal l p k v r) <= ht (Br l p k v r)
  /\ (-1 <= ht l - ht r <= 1 -> rebal l p k v r = Br l p k v r).
Proof.
  intros Al Ar Hb. unfold rebal.
  destruct (Z.gtb_spec (ht l - ht r) 1) as [Hgt|Hle].
  - destruct l as [|a y ky vy b]; [cbn [ht] in *; pose proof (ht_nonneg r); lia|].
    cbn [bal]. destruct (Z.ltb_spec (ht a - ht b) 0) as [Hlt|Hge].
    + destruct b as [|b1 q kq vq b2]; [cbn [ht] in *; pose proof (ht_nonneg a); lia|].
      cbn [rotL rotR avl ht] in *. split_and!; try tauto; lia.
    + cbn [rotL rotR avl ht] in *. split_and!; try tauto; lia.
  - destruct (Z.ltb_spec (ht l - ht r) (-1)) as [Hlt|Hge].
    + destruct r as [|b y ky vy c]; [cbn [ht] in *; pose proof (ht_nonneg l); lia|].
      cbn [bal]. destruct (Z.gtb_spec (ht b - ht c) 0) as [Hgt|Hle'].
      * destruct b as [|b1 q kq vq b2]; [cbn [ht] in *; pose proof (ht_nonneg c); lia|].
        cbn [rotL rotR avl ht] in *. split_and!; try tauto; lia.
      * cbn [rotL rotR avl ht] in *. split_and!; try tauto; lia.
    + cbn [avl ht]. split_and!; try done; lia.
Qed.

Lemma avl_ins f k v (t : tree) :
  avl t -> avl (ins f k v t).1 /\ ht t <= ht (ins f k v t).1 <= ht t + 1.
Proof.
  induction t as [|l IHl p k' v' r IHr].
  - intros _. cbn. lia.
  - intros (Al & Ar & Hb). cbn [ins].
    destruct (less k k'); [|destruct (less k' k)].
    + destruct (IHl Al) as (Al' & Hh). destruct (ins f k v l) as [l' b]. cbn [fst snd] in *.
      destruct (avl_rebal l' p k' v' r) as (A' & Hh' & He); [done|done|lia|].
      split; [done|]. cbn [ht] in *.
      destruct (Z.le_gt_cases (ht l' - ht r) 1); [rewrite He by lia; cbn [ht]; lia|lia].
    + destruct (IHr Ar) as (Ar' & Hh). destruct (ins f k v r) as [r' b]. cbn [fst snd] in *.
      destruct (avl_rebal l p k' v' r') as (A' & Hh' & He); [done|done|lia|].
      split; [done|]. cbn [ht] in *.
      destruct (Z.le_gt_cases (-1) (ht l - ht r')); [rewrite He by lia; cbn [ht]; lia|lia].
    + cbn [fst avl ht]. split; [done|lia].
Qed.

Lemma avl_del (t : tree) : forall k,
  avl t -> avl (del k t).1 /\ ht t - 1 <= ht (del k t).1 <= ht t.
Proof.
  induction t as [|l IHl p k' v' r IHr]; intros k.
  - intros _. cbn. lia.
  - intros (Al & Ar & Hb). cbn [del].
    destruct (less k k'); [|destruct (less k' k)].
    + destruct (IHl k Al) as (Al' & Hh). destruct (del k l) as [l' b]. cbn [fst snd] in *.
      destruct (avl_rebal l' p k' v' r) as (A' & Hh' & He); [done|done|lia|].
      split; [done|]. cbn [ht] in *.
      destruct (Z.le_gt_cases (-1) (ht l' - ht r)); [rewrite He by lia; cbn [ht]; lia|lia].
    + destruct (IHr k Ar) as (Ar' & Hh). destruct (del k r) as [r' b]. cbn [fst snd] in *.
      destruct (avl_rebal l p k' v' r') as (A' & Hh' & He); [done|done|lia|].
      split; [done|]. cbn [ht] in *.
      destruct (Z.le_gt_cases (ht l - ht r') 1); [rewrite He by lia; cbn [ht]; lia|lia].
    + destruct l as [|ll lp lk lv lr]; [|destruct r as [|rl rp rk rv rr]].
      * cbn [fst ht] in *. split; [done|]. pose proof (ht_nonneg r). lia.
      * cbn [fst]. split; [done|]. pose proof (ht_nonneg (Br ll lp lk lv lr)).
        cbn [ht] in *. lia.
      * destruct (tmin rl rp rk rv) as [[s sk] sv].
        destruct (IHr sk Ar) as (Ar' & Hh).
        destruct (del sk (Br rl rp rk rv rr)) as [r' b]. cbn [fst snd] in *.
        destruct (avl_rebal (Br ll lp lk lv lr) p sk sv r') as (A' & Hh' & He); [done|done|lia|].
        split; [done|].
        destruct (Z.le_gt_cases (ht (Br ll lp lk lv lr) - ht r') 1).
        -- rewrite He by lia. cbn [ht] in *. lia.
        -- cbn [ht] in *. lia.
Qed.

(** Deleting a key that is not there changes nothing. *)
Lemma del_absent (t : tree) k :
  bst t -> avl t -> k ∉ keys t -> del k t = (t, false).
Proof.
  induction t as [|l IHl p k' v' r IHr]; [done|].
  intros (Bl & Brr & Hl & Hr)%bst_Br (Al & Ar & Hb) Hk. cbn [del].
  destruct (less k k') eqn:Elt; [|destruct (less k' k) eqn:Egt].
  - rewrite IHl; [|done|done|]. 
    + destruct (avl_rebal l p k' v' r) as (_ & _ & He); [done|done|lia|]. by rewrite He.
    + intros Hin. apply Hk, elem_keys_Br. by left.
  - rewrite IHr; [|done|done|]. 
    + destruct (avl_rebal l p k' v' r) as (_ & _ & He); [done|done|lia|]. by rewrite He.
    + intros Hin. apply Hk, elem_keys_Br. by right; right.
  - destruct Hk. apply elem_keys_Br. right. left. order.
Qed.

Lemma sz_rebal (l : tree) p k v r : sz (rebal l p k v r) = sz (Br l p k v r).
Proof. by rewrite !sz_length, locs_rebal. Qed.

Lemma sz_ins f k v (t : tree) :
  sz (ins f k v t).1 = if (ins f k v t).2 then sz t + 1 else sz t.
Proof.
  rewrite !sz_length, locs_ins. destruct (ins f k v t).2; [|done].
  cbn [length]. lia.
Qed.

Lemma sz_del (t : tree) : forall k,
  bst t -> sz (del k t).1 = if (del k t).2 then sz t - 1 else sz t.
Proof.
  induction t as [|l IHl p k' v' r IHr]; intros k; [done|].
  intros (Bl & Brr & Hl & Hr)%bst_Br. cbn [del].
  destruct (less k k'); [|destruct (less k' k)].
  - specialize (IHl k Bl). destruct (del k l) as [l' b]. cbn [fst snd] in *.
    rewrite sz_rebal. cbn [sz]. rewrite IHl. destruct b; lia.
  - specialize (IHr k Brr). destruct (del k r) as [r' b]. cbn [fst snd] in *.
    rewrite sz_rebal. cbn [sz]. rewrite IHr. destruct b; lia.
  - destruct l as [|ll lp lk lv lr]; [|destruct r as [|rl rp rk rv rr]].
    + cbn [fst snd sz]. lia.
    + cbn [fst snd sz]. lia.
    + destruct (tmin_spec rl rp rk rv rr Brr) as (Hsin & _).
      apply (elem_kvs_left _ rp _ _ rr), elem_kvs_keys in Hsin.
      destruct (tmin rl rp rk rv) as [[s sk] sv]. cbn [fst snd] in *.
      specialize (IHr sk Brr). destruct (del_spec (Br rl rp rk rv rr) sk Brr) as (_ & _ & Hb).
      destruct (del sk (Br rl rp rk rv rr)) as [r' b]. cbn [fst snd] in *.
      apply Hb in Hsin as ->. rewrite sz_rebal. cbn [sz] in *. lia.
Qed.

End PureBalance.

(** ** Well-formed trees *)

Section WellFormed.
Context {K V : Type} `{Ordered K}.
Abbreviation Node := (Node K V).
Abbreviation heap := (list Node).
Abbreviation tree := (@tree K V).

(** The store [h] holds the tree [tr] at the root of [t], and [tr] meets
    the invariants of the data model: every node is as the shape says
    (height and size recurrences, back-references, the root without a
    parent), no node is shared, the keys ascend, every node is balanced. *)
Definition holds (h : heap) (t : Tree) (tr : tree) : Prop :=
  Root t = root_of tr /\ repr h None tr /\ NoDup (locs tr) /\ bst tr /\ avl tr.

Definition wf (h : heap) (t : Tree) : Prop := exists tr, holds h t tr.

Lemma NoDup_bounded_length (l : list nat) n :
  NoDup l -> (forall x, x ∈ l -> (x < n)%nat) -> (length l <= n)%nat.
Proof.
  intros Hnd Hb. trans (length (seq 0 n)); [|by rewrite length_seq].
  apply submseteq_length.
  apply NoDup_submseteq; [done|]. intros x Hx. apply elem_of_seq. specialize (Hb x Hx). lia.
Qed.

Lemma repr_depth (h : heap) par (tr : tree) :
  repr h par tr -> NoDup (locs tr) -> (depth tr <= length h)%nat.
Proof.
  intros Hr Hnd. etrans; [apply depth_le_size|].
  apply NoDup_bounded_length; [done|]. intros x Hx. by eapply repr_locs_lt.
Qed.

Lemma holds_depth (h : heap) t (tr : tree) : holds h t tr -> (depth tr <= length h)%nat.
Proof. intros (_ & Hr & Hnd & _). by eapply repr_depth. Qed.

Lemma holds_New (h : heap) : holds h New Leaf.
Proof. by split_and!; try constructor. Qed.

Lemma holds_Clear (h : heap) t : holds h (Clear t) Leaf.
Proof. by split_and!; try constructor. Qed.

Lemma Insert_holds (h : heap) t (tr : tree) k v fuel :
  holds h t tr -> (length h < fuel)%nat ->
  exists h' t',
    Insert fuel t k v h = Some (((ins (length h) k v tr).2, t'), h')
    /\ holds h' t' (ins (length h) k v tr).1
    /\ length h' = (if (ins (length h) k v tr).2 then S (length h) else length h).
Proof.
  intros Hh Hf. pose proof (holds_depth _ _ _ Hh) as Hd.
  destruct Hh as (Hroot & Hr & Hnd & Hb & Ha).
  destruct (insertRec_repr k v tr fuel None h Hr Hnd) as (h' & E & R' & G & L); [lia|].
  exists h', (mkTree (root_of (ins (length h) k v tr).1)). split_and!.
  - unfold Insert. rewrite Hroot. eapply bind_eq; [exact E|]. reflexivity.
  - split_and!; [done|done| | |].
    + apply locs_ins_NoDup; [done|]. intros Hin.
      pose proof (repr_locs_lt _ _ _ _ Hr Hin). lia.
    + by apply ins_spec.
    + by apply avl_ins.
  - done.
Qed.

Lemma Delete_holds (h : heap) t (tr : tree) k fuel :
  holds h t tr -> (length h < fuel)%nat ->
  exists h' t',
    Delete fuel t k h = Some (((del k tr).2, t'), h')
    /\ holds h' t' (del k tr).1
    /\ updated h h' (locs tr).
Proof.
  intros Hh Hf. pose proof (holds_depth _ _ _ Hh) as Hd.
  destruct Hh as (Hroot & Hr & Hnd & Hb & Ha).
  destruct (deleteRec_repr tr k fuel None h Hr Hnd) as (h' & E & R' & U); [lia|].
  exists h', (mkTree (root_of (del k tr).1)). split_and!.
  - unfold Delete. rewrite Hroot. eapply bind_eq; [exact E|]. cbv beta iota.
    destruct (del k tr).1 as [|l p k' v' r] eqn:Et; cbn [root_of not_nil when].
    + reflexivity.
    + destruct R' as (Hp & _). eapply bind_eq; [eapply set_eq; exact Hp|].
      rewrite list_insert_id by done. reflexivity.
  - split_and!; [done|done| | |].
    + by apply locs_del_NoDup.
    + by apply del_spec.
    + by apply avl_del.
  - done.
Qed.

End WellFormed.

(** ** The queries in terms of the tree *)

Section Queries.
Context {K V : Type} `{Ordered K}.
Abbreviation Node := (Node K V).
Abbreviation heap := (list Node).
Abbreviation tree := (@tree K V).

Fixpoint tfind (k : K) (t : tree) : ptr :=
  match t with
  | Leaf => None
  | Br l p k' _ r =>
      if less k k' then tfind k l
      else if less k' k then tfind k r
      else Some p
  end.

Fixpoint tceil (k : K) (t : tree) (res : ptr) : ptr :=
  match t with
  | Leaf => res
  | Br l p k' _ r =>
      if equal k k' then Some p
      else if less k k' then tceil k l (Some p)
      else tceil k r res
  end.

Fixpoint tfloor (k : K) (t : tree) (res : ptr) : ptr :=
  match t with
  | Leaf => res
  | Br l p k' _ r =>
      if equal k k' then Some p
      else if less k k' then tfloor k l res
      else tfloor k r (Some p)
  end.

Fixpoint thigher (k : K) (t : tree) (res : ptr) : ptr :=
  match t with
  | Leaf => res
  | Br l p k' _ r =>
      if less k k' then thigher k l (Some p)
      else thigher k r res
  end.

Lemma Search_repr k (t : tree) : forall fuel par (h : heap),
  repr h par t -> (depth t < fuel)%nat ->
  Search_loop fuel k (root_of t) h = Some (tfind k t).
Proof.
  induction t as [|l IHl p k' v' r IHr]; intros fuel par h Hr Hf;
    (destruct fuel as [|fuel]; [lia|]); [done|].
  destruct Hr as (Hp & Rl & Rr). cbn [depth] in Hf.
  cbn [Search_loop root_of tfind]. rewrite Hp. cbn [mbind option_bind node_of key left right].
  destruct (less k k'); [eapply IHl; [done|lia]|].
  destruct (less k' k); [eapply IHr; [done|lia]|done].
Qed.

Lemma Ceiling_repr k (t : tree) : forall fuel par res (h : heap),
  repr h par t -> (depth t < fuel)%nat ->
  Ceiling_loop fuel k (root_of t) res h = Some (tceil k t res).
Proof.
  induction t as [|l IHl p k' v' r IHr]; intros fuel par res h Hr Hf;
    (destruct fuel as [|fuel]; [lia|]); [done|].
  destruct Hr as (Hp & Rl & Rr). cbn [depth] in Hf.
  cbn [Ceiling_loop root_of tceil]. rewrite Hp. cbn [mbind option_bind node_of key left right].
  destruct (equal k k'); [done|].
  destruct (less k k'); [eapply IHl; [done|lia]|eapply IHr; [done|lia]].
Qed.

Lemma Floor_repr k (t : tree) : forall fuel par res (h : heap),
  repr h par t -> (depth t < fuel)%nat ->
  Floor_loop fuel k (root_of t) res h = Some (tfloor k t res).
Proof.
  induction t as [|l IHl p k' v' r IHr]; intros fuel par res h Hr Hf;
    (destruct fuel as [|fuel]; [lia|]); [done|].
  destruct Hr as (Hp & Rl & Rr). cbn [depth] in Hf.
  cbn [Floor_loop root_of tfloor]. rewrite Hp. cbn [mbind option_bind node_of key left right].
  destruct (equal k k'); [done|].
  destruct (less k k'); [eapply IHl; [done|lia]|eapply IHr; [done|lia]].
Qed.

Lemma Higher_repr k (t : tree) : forall fuel par res (h : heap),
  repr h par t -> (depth t < fuel)%nat ->
  Higher_loop fuel k (root_of t) res h = Some (thigher k t res).
Proof.
  induction t as [|l IHl p k' v' r IHr]; intros fuel par res h Hr Hf;
    (destruct fuel as [|fuel]; [lia|]); [done|].
  destruct Hr as (Hp & Rl & Rr). cbn [depth] in Hf.
  cbn [Higher_loop root_of thigher]. rewrite Hp. cbn [mbind option_bind node_of key left right].
  destruct (less k k'); [eapply IHl; [done|lia]|eapply IHr; [done|lia]].
Qed.

(** The node found for a key holds that key, with the value the tree has for it. *)
Lemma tfind_Some k (t : tree) p :
  tfind k t = Some p -> exists v, (k, v) ∈ kvs t /\ forall (h : heap) par,
    repr h par t -> exists n, h !! p = Some n /\ key n = k /\ value n = v.
Proof.
  induction t as [|l IHl q k' v' r IHr]; [done|]. cbn [tfind].
  destruct (less k k') eqn:Elt; [|destruct (less k' k) eqn:Egt].
  - intros (v & Hin & Hn)%IHl. exists v. split; [apply elem_kvs_Br; by left|].
    intros h par (_ & Rl & _). eauto.
  - intros (v & Hin & Hn)%IHr. exists v. split; [apply elem_kvs_Br; by right; right|].
    intros h par (_ & _ & Rr). eauto.
  - intros [= ->]. assert (k = k') as <- by order. exists v'.
    split; [apply elem_kvs_Br; right; by left|].
    intros h par (Hp & _). eauto.
Qed.

Lemma tfind_None k (t : tree) : bst t -> tfind k t = None <-> k ∉ keys t.
Proof.
  induction t as [|l IHl q k' v' r IHr]; [intros _; split; [by intros _ ?%elem_of_nil|done]|].
  intros (Bl & Brr & Hl & Hr)%bst_Br. cbn [tfind]. rewrite elem_keys_Br.
  destruct (less k k') eqn:Elt; [|destruct (less k' k) eqn:Egt].
  - rewrite (IHl Bl). split; [|tauto].
    intros Hn [Hx|[->|Hx]]; [done|order|]. apply Hr in Hx. order.
  - rewrite (IHr Brr). split; [|tauto].
    intros Hn [Hx|[->|Hx]]; [|order|done]. apply Hl in Hx. order.
  - split; [done|]. intros Hn. destruct Hn. right. left. order.
Qed.

(** For a key of the tree, [Ceiling] and [Floor] stop at the node [Search] finds. *)
Lemma tceil_present k (t : tree) res : bst t -> k ∈ keys t -> tceil k t res = tfind k t.
Proof.
  revert res. induction t as [|l IHl q k' v' r IHr]; intros res; [by intros _ ?%elem_of_nil|].
  intros (Bl & Brr & Hl & Hr)%bst_Br Hk%elem_keys_Br. cbn [tceil tfind].
  destruct (equal k k') eqn:Eeq.
  - apply equal_true in Eeq as ->. by rewrite less_irrefl.
  - apply equal_false in Eeq. destruct (less k k') eqn:Elt.
    + apply IHl; [done|]. destruct Hk as [Hk|[->|Hk]]; [done|done|]. apply Hr in Hk. order.
    + assert (less k' k = true) as -> by order.
      apply IHr; [done|]. destruct Hk as [Hk|[->|Hk]]; [|done|done]. apply Hl in Hk. order.
Qed.

Lemma tfloor_present k (t : tree) res : bst t -> k ∈ keys t -> tfloor k t res = tfind k t.
Proof.
  revert res. induction t as [|l IHl q k' v' r IHr]; intros res; [by intros _ ?%elem_of_nil|].
  intros (Bl & Brr & Hl & Hr)%bst_Br Hk%elem_keys_Br. cbn [tfloor tfind].
  destruct (equal k k') eqn:Eeq.
  - apply equal_true in Eeq as ->. by rewrite less_irrefl.
  - apply equal_false in Eeq. destruct (less k k') eqn:Elt.
    + apply IHl; [done|]. destruct Hk as [Hk|[->|Hk]]; [done|done|]. apply Hr in Hk. order.
    + assert (less k' k = true) as -> by order.
      apply IHr; [done|]. destruct Hk as [Hk|[->|Hk]]; [|done|done]. apply Hl in Hk. order.
Qed.

End Queries.

Section SuccessorQ.
Context {K V : Type} `{Ordered K}.
Abbreviation Node := (Node K V).
Abbreviation heap := (list Node).
Abbreviation tree := (@tree K V).

(** Below every key of [t], [Higher] ends at the leftmost node of [t]. *)
Lemma thigher_above k (t : tree) res :
  (forall y, y ∈ keys t -> klt k y) ->
  thigher k t res = match t with
                    | Leaf => res
                    | Br l p k' v' _ => Some (tmin l p k' v').1.1
                    end.
Proof.
  revert res. induction t as [|l IHl p k' v' r _]; intros res Hk; [done|].
  cbn [thigher]. rewrite (Hk k') by (apply elem_keys_Br; right; by left).
  rewrite IHl by (intros y Hy; apply Hk, elem_keys_Br; by left).
  by destruct l.
Qed.

Lemma tfind_nonempty k (t : tree) p : tfind k t = Some p -> exists q, root_of t = Some q.
Proof. destruct t; [done|]. cbn. eauto. Qed.

(** [Successor] of the node found for [k], against [Higher(k)]: within the
    subtree [t], given where the walk up the parents leads from the root
    of [t]. *)
Lemma Successor_sub k (t : tree) : forall par res a (h : heap) p fuel,
  repr h par t -> NoDup (locs t) -> bst t -> tfind k t = Some p ->
  (forall f, (a < f)%nat -> Successor_loop f (root_of t) par h = Some res) ->
  (depth t + a < fuel)%nat ->
  Successor fuel (Some p) h = Some (thigher k t res).
Proof.
  induction t as [|l IHl c k' v' r IHr]; intros par res a h p fuel Hr Hnd HB Hfind U Hf; [done|].
  pose proof Hr as (Hc & Rl & Rr). pose proof HB as (Bl & Brr & Hl & Hrk)%bst_Br.
  cbn [locs] in Hnd. nodup_split. cbn [depth] in Hf.
  cbn [tfind thigher] in *.
  destruct (less k k') eqn:Elt; [|destruct (less k' k) eqn:Egt].
  - apply (IHl (Some c) (Some c) O h p fuel); try done; [|lia].
    intros f Hlt. destruct f as [|f]; [lia|].
    destruct (tfind_nonempty _ _ _ Hfind) as (lp & El).
    cbn [Successor_loop]. rewrite Hc. cbn [mbind option_bind node_of right].
    rewrite El. assert (ptr_eqb (Some lp) (root_of r) = false) as ->; [|done].
    destruct (root_of r) as [rp|] eqn:Er; [|done]. cbn [ptr_eqb].
    apply Nat.eqb_neq. intros ->.
    apply root_in_locs in El, Er. apply (H1 rp El). apply elem_of_cons. by right.
  - apply (IHr (Some c) res (S a) h p fuel); try done; [|lia].
    intros f Hlt. destruct f as [|f]; [lia|].
    destruct (tfind_nonempty _ _ _ Hfind) as (rp & Er).
    cbn [Successor_loop]. rewrite Hc. cbn [mbind option_bind node_of right parent].
    rewrite Er. cbn [ptr_eqb]. rewrite Nat.eqb_refl. apply (U f). lia.
  - injection Hfind as <-. assert (k = k') as <- by order.
    unfold Successor. cbn [deref]. rewrite Hc. cbn [mbind option_bind node_of right parent].
    destruct r as [|rl rp rk rv rr].
    + cbn [root_of not_nil thigher]. apply U. lia.
    + cbn [root_of not_nil].
      destruct (minNode_repr rl fuel h (Some c) rp rk rv rr Rr) as (-> & _);
        [cbn [depth] in Hf; lia|].
      by rewrite (thigher_above k (Br rl rp rk rv rr) res).
Qed.

End SuccessorQ.

(** ** Order statistics in terms of the tree *)

Section OrderStatistics.
Context {K V : Type} `{Ordered K}.
Abbreviation Node := (Node K V).
Abbreviation heap := (list Node).
Abbreviation tree := (@tree K V).

(** The number of keys of [l] strictly less than [k]. *)
Fixpoint below (k : K) (l : list K) : Z :=
  match l with
  | [] => 0
  | x :: l' => (if less x k then 1 else 0) + below k l'
  end.

Fixpoint trank (k : K) (t : tree) (acc : Z) : Z :=
  match t with
  | Leaf => acc
  | Br l _ k' _ r =>
      if less k k' then trank k l acc
      else if equal k k' then acc + sz l
      else trank k r (acc + (sz l + 1))
  end.

Fixpoint tkth (i : Z) (t : tree) : ptr :=
  match t with
  | Leaf => None
  | Br l p _ _ r =>
      if i <? sz l then tkth i l
      else if i >? sz l then tkth (i - (sz l + 1)) r
      else Some p
  end.

Lemma Rank_repr k (t : tree) : forall fuel par acc (h : heap),
  repr h par t -> (depth t < fuel)%nat ->
  Rank_loop fuel k acc (root_of t) h = Some (trank k t acc).
Proof.
  induction t as [|l IHl p k' v' r IHr]; intros fuel par acc h Hr Hf;
    (destruct fuel as [|fuel]; [lia|]); [done|].
  destruct Hr as (Hp & Rl & Rr). cbn [depth] in Hf.
  cbn [Rank_loop root_of trank]. rewrite Hp. cbn [mbind option_bind node_of key left right].
  destruct (less k k'); [eapply IHl; [done|lia]|].
  rewrite (repr_size_of _ _ _ Rl).
  destruct (equal k k'); [done|]. eapply IHr; [done|lia].
Qed.

Lemma Kth_repr (t : tree) : forall i fuel par (h : heap),
  repr h par t -> (depth t < fuel)%nat ->
  Kth_loop fuel i (root_of t) h = Some (tkth i t).
Proof.
  induction t as [|l IHl p k' v' r IHr]; intros i fuel par h Hr Hf;
    (destruct fuel as [|fuel]; [lia|]); [done|].
  destruct Hr as (Hp & Rl & Rr). cbn [depth] in Hf.
  cbn [Kth_loop root_of tkth]. rewrite Hp. cbn [mbind option_bind node_of key left right].
  rewrite (repr_size_of _ _ _ Rl). cbn [mbind option_bind].
  destruct (i <? sz l); [eapply IHl; [done|lia]|].
  destruct (i >? sz l); [eapply IHr; [done|lia]|done].
Qed.

Lemma below_app k (l1 l2 : list K) : below k (l1 ++ l2) = below k l1 + below k l2.
Proof. induction l1 as [|x l1 IH]; cbn [app below]; lia. Qed.

Lemma below_all k (l : list K) : (forall x, x ∈ l -> klt x k) -> below k l = Z.of_nat (length l).
Proof.
  induction l as [|x l IH]; intros Hl; [done|]. cbn [below length].
  rewrite (Hl x) by (apply elem_of_cons; by left).
  rewrite IH by (intros y Hy; apply Hl, elem_of_cons; by right). lia.
Qed.

Lemma below_none k (l : list K) : (forall x, x ∈ l -> less x k = false) -> below k l = 0.
Proof.
  induction l as [|x l IH]; intros Hl; [done|]. cbn [below].
  rewrite (Hl x) by (apply elem_of_cons; by left).
  rewrite IH by (intros y Hy; apply Hl, elem_of_cons; by right). lia.
Qed.

Lemma sz_keys (t : tree) : sz t = Z.of_nat (length (keys t)).
Proof. by rewrite sz_length, length_keys. Qed.

(** [Rank] counts the keys below [k]. *)
Lemma trank_below k (t : tree) acc : bst t -> trank k t acc = acc + below k (keys t).
Proof.
  revert acc. induction t as [|l IHl p k' v' r IHr]; intros acc; [intros _; cbn; lia|].
  intros (Bl & Brr & Hl & Hr)%bst_Br. cbn [trank keys]. rewrite below_app. cbn [below].
  destruct (less k k') eqn:Elt; [|destruct (equal k k') eqn:Eeq].
  - rewrite (IHl acc Bl). assert (less k' k = false) as -> by order.
    rewrite (below_none k (keys r)); [lia|]. intros y Hy%Hr. order.
  - apply equal_true in Eeq as ->. rewrite less_irrefl.
    rewrite (below_all k' (keys l)) by done.
    rewrite (below_none k' (keys r)); [rewrite sz_keys; lia|]. intros y Hy%Hr. order.
  - apply equal_false in Eeq. assert (less k' k = true) as -> by order.
    rewrite (IHr _ Brr). rewrite (below_all k (keys l)); [rewrite sz_keys; lia|].
    intros y Hy%Hl. order.
Qed.

(** [Kth] is the lookup in the ascending sequence of the nodes. *)
Lemma tkth_spec (t : tree) : forall i,
  (0 <= i < sz t -> tkth i t = locs t !! Z.to_nat i)
  /\ (~ (0 <= i < sz t) -> tkth i t = None).
Proof.
  induction t as [|l IHl p k' v' r IHr]; intros i; cbn [tkth sz locs].
  - split; [lia|done].
  - pose proof (sz_nonneg l). pose proof (sz_nonneg r).
    pose proof (sz_length l) as Ll.
    destruct (Z.ltb_spec i (sz l)); [|destruct (Z.gtb_spec i (sz l))].
    + destruct (IHl i) as [I1 I2]. split.
      * intros Hi. rewrite I1 by lia. by rewrite lookup_app_l by lia.
      * intros Hi. apply I2. lia.
    + destruct (IHr (i - (sz l + 1))) as [I1 I2]. split.
      * intros Hi. rewrite I1 by lia. rewrite lookup_app_r by lia.
        replace (Z.to_nat i - length (locs l))%nat with (S (Z.to_nat (i - (sz l + 1)))) by lia.
        done.
      * intros Hi. apply I2. lia.
    + split; [|lia]. intros Hi. rewrite lookup_app_r by lia.
      by replace (Z.to_nat i - length (locs l))%nat with O by lia.
Qed.

(** The nodes of the tree, in order, are what the store holds at its addresses. *)
Lemma repr_nodes (h : heap) par (t : tree) :
  repr h par t -> Forall2 (fun p n => h !! p = Some n) (locs t) (nodes par t).
Proof.
  revert par. induction t as [|l IHl p k v r IHr]; intros par; [constructor|].
  intros (Hp & Rl & Rr). cbn [locs nodes]. apply Forall2_app; [by apply IHl|].
  constructor; [done|by apply IHr].
Qed.

End OrderStatistics.

(** ** Iteration in terms of the tree *)

Section Iteration.
Context {K V : Type} `{Ordered K}.
Abbreviation Node := (Node K V).
Abbreviation heap := (list Node).
Abbreviation tree := (@tree K V).

(** An entry of the stack of the walk: a node whose left subtree is done,
    with its right subtree still to come. *)
Definition frame : Type := loc * Node * tree.

Definition frame_ok (h : heap) (e : frame) : Prop :=
  h !! e.1.1 = Some e.1.2 /\ right e.1.2 = root_of e.2 /\ repr h (Some e.1.1) e.2.

(** What the stack will still yield. *)
Fixpoint pending (G : list frame) : list Node :=
  match G with
  | [] => []
  | e :: G' => e.1.2 :: nodes (Some e.1.1) e.2 ++ pending G'
  end.

(** The stack after the left spine of [t] is pushed. *)
Fixpoint spine (par : ptr) (t : tree) (G : list frame) : list frame :=
  match t with
  | Leaf => G
  | Br l p k v r => spine (Some p) l ((p, node_of par l k v r, r) :: G)
  end.

Lemma push_left_repr (t : tree) : forall fuel par G (h : heap),
  repr h par t -> (depth t < fuel)%nat ->
  push_left fuel (G.*1.*1) (root_of t) h = Some ((spine par t G).*1.*1).
Proof.
  induction t as [|l IHl p k v r _]; intros fuel par G h Hr Hf;
    (destruct fuel as [|fuel]; [lia|]); [done|].
  destruct Hr as (Hp & Rl & Rr). cbn [depth] in Hf.
  cbn [push_left root_of spine]. rewrite Hp. cbn [mbind option_bind node_of left].
  rewrite <- (IHl fuel (Some p) ((p, node_of par l k v r, r) :: G) h Rl) by lia. done.
Qed.

Lemma pending_spine par (t : tree) G : pending (spine par t G) = nodes par t ++ pending G.
Proof.
  revert par G. induction t as [|l IHl p k v r _]; intros par G; [done|].
  cbn [spine nodes]. rewrite IHl. cbn [pending fst snd]. by rewrite <- app_assoc.
Qed.

Lemma spine_ok (h : heap) par (t : tree) G :
  repr h par t -> Forall (frame_ok h) G -> Forall (frame_ok h) (spine par t G).
Proof.
  revert par G. induction t as [|l IHl p k v r _]; intros par G; [done|].
  intros (Hp & Rl & Rr) HG. cbn [spine]. apply IHl; [done|].
  constructor; [|done]. by split_and!.
Qed.

Lemma pending_nil G : pending G = [] -> G = [].
Proof. by destruct G. Qed.

(** The whole in-order walk from a state of the loop. *)
Lemma InOrder_loop_repr (h : heap) : forall fuel par (t : tree) G seen,
  repr h par t -> Forall (frame_ok h) G ->
  (length (nodes par t ++ pending G) < fuel)%nat ->
  InOrder_loop fuel all seen (G.*1.*1) (root_of t) h
    = Some (seen ++ nodes par t ++ pending G).
Proof.
  induction fuel as [|fuel IH]; intros par t G seen Hr HG Hf; [lia|].
  cbn [InOrder_loop].
  assert (Hd : (depth t < S fuel)%nat).
  { pose proof (depth_le_size t). rewrite length_app, length_nodes in Hf. lia. }
  rewrite (push_left_repr t (S fuel) par G h Hr Hd).
  pose proof (pending_spine par t G) as Hpe. pose proof (spine_ok h par t G Hr HG) as Hok.
  destruct (spine par t G) as [|[[c n] r] G2] eqn:Es.
  - cbn [pending] in Hpe. symmetry in Hpe. apply app_eq_nil in Hpe as [Hn Hp].
    apply pending_nil in Hp as ->.
    destruct t as [|l p k v r];
      [|cbn [nodes] in Hn; apply app_eq_nil in Hn as [_ Hn]; discriminate].
    cbn. by rewrite app_nil_r.
  - assert (is_nil (root_of t) && bool_decide (G.*1.*1 = []) = false) as ->.
    { destruct t; [|done]. cbn [spine] in Es. subst G. done. }
    cbn [fmap list_fmap mbind option_bind fst].
    apply Forall_cons in Hok as [(Hc & Hright & Hrr) Hok2]. cbn [fst snd] in *.
    rewrite Hc. cbn [mbind option_bind]. unfold all at 1. rewrite Hright.
    rewrite (IH (Some c) r G2 (seen ++ [n]) Hrr Hok2).
    + rewrite <- Hpe. cbn [pending fst snd]. by rewrite <- app_assoc.
    + rewrite <- Hpe in Hf. cbn [pending fst snd length] in Hf. lia.
Qed.


(** The bound of [Range] on a key: [from <= key < to]. *)
Definition in_range (from to : K) (n : Node) : bool :=
  negb (less (key n) from) && less (key n) to.

Lemma filter_none {A} (f : A -> bool) (l : list A) :
  (forall x, x ∈ l -> f x = false) -> List.filter f l = [].
Proof.
  induction l as [|x l IH]; intros Hl; [done|]. cbn [List.filter].
  rewrite (Hl x) by (apply elem_of_cons; by left).
  apply IH. intros y Hy. apply Hl, elem_of_cons. by right.
Qed.

(** The bounded walk: the nodes in range of what the full walk yields. *)
Lemma Range_loop_repr (h : heap) from to : forall fuel par (t : tree) G seen,
  repr h par t -> Forall (frame_ok h) G ->
  sorted (key <$> nodes par t ++ pending G) ->
  (length (nodes par t ++ pending G) < fuel)%nat ->
  Range_loop fuel from to all seen (G.*1.*1) (root_of t) h
    = Some (seen ++ List.filter (in_range from to) (nodes par t ++ pending G)).
Proof.
  induction fuel as [|fuel IH]; intros par t G seen Hr HG Hs Hf; [lia|].
  cbn [Range_loop].
  assert (Hd : (depth t < S fuel)%nat).
  { pose proof (depth_le_size t). rewrite length_app, length_nodes in Hf. lia. }
  rewrite (push_left_repr t (S fuel) par G h Hr Hd).
  pose proof (pending_spine par t G) as Hpe. pose proof (spine_ok h par t G Hr HG) as Hok.
  destruct (spine par t G) as [|[[c n] r] G2] eqn:Es.
  - cbn [pending] in Hpe. symmetry in Hpe. rewrite Hpe.
    apply app_eq_nil in Hpe as [Hn Hp].
    apply pending_nil in Hp as ->.
    destruct t as [|l p k v r];
      [|cbn [nodes] in Hn; apply app_eq_nil in Hn as [_ Hn]; discriminate].
    cbn. by rewrite app_nil_r.
  - assert (is_nil (root_of t) && bool_decide (G.*1.*1 = []) = false) as ->.
    { destruct t; [|done]. cbn [spine] in Es. subst G. done. }
    cbn [fmap list_fmap mbind option_bind fst].
    apply Forall_cons in Hok as [(Hc & Hright & Hrr) Hok2]. cbn [fst snd] in *.
    rewrite Hc. cbn [mbind option_bind].
    rewrite <- Hpe in Hs, Hf |- *. cbn [pending fst snd length] in Hs, Hf |- *.
    rewrite fmap_cons in Hs. destruct Hs as [Hall Hs].
    cbn [List.filter]. unfold in_range at 1.
    destruct (less (key n) to) eqn:Eto.
    + cbn [negb]. rewrite Hright.
      destruct (negb (less (key n) from)); cbn [andb].
      * unfold all at 1.
        rewrite (IH (Some c) r G2 (seen ++ [n]) Hrr Hok2 Hs) by lia.
        by rewrite <- app_assoc.
      * by rewrite (IH (Some c) r G2 seen Hrr Hok2 Hs) by lia.
    + cbn [negb]. rewrite andb_false_r.
      rewrite fmap_app in Hs, Hall. apply sorted_app in Hs as (_ & Hs2 & _).
      apply Forall_app in Hall as [Hall1 Hall2].
      pose proof (IH None Leaf G2 seen I Hok2) as IH'. cbn [nodes app root_of] in IH'.
      rewrite length_app in Hf.
      rewrite IH' by (done || lia). f_equal. f_equal.
      rewrite List.filter_app. rewrite (filter_none _ (nodes (Some c) r)); [done|].
      intros x Hx. unfold in_range. apply andb_false_intro2.
      assert (klt (key n) (key x)).
      { eapply Forall_forall in Hall1; [done|]. apply list_elem_of_fmap. by exists x. }
      order.
Qed.

End Iteration.

(** ** The operations on a well-formed tree *)

Section OnHolds.
Context {K V : Type} `{Ordered K}.
Abbreviation Node := (Node K V).
Abbreviation heap := (list Node).
Abbreviation tree := (@tree K V).

Lemma holds_fuel (h : heap) t (tr : tree) fuel :
  holds h t tr -> (length h < fuel)%nat ->
  (depth tr < fuel)%nat /\ (length (nodes None tr) < fuel)%nat.
Proof.
  intros Hh Hf. pose proof Hh as (_ & Hr & Hnd & _). split.
  - pose proof (holds_depth _ _ _ Hh). lia.
  - rewrite length_nodes.
    assert (length (locs tr) <= length h)%nat; [|lia].
    apply NoDup_bounded_length; [done|]. intros x Hx. by eapply repr_locs_lt.
Qed.

Lemma InOrder_holds (h : heap) t (tr : tree) fuel :
  holds h t tr -> (length h < fuel)%nat ->
  InOrder fuel t all h = Some (nodes None tr).
Proof.
  intros Hh Hf. destruct (holds_fuel _ _ _ _ Hh Hf) as [_ Hn].
  destruct Hh as (Hroot & Hr & _). unfold InOrder. rewrite Hroot.
  pose proof (InOrder_loop_repr h fuel None tr [] [] Hr) as E.
  cbn [pending fmap list_fmap] in E. rewrite app_nil_r in E. apply E; [constructor|done].
Qed.

Lemma Range_holds (h : heap) t (tr : tree) from to fuel :
  holds h t tr -> (length h < fuel)%nat ->
  Range fuel t from to all h = Some (List.filter (in_range from to) (nodes None tr)).
Proof.
  intros Hh Hf. destruct (holds_fuel _ _ _ _ Hh Hf) as [_ Hn].
  destruct Hh as (Hroot & Hr & _ & Hb & _). unfold Range. rewrite Hroot.
  pose proof (Range_loop_repr h from to fuel None tr [] [] Hr) as E.
  cbn [pending fmap list_fmap] in E. rewrite app_nil_r in E. apply E; [constructor| |done].
  by rewrite <- keys_nodes.
Qed.

Lemma Search_holds (h : heap) t (tr : tree) k fuel :
  holds h t tr -> (length h < fuel)%nat -> Search fuel t k h = Some (tfind k tr).
Proof.
  intros Hh Hf. destruct (holds_fuel _ _ _ _ Hh Hf) as [Hd _].
  destruct Hh as (Hroot & Hr & _). unfold Search. rewrite Hroot. by eapply Search_repr.
Qed.

Lemma Floor_holds (h : heap) t (tr : tree) k fuel :
  holds h t tr -> (length h < fuel)%nat -> Floor fuel t k h = Some (tfloor k tr None).
Proof.
  intros Hh Hf. destruct (holds_fuel _ _ _ _ Hh Hf) as [Hd _].
  destruct Hh as (Hroot & Hr & _). unfold Floor. rewrite Hroot. by eapply Floor_repr.
Qed.

Lemma Ceiling_holds (h : heap) t (tr : tree) k fuel :
  holds h t tr -> (length h < fuel)%nat -> Ceiling fuel t k h = Some (tceil k tr None).
Proof.
  intros Hh Hf. destruct (holds_fuel _ _ _ _ Hh Hf) as [Hd _].
  destruct Hh as (Hroot & Hr & _). unfold Ceiling. rewrite Hroot. by eapply Ceiling_repr.
Qed.

Lemma Higher_holds (h : heap) t (tr : tree) k fuel :
  holds h t tr -> (length h < fuel)%nat -> Higher fuel t k h = Some (thigher k tr None).
Proof.
  intros Hh Hf. destruct (holds_fuel _ _ _ _ Hh Hf) as [Hd _].
  destruct Hh as (Hroot & Hr & _). unfold Higher. rewrite Hroot. by eapply Higher_repr.
Qed.

Lemma Successor_holds (h : heap) t (tr : tree) k p fuel :
  holds h t tr -> (length h < fuel)%nat -> tfind k tr = Some p ->
  Successor fuel (Some p) h = Some (thigher k tr None).
Proof.
  intros Hh Hf Hfind. destruct (holds_fuel _ _ _ _ Hh Hf) as [Hd _].
  destruct Hh as (Hroot & Hr & Hnd & Hb & _).
  apply (Successor_sub k tr None None O h p fuel); try done; [|lia].
  intros f Hlt. destruct f; [lia|done].
Qed.

Lemma Rank_holds (h : heap) t (tr : tree) k fuel :
  holds h t tr -> (length h < fuel)%nat -> Rank fuel t k h = Some (below k (keys tr)).
Proof.
  intros Hh Hf. destruct (holds_fuel _ _ _ _ Hh Hf) as [Hd _].
  destruct Hh as (Hroot & Hr & _ & Hb & _). unfold Rank. rewrite Hroot.
  erewrite Rank_repr; [|done|done]. by rewrite trank_below.
Qed.

Lemma Kth_holds (h : heap) t (tr : tree) i fuel :
  holds h t tr -> (length h < fuel)%nat -> Kth fuel t i h = Some (tkth i tr).
Proof.
  intros Hh Hf. destruct (holds_fuel _ _ _ _ Hh Hf) as [Hd _].
  destruct Hh as (Hroot & Hr & _). unfold Kth. rewrite Hroot. by eapply Kth_repr.
Qed.

Lemma Len_holds (h : heap) t (tr : tree) : holds h t tr -> Len t h = Some (sz tr).
Proof. intros (Hroot & Hr & _). unfold Len. rewrite Hroot. by eapply repr_size_of. Qed.

End OnHolds.

(** * The specification *)

(** ** Sequences of operations, and the nodes of a tree in the store *)

Section Operations.
Context {K V : Type} `{Ordered K}.
Abbreviation Node := (Node K V).
Abbreviation heap := (list Node).
Abbreviation tree := (@tree K V).

(** A call of one of the operations that change a tree. *)
Inductive op : Type :=
  | OpInsert (k : K) (v : V)
  | OpDelete (k : K)
  | OpClear.

(** The call [o] on the tree [s.1] in the store [s.2]; the boolean the
    call returns is dropped. *)
Definition step (fuel : nat) (o : op) (s : Tree * heap) : option (Tree * heap) :=
  match o with
  | OpInsert k v => r ← Insert fuel s.1 k v s.2; Some (r.1.2, r.2)
  | OpDelete k => r ← Delete fuel s.1 k s.2; Some (r.1.2, r.2)
  | OpClear => Some (Clear s.1, s.2)
  end.

Fixpoint run (fuel : nat) (ops : list op) (s : Tree * heap) : option (Tree * heap) :=
  match ops with
  | [] => Some s
  | o :: ops => s' ← step fuel o s; run fuel ops s'
  end.

(** The nodes of the tree below a pointer: those reached by following
    [left] and [right]. *)
Inductive reachable (h : heap) : ptr -> loc -> Prop :=
  | reach_here p : reachable h (Some p) p
  | reach_left p n q :
      h !! p = Some n -> reachable h (left n) q -> reachable h (Some p) q
  | reach_right p n q :
      h !! p = Some n -> reachable h (right n) q -> reachable h (Some p) q.

(** [|height(left) - height(right)| <= 1] *)
Definition balanced (h : heap) (n : Node) : Prop :=
  Z.abs (hgt h (left n) - hgt h (right n)) <= 1.

(** [size(n) = 1 + size(left) + size(right)] *)
Definition sized (h : heap) (n : Node) : Prop :=
  size n = 1 + siz h (left n) + siz h (right n).

(** [height(n) = 1 + max(height(left), height(right))] *)
Definition heighted (h : heap) (n : Node) : Prop :=
  height n = 1 + Z.max (hgt h (left n)) (hgt h (right n)).

Definition child_of (n : Node) (c : loc) : Prop :=
  left n = Some c \/ right n = Some c.

Lemma run_holds fuel ops : forall t (h : heap) (tr : tree),
  holds h t tr -> (length h + length ops < fuel)%nat ->
  exists t' h' tr',
    run fuel ops (t, h) = Some (t', h') /\ holds h' t' tr'
    /\ (length h' <= length h + length ops)%nat.
Proof.
  induction ops as [|o ops IH]; intros t h tr Hh Hf; cbn [length] in Hf.
  { exists t, h, tr. cbn. split_and!; [done|done|lia]. }
  destruct o as [k v|k|].
  - destruct (Insert_holds h t tr k v fuel Hh) as (h1 & t1 & E & Hh1 & Hlen); [lia|].
    assert (length h1 <= S (length h))%nat as Hle
      by (destruct (ins (length h) k v tr).2; lia).
    destruct (IH t1 h1 _ Hh1) as (t' & h' & tr' & Er & Hh' & Hl'); [lia|].
    exists t', h', tr'. cbn [run step fst snd]. rewrite E. cbn.
    split_and!; [done|done|]. cbn [length]. lia.
  - destruct (Delete_holds h t tr k fuel Hh) as (h1 & t1 & E & Hh1 & Hlen & _); [lia|].
    destruct (IH t1 h1 _ Hh1) as (t' & h' & tr' & Er & Hh' & Hl'); [lia|].
    exists t', h', tr'. cbn [run step fst snd]. rewrite E. cbn.
    split_and!; [done|done|]. cbn [length]. lia.
  - destruct (IH (Clear t) h _ (holds_Clear h t)) as (t' & h' & tr' & Er & Hh' & Hl'); [lia|].
    exists t', h', tr'. cbn [run step fst snd mbind option_bind].
    split_and!; [done|done|]. cbn [length]. lia.
Qed.

(** Every tree the operations build from the empty tree is well-formed. *)
Lemma run_wf fuel ops (h0 : heap) :
  (length h0 + length ops < fuel)%nat ->
  exists t h, run fuel ops (New, h0) = Some (t, h) /\ wf h t.
Proof.
  intros Hf.
  destruct (run_holds fuel ops New h0 Leaf (holds_New h0) Hf) as (t & h & tr & E & Hh & _).
  exists t, h. split; [done|by exists tr].
Qed.

Lemma repr_reachable (h : heap) (t : tree) : forall par q,
  repr h par t -> reachable h (root_of t) q -> q ∈ locs t.
Proof.
  induction t as [|l IHl p k v r IHr]; intros par q Hr Hq; cbn in *.
  { inversion Hq. }
  destruct Hr as (Hp & Hl & Hrr).
  rewrite elem_of_app, elem_of_cons.
  inversion Hq as [|? n ? Hn Hc|? n ? Hn Hc]; subst.
  - right; by left.
  - rewrite Hp in Hn. injection Hn as <-. cbn in Hc. left. by eapply IHl.
  - rewrite Hp in Hn. injection Hn as <-. cbn in Hc. right; right. by eapply IHr.
Qed.

(** Every node of a tree the store holds is the root of a subtree the
    store holds. *)
Lemma repr_at (h : heap) (t : tree) : forall par q,
  repr h par t -> avl t -> q ∈ locs t ->
  exists par' l k v r,
    h !! q = Some (node_of par' l k v r)
    /\ repr h (Some q) l /\ repr h (Some q) r /\ -1 <= ht l - ht r <= 1.
Proof.
  induction t as [|l IHl p k v r IHr]; intros par q Hr Ha Hq; cbn in *.
  { by apply elem_of_nil in Hq. }
  destruct Hr as (Hp & Hl & Hrr). destruct Ha as (Hal & Har & Hb).
  apply elem_of_app in Hq as [Hq|Hq]; [by eapply IHl|].
  apply elem_of_cons in Hq as [->|Hq]; [|by eapply IHr].
  by exists par, l, k, v, r.
Qed.

Lemma repr_node_ok (h : heap) par (t : tree) q :
  repr h par t -> avl t -> q ∈ locs t ->
  exists n, h !! q = Some n /\ balanced h n /\ sized h n /\ heighted h n.
Proof.
  intros Hr Ha Hq.
  destruct (repr_at h t par q Hr Ha Hq) as (par' & l & k & v & r & Hn & Hl & Hrr & Hb).
  eexists; split; [exact Hn|].
  unfold balanced, sized, heighted; cbn.
  rewrite !(repr_hgt _ _ _ Hl), !(repr_hgt _ _ _ Hrr),
    !(repr_siz _ _ _ Hl), !(repr_siz _ _ _ Hrr).
  split_and!; lia.
Qed.

Lemma repr_root_parent (h : heap) par (t : tree) c :
  repr h par t -> root_of t = Some c -> exists m, h !! c = Some m /\ parent m = par.
Proof.
  destruct t as [|l p k v r]; cbn; [done|]. intros (Hp & _) [= ->]. eauto.
Qed.

Lemma repr_child_parent (h : heap) par (t : tree) q n c :
  repr h par t -> avl t -> q ∈ locs t -> h !! q = Some n -> child_of n c ->
  exists m, h !! c = Some m /\ parent m = Some q.
Proof.
  intros Hr Ha Hq Hn Hc.
  destruct (repr_at h t par q Hr Ha Hq) as (par' & l & k & v & r & Hn' & Hl & Hrr & _).
  rewrite Hn in Hn'. injection Hn' as ->.
  destruct Hc as [Hc|Hc]; cbn in Hc.
  - exact (repr_root_parent h (Some q) l c Hl Hc).
  - exact (repr_root_parent h (Some q) r c Hrr Hc).
Qed.

(** Two stores that hold the same tree agree on its nodes. *)
Lemma repr_agree (h h' : heap) (t : tree) : forall par q,
  repr h par t -> repr h' par t -> q ∈ locs t -> h' !! q = h !! q.
Proof.
  induction t as [|l IHl p k v r IHr]; intros par q Hr Hr' Hq; cbn in *.
  { by apply elem_of_nil in Hq. }
  destruct Hr as (Hp & Hl & Hrr). destruct Hr' as (Hp' & Hl' & Hrr').
  apply elem_of_app in Hq as [Hq|Hq]; [by eapply IHl|].
  apply elem_of_cons in Hq as [->|Hq]; [|by eapply IHr].
  by rewrite Hp, Hp'.
Qed.

Lemma below_filter k (l : list K) :
  below k l = Z.of_nat (length (List.filter (fun x => less x k) l)).
Proof.
  induction l as [|x l IH]; [done|]. cbn [below List.filter].
  destruct (less x k); cbn [length]; lia.
Qed.

Lemma filter_fmap_key (f : K -> bool) (ns : list Node) :
  List.filter f (key <$> ns) = key <$> List.filter (fun n => f (key n)) ns.
Proof.
  induction ns as [|n ns IH]; [done|]. cbn [fmap list_fmap List.filter].
  destruct (f (key n)); cbn [fmap list_fmap]; by rewrite <- IH.
Qed.

End Operations.

(** ** The properties of the specification *)

Section Specification.
Context {K V : Type} `{Ordered K}.
Abbreviation Node := (Node K V).
Abbreviation heap := (list Node).
Abbreviation tree := (@tree K V).

(** C1. Invariant preservation: run any sequence of [Insert] and [Delete]
    calls (and [Clear] calls) on the empty tree, with fuel above the number
    of nodes the store can come to hold.  The sequence returns, every node
    of the resulting tree is balanced and has the size and the height its
    children give it, and the in-order traversal yields the keys in strictly
    ascending order.  The sequence is arbitrary, so this holds after each
    of its calls. *)
Theorem invariants_preserved (ops : list (@op K V)) fuel (h0 : heap) :
  (length h0 + length ops < fuel)%nat ->
  exists t h ns,
    run fuel ops (New, h0) = Some (t, h)
    /\ (forall q, reachable h (Root t) q ->
          exists n, h !! q = Some n /\ balanced h n /\ sized h n /\ heighted h n)
    /\ InOrder fuel t all h = Some ns
    /\ sorted (key <$> ns).
Proof.
  intros Hf.
  destruct (run_holds fuel ops New h0 Leaf (holds_New h0) Hf) as (t & h & tr & E & Hh & Hl).
  exists t, h, (nodes None tr). split; [done|].
  pose proof Hh as (Hroot & Hr & Hnd & Hb & Ha).
  split_and!.
  - intros q Hq. rewrite Hroot in Hq.
    eapply repr_node_ok; [done..|]. by eapply repr_reachable.
  - apply (InOrder_holds _ _ _ _ Hh). lia.
  - by rewrite <- keys_nodes.
Qed.

(** C2. Round trip: on a well-formed tree, [Search] for [k] after
    [Insert k v] finds a node with the key [k] and the value [v]; [Search]
    for [k] after [Delete k] finds nothing. *)
Theorem insert_delete_search (h : heap) t k v fuel :
  wf h t -> (length h + 1 < fuel)%nat ->
  (exists b t' h' p n,
     Insert fuel t k v h = Some ((b, t'), h')
     /\ Search fuel t' k h' = Some (Some p)
     /\ h' !! p = Some n /\ key n = k /\ value n = v)
  /\ (exists b t' h',
        Delete fuel t k h = Some ((b, t'), h')
        /\ Search fuel t' k h' = Some None).
Proof.
  intros [tr Hh] Hf. pose proof Hh as (_ & _ & _ & Hb & _). split.
  - destruct (Insert_holds h t tr k v fuel Hh) as (h' & t' & E & Hh' & Hlen); [lia|].
    assert (length h' < fuel)%nat as Hf'
      by (destruct (ins (length h) k v tr).2; lia).
    destruct (ins_spec (length h) k v tr Hb) as (Hb' & Hkv & _).
    assert ((k, v) ∈ kvs (ins (length h) k v tr).1) as Hin by (apply Hkv; by left).
    destruct (tfind k (ins (length h) k v tr).1) as [p|] eqn:Hfind.
    + destruct (tfind_Some _ _ _ Hfind) as (v' & Hin' & Hn).
      destruct Hh' as (Hroot' & Hr' & Hrest).
      destruct (Hn h' None Hr') as (n & Hp & Hk & Hv).
      exists (ins (length h) k v tr).2, t', h', p, n.
      split_and!; [done| |done|done|].
      * rewrite <- Hfind. apply Search_holds; [|done]. by split.
      * rewrite Hv. by eapply bst_unique.
    + apply tfind_None in Hfind; [|done]. destruct Hfind. by eapply elem_kvs_keys.
  - destruct (Delete_holds h t tr k fuel Hh) as (h' & t' & E & Hh' & Hlen & _); [lia|].
    exists (del k tr).2, t', h'. split; [done|].
    rewrite (Search_holds _ _ _ _ _ Hh') by lia. f_equal.
    destruct (del_spec tr k Hb) as (Hb' & Hkv & _).
    apply tfind_None; [done|]. intros [v' Hin]%elem_keys_kvs.
    apply Hkv in Hin as [Hne _]. by apply Hne.
Qed.

(** C3. [Rank] on a well-formed tree returns the number of keys of the tree
    (the keys the in-order traversal yields) that are strictly less than
    the given key, whether or not the key is in the tree. *)
Theorem Rank_counts_smaller (h : heap) t k fuel :
  wf h t -> (length h < fuel)%nat ->
  exists ns,
    InOrder fuel t all h = Some ns
    /\ Rank fuel t k h
       = Some (Z.of_nat (length (List.filter (fun n => less (key n) k) ns))).
Proof.
  intros [tr Hh] Hf. exists (nodes None tr). split; [by apply InOrder_holds|].
  rewrite (Rank_holds _ _ _ _ _ Hh Hf), below_filter, (keys_nodes None).
  by rewrite filter_fmap_key, length_fmap.
Qed.

(** C4. [Kth] on a well-formed tree: for [0 <= i < Len] it finds the node
    at position [i] of the in-order traversal; for every other [i],
    negative or at least [Len], it finds nothing. *)
Theorem Kth_position (h : heap) t i fuel :
  wf h t -> (length h < fuel)%nat ->
  exists ns len,
    InOrder fuel t all h = Some ns
    /\ Len t h = Some len
    /\ len = Z.of_nat (length ns)
    /\ (0 <= i < len ->
        exists p n, Kth fuel t i h = Some (Some p)
                    /\ h !! p = Some n /\ ns !! Z.to_nat i = Some n)
    /\ (~ (0 <= i < len) -> Kth fuel t i h = Some None).
Proof.
  intros [tr Hh] Hf. exists (nodes None tr), (sz tr).
  pose proof Hh as (_ & Hr & _).
  destruct (tkth_spec tr i) as [Hin Hout].
  split_and!.
  - by apply InOrder_holds.
  - by eapply Len_holds.
  - by rewrite sz_length, length_nodes.
  - intros Hi. specialize (Hin Hi).
    destruct (lookup_lt_is_Some_2 (locs tr) (Z.to_nat i)) as [p Hp].
    { rewrite sz_length in Hi. lia. }
    destruct (Forall2_lookup_l _ _ _ _ _ (repr_nodes h None tr Hr) Hp) as (n & Hn & Hhp).
    exists p, n. split_and!; [|done|done].
    rewrite (Kth_holds _ _ _ _ _ Hh Hf). by rewrite Hin, Hp.
  - intros Hi. rewrite (Kth_holds _ _ _ _ _ Hh Hf). by rewrite Hout.
Qed.

(** C5. [Range from to] on a well-formed tree yields the entries of the
    in-order traversal whose key [k] has [from <= k < to], in the order of
    the traversal. *)
Theorem Range_filters_InOrder (h : heap) t from to fuel :
  wf h t -> (length h < fuel)%nat ->
  exists ns,
    InOrder fuel t all h = Some ns
    /\ Range fuel t from to all h = Some (List.filter (in_range from to) ns).
Proof.
  intros [tr Hh] Hf. exists (nodes None tr).
  split; [by apply InOrder_holds|by apply Range_holds].
Qed.

(** C6. Back-references: after any sequence of [Insert], [Delete] and
    [Clear] calls on the empty tree (the other operations change no node),
    every child of every node of the tree has that node for its parent, and
    the root has no parent; the sequence may end in a [Delete]. *)
Theorem parents_consistent (ops : list (@op K V)) fuel (h0 : heap) :
  (length h0 + length ops < fuel)%nat ->
  exists t h,
    run fuel ops (New, h0) = Some (t, h)
    /\ (forall q n c, reachable h (Root t) q -> h !! q = Some n -> child_of n c ->
          exists m, h !! c = Some m /\ parent m = Some q)
    /\ (forall p, Root t = Some p -> exists n, h !! p = Some n /\ parent n = None).
Proof.
  intros Hf.
  destruct (run_holds fuel ops New h0 Leaf (holds_New h0) Hf) as (t & h & tr & E & Hh & Hl).
  exists t, h. split; [done|].
  destruct Hh as (Hroot & Hr & Hnd & Hb & Ha). rewrite Hroot. split.
  - intros q n c Hq Hn Hc.
    eapply repr_child_parent; [done|done| |done|done]. by eapply repr_reachable.
  - intros p Hp. by eapply repr_root_parent.
Qed.

(** C7, as amended. On a well-formed tree, [Insert k v1] returns [true]
    exactly when [k] is not yet in the tree (a [Search] for it finds
    nothing); the following [Insert k v2] returns [false], after it
    [Search] for [k] finds a node with the value [v2], and [Len] is what it
    was after the first call. *)
Theorem insert_overwrites (h : heap) t k v1 v2 fuel :
  wf h t -> (length h + 1 < fuel)%nat ->
  exists b1 t1 h1 t2 h2 p n len,
    Insert fuel t k v1 h = Some ((b1, t1), h1)
    /\ (b1 = true <-> Search fuel t k h = Some None)
    /\ Insert fuel t1 k v2 h1 = Some ((false, t2), h2)
    /\ Search fuel t2 k h2 = Some (Some p)
    /\ h2 !! p = Some n /\ key n = k /\ value n = v2
    /\ Len t1 h1 = Some len /\ Len t2 h2 = Some len.
Proof.
  intros [tr Hh] Hf. pose proof Hh as (_ & _ & _ & Hb & _).
  destruct (Insert_holds h t tr k v1 fuel Hh) as (h1 & t1 & E1 & Hh1 & Hlen1); [lia|].
  assert (length h1 < fuel)%nat as Hf1
    by (destruct (ins (length h) k v1 tr).2; lia).
  destruct (ins_spec (length h) k v1 tr Hb) as (Hb1 & Hkv1 & Hres1).
  set (tr1 := (ins (length h) k v1 tr).1) in *.
  assert (k ∈ keys tr1) as Hk1 by (eapply elem_kvs_keys, Hkv1; by left).
  destruct (Insert_holds h1 t1 tr1 k v2 fuel Hh1 Hf1) as (h2 & t2 & E2 & Hh2 & Hlen2).
  destruct (ins_spec (length h1) k v2 tr1 Hb1) as (Hb2 & Hkv2 & Hres2).
  pose proof (sz_ins (length h1) k v2 tr1) as Hsz.
  destruct (ins (length h1) k v2 tr1) as [tr2 b2]; cbn [fst snd] in *.
  destruct b2; [by apply Hres2 in Hk1|]. clear Hres2.
  assert ((k, v2) ∈ kvs tr2) as Hin by (apply Hkv2; by left).
  destruct (tfind k tr2) as [p|] eqn:Hfind.
  2: { apply tfind_None in Hfind; [|done]. destruct Hfind. by eapply elem_kvs_keys. }
  destruct (tfind_Some _ _ _ Hfind) as (v' & Hin' & Hn).
  pose proof Hh2 as (_ & Hr2 & _).
  destruct (Hn h2 None Hr2) as (n & Hp & Hk & Hv).
  exists (ins (length h) k v1 tr).2, t1, h1, t2, h2, p, n, (sz tr1).
  split_and!; try done.
  - rewrite (Search_holds _ _ _ _ _ Hh) by lia. rewrite Hres1, <- tfind_None by done.
    split; [by intros ->|by intros [= ->]].
  - rewrite <- Hfind. apply Search_holds; [done|lia].
  - rewrite Hv. by eapply bst_unique.
  - by eapply Len_holds.
  - rewrite <- Hsz. by eapply Len_holds.
Qed.

(** C8. Navigation: for a key [k] of a well-formed tree, [Search], [Floor]
    and [Ceiling] return the same node, and [Higher k] returns what
    [Successor] returns for that node: the same node when both find one,
    and nothing when either finds nothing. *)
Theorem navigation_consistent (h : heap) t k fuel ns :
  wf h t -> (length h < fuel)%nat ->
  InOrder fuel t all h = Some ns -> k ∈ key <$> ns ->
  exists p s,
    Search fuel t k h = Some (Some p)
    /\ Floor fuel t k h = Some (Some p)
    /\ Ceiling fuel t k h = Some (Some p)
    /\ Higher fuel t k h = Some s
    /\ Successor fuel (Some p) h = Some s.
Proof.
  intros [tr Hh] Hf Hns Hk. pose proof Hh as (_ & _ & _ & Hb & _).
  rewrite (InOrder_holds _ _ _ _ Hh Hf) in Hns. injection Hns as <-.
  rewrite <- keys_nodes in Hk.
  destruct (tfind k tr) as [p|] eqn:Hfind.
  2: { apply tfind_None in Hfind; done. }
  exists p, (thigher k tr None). split_and!.
  - by rewrite (Search_holds _ _ _ _ _ Hh Hf), Hfind.
  - by rewrite (Floor_holds _ _ _ _ _ Hh Hf), tfloor_present, Hfind.
  - by rewrite (Ceiling_holds _ _ _ _ _ Hh Hf), tceil_present, Hfind.
  - by apply Higher_holds.
  - by eapply Successor_holds.
Qed.

(** C9. [Delete] of a key that is not in a well-formed tree returns [false]
    and changes nothing: the root and the whole store, so every key, value
    and link, are what they were. *)
Theorem Delete_absent_unchanged (h : heap) t k fuel ns :
  wf h t -> (length h < fuel)%nat ->
  InOrder fuel t all h = Some ns -> k ∉ key <$> ns ->
  Delete fuel t k h = Some ((false, t), h).
Proof.
  intros [tr Hh] Hf Hns Hk. pose proof Hh as (Hroot & Hr & _ & Hb & Ha).
  rewrite (InOrder_holds _ _ _ _ Hh Hf) in Hns. injection Hns as <-.
  rewrite <- keys_nodes in Hk.
  destruct (Delete_holds h t tr k fuel Hh Hf) as (h' & t' & E & Hh' & Hlen & Hup).
  rewrite (del_absent tr k Hb Ha Hk) in *. cbn [fst snd] in *.
  destruct Hh' as (Hroot' & Hr' & _).
  assert (t' = t) as ->.
  { destruct t, t'; cbn in *. congruence. }
  assert (h' = h) as ->; [|done].
  apply list_eq. intros q.
  destruct (decide (q ∈ locs tr)) as [Hq|Hq]; [by eapply repr_agree|by apply Hup].
Qed.

(** C10. On a well-formed tree, [Insert] returns [true] exactly when [Len]
    grows by one and [false] exactly when [Len] stays; [Delete] returns
    [true] exactly when [Len] shrinks by one and [false] exactly when [Len]
    stays. *)
Theorem Len_tracks_result (h : heap) t k v fuel :
  wf h t -> (length h < fuel)%nat ->
  exists len,
    Len t h = Some len
    /\ (exists b t' h' len',
          Insert fuel t k v h = Some ((b, t'), h') /\ Len t' h' = Some len'
          /\ (b = true <-> len' = len + 1) /\ (b = false <-> len' = len))
    /\ (exists b t' h' len',
          Delete fuel t k h = Some ((b, t'), h') /\ Len t' h' = Some len'
          /\ (b = true <-> len' = len - 1) /\ (b = false <-> len' = len)).
Proof.
  intros [tr Hh] Hf. pose proof Hh as (_ & _ & _ & Hb & _).
  exists (sz tr). split; [by eapply Len_holds|]. split.
  - destruct (Insert_holds h t tr k v fuel Hh Hf) as (h' & t' & E & Hh' & _).
    pose proof (sz_ins (length h) k v tr) as Hsz.
    exists (ins (length h) k v tr).2, t', h', (sz (ins (length h) k v tr).1).
    split; [done|]. split; [by eapply Len_holds|].
    destruct (ins (length h) k v tr).2; split; split; (done || lia).
  - destruct (Delete_holds h t tr k fuel Hh Hf) as (h' & t' & E & Hh' & _).
    pose proof (sz_del tr k Hb) as Hsz.
    exists (del k tr).2, t', h', (sz (del k tr).1).
    split; [done|]. split; [by eapply Len_holds|].
    destruct (del k tr).2; split; split; (done || lia).
Qed.

End Specification.

(** ** The specification on a tree of three keys *)

(** The store and the tree that [Insert] of 20, 10 and 30 into the empty
    tree leaves, with the shape it has. *)
Definition ex_heap : list (Node Z Z) :=
  [ mkNode 20 200 2 3 (Some 1%nat) (Some 2%nat) None;
    mkNode 10 100 1 1 None None (Some 0%nat);
    mkNode 30 300 1 1 None None (Some 0%nat) ].

Definition ex_tree : Tree := mkTree (Some 0%nat).

Definition ex_shape : @tree Z Z :=
  Br (Br Leaf 1 10 100 Leaf) 0 20 200 (Br Leaf 2 30 300 Leaf).

Definition ex_ops : list (@op Z Z) :=
  [OpInsert 20 200; OpInsert 10 100; OpInsert 30 300; OpDelete 20].

Lemma ex_built :
  run 8 [OpInsert 20 200; OpInsert 10 100; OpInsert 30 300] (New, []) = Some (ex_tree, ex_heap).
Proof. vm_compute. reflexivity. Qed.

Ltac decide_it := apply (bool_decide_unpack _); vm_compute; exact I.

Ltac ex_wf :=
  exists ex_shape; unfold holds, ex_shape, ex_heap, ex_tree; split_and!;
  [ reflexivity
  | cbn; repeat split; reflexivity
  | decide_it
  | cbn; repeat split; repeat constructor
  | cbn; lia ].

Lemma invariants_preserved_witness :
  (length (@nil (Node Z Z)) + length ex_ops < 8)%nat
  /\ exists t h ns,
       run 8 ex_ops (New, []) = Some (t, h)
       /\ (forall q, reachable h (Root t) q ->
             exists n, h !! q = Some n /\ balanced h n /\ sized h n /\ heighted h n)
       /\ InOrder 8 t all h = Some ns
       /\ sorted (key <$> ns).
Proof.
  split; [cbn; lia|]. apply (invariants_preserved ex_ops 8 []). cbn; lia.
Defined.

Lemma insert_delete_search_witness :
  wf ex_heap ex_tree /\ (length ex_heap + 1 < 8)%nat
  /\ (exists b t' h' p n,
        Insert 8 ex_tree 20 250 ex_heap = Some ((b, t'), h')
        /\ Search 8 t' 20 h' = Some (Some p)
        /\ h' !! p = Some n /\ key n = 20 /\ value n = 250)
  /\ (exists b t' h',
        Delete 8 ex_tree 20 ex_heap = Some ((b, t'), h')
        /\ Search 8 t' 20 h' = Some None).
Proof.
  split; [ex_wf|]. split; [cbn; lia|].
  apply (insert_delete_search ex_heap ex_tree 20 250 8); [ex_wf|cbn; lia].
Defined.

Lemma Rank_counts_smaller_witness :
  wf ex_heap ex_tree /\ (length ex_heap < 8)%nat
  /\ exists ns,
       InOrder 8 ex_tree all ex_heap = Some ns
       /\ Rank 8 ex_tree 25 ex_heap
          = Some (Z.of_nat (length (List.filter (fun n => less (key n) 25) ns))).
Proof.
  split; [ex_wf|]. split; [cbn; lia|].
  apply (Rank_counts_smaller ex_heap ex_tree 25 8); [ex_wf|cbn; lia].
Defined.

Lemma Kth_position_witness :
  wf ex_heap ex_tree /\ (length ex_heap < 8)%nat
  /\ exists ns len,
       InOrder 8 ex_tree all ex_heap = Some ns
       /\ Len ex_tree ex_heap = Some len
       /\ len = Z.of_nat (length ns)
       /\ (0 <= 2 < len ->
           exists p n, Kth 8 ex_tree 2 ex_heap = Some (Some p)
                       /\ ex_heap !! p = Some n /\ ns !! Z.to_nat 2 = Some n)
       /\ (~ (0 <= 2 < len) -> Kth 8 ex_tree 2 ex_heap = Some None).
Proof.
  split; [ex_wf|]. split; [cbn; lia|].
  apply (Kth_position ex_heap ex_tree 2 8); [ex_wf|cbn; lia].
Defined.

Lemma Range_filters_InOrder_witness :
  wf ex_heap ex_tree /\ (length ex_heap < 8)%nat
  /\ exists ns,
       InOrder 8 ex_tree all ex_heap = Some ns
       /\ Range 8 ex_tree 10 30 all ex_heap = Some (List.filter (in_range 10 30) ns).
Proof.
  split; [ex_wf|]. split; [cbn; lia|].
  apply (Range_filters_InOrder ex_heap ex_tree 10 30 8); [ex_wf|cbn; lia].
Defined.

Lemma parents_consistent_witness :
  (length (@nil (Node Z Z)) + length ex_ops < 8)%nat
  /\ exists t h,
       run 8 ex_ops (New, []) = Some (t, h)
       /\ (forall q n c, reachable h (Root t) q -> h !! q = Some n -> child_of n c ->
             exists m, h !! c = Some m /\ parent m = Some q)
       /\ (forall p, Root t = Some p -> exists n, h !! p = Some n /\ parent n = None).
Proof.
  split; [cbn; lia|]. apply (parents_consistent ex_ops 8 []). cbn; lia.
Defined.

(** C7, as stated, fails on a tree that already has the key: the first
    [Insert] of 20 into the tree of 10, 20 and 30 returns [false]. *)
Lemma insert_present_returns_false :
  wf ex_heap ex_tree
  /\ Insert 8 ex_tree 20 250 ex_heap
     = Some ((false, ex_tree), <[0%nat := mkNode 20 250 2 3 (Some 1%nat) (Some 2%nat) None]> ex_heap).
Proof. split; [ex_wf|]. vm_compute. reflexivity. Qed.

Lemma insert_overwrites_witness :
  wf ex_heap ex_tree /\ (length ex_heap + 1 < 8)%nat
  /\ exists b1 t1 h1 t2 h2 p n len,
       Insert 8 ex_tree 25 1 ex_heap = Some ((b1, t1), h1)
       /\ (b1 = true <-> Search 8 ex_tree 25 ex_heap = Some None)
       /\ Insert 8 t1 25 2 h1 = Some ((false, t2), h2)
       /\ Search 8 t2 25 h2 = Some (Some p)
       /\ h2 !! p = Some n /\ key n = 25 /\ value n = 2
       /\ Len t1 h1 = Some len /\ Len t2 h2 = Some len.
Proof.
  split; [ex_wf|]. split; [cbn; lia|].
  apply (insert_overwrites ex_heap ex_tree 25 1 2 8); [ex_wf|cbn; lia].
Defined.

Lemma navigation_consistent_witness :
  wf ex_heap ex_tree /\ (length ex_heap < 8)%nat
  /\ InOrder 8 ex_tree all ex_heap = Some (nodes None ex_shape)
  /\ (20 ∈ key <$> nodes None ex_shape)
  /\ exists p s,
       Search 8 ex_tree 20 ex_heap = Some (Some p)
       /\ Floor 8 ex_tree 20 ex_heap = Some (Some p)
       /\ Ceiling 8 ex_tree 20 ex_heap = Some (Some p)
       /\ Higher 8 ex_tree 20 ex_heap = Some s
       /\ Successor 8 (Some p) ex_heap = Some s.
Proof.
  split; [ex_wf|]. split; [cbn; lia|]. split; [vm_compute; reflexivity|].
  split; [decide_it|].
  apply (navigation_consistent ex_heap ex_tree 20 8 (nodes None ex_shape));
    [ex_wf|cbn; lia|vm_compute; reflexivity|decide_it].
Defined.

Lemma Delete_absent_unchanged_witness :
  wf ex_heap ex_tree /\ (length ex_heap < 8)%nat
  /\ InOrder 8 ex_tree all ex_heap = Some (nodes None ex_shape)
  /\ (25 ∉ key <$> nodes None ex_shape)
  /\ Delete 8 ex_tree 25 ex_heap = Some ((false, ex_tree), ex_heap).
Proof.
  split; [ex_wf|]. split; [cbn; lia|]. split; [vm_compute; reflexivity|].
  split; [decide_it|].
  apply (Delete_absent_unchanged ex_heap ex_tree 25 8 (nodes None ex_shape));
    [ex_wf|cbn; lia|vm_compute; reflexivity|decide_it].
Defined.

Lemma Len_tracks_result_witness :
  wf ex_heap ex_tree /\ (length ex_heap < 8)%nat
  /\ exists len,
       Len ex_tree ex_heap = Some len
       /\ (exists b t' h' len',
             Insert 8 ex_tree 25 250 ex_heap = Some ((b, t'), h')
             /\ Len t' h' = Some len'
             /\ (b = true <-> len' = len + 1) /\ (b = false <-> len' = len))
       /\ (exists b t' h' len',
             Delete 8 ex_tree 25 ex_heap = Some ((b, t'), h')
             /\ Len t' h' = Some len'
             /\ (b = true <-> len' = len - 1) /\ (b = false <-> len' = len)).
Proof.
  split; [ex_wf|]. split; [cbn; lia|].
  apply (Len_tracks_result ex_heap ex_tree 25 250 8); [ex_wf|cbn; lia].
Defined.

(** * Further properties of the code *)

(** ** The nodes of a tree with their addresses, in order *)

Section Entries.
Context {K V : Type} `{Ordered K}.
Abbreviation Node := (Node K V).
Abbreviation heap := (list Node).
Abbreviation tree := (@tree K V).

Fixpoint entries (par : ptr) (t : tree) : list (loc * Node) :=
  match t with
  | Leaf => []
  | Br l p k v r => entries (Some p) l ++ (p, node_of par l k v r) :: entries (Some p) r
  end.

Lemma entries_locs par (t : tree) : (entries par t).*1 = locs t.
Proof.
  revert par. induction t as [|l IHl p k v r IHr]; intros par; [done|].
  cbn [entries locs]. by rewrite fmap_app, fmap_cons, IHl, IHr.
Qed.

Lemma entries_nodes par (t : tree) : (entries par t).*2 = nodes par t.
Proof.
  revert par. induction t as [|l IHl p k v r IHr]; intros par; [done|].
  cbn [entries nodes]. by rewrite fmap_app, fmap_cons, IHl, IHr.
Qed.

Lemma entries_keys par (t : tree) : (fun e => key e.2) <$> entries par t = keys t.
Proof.
  rewrite (keys_nodes par), <- entries_nodes, <- list_fmap_compose. done.
Qed.

Lemma elem_entries_keys par (t : tree) e : e ∈ entries par t -> key e.2 ∈ keys t.
Proof.
  intros He. rewrite <- (entries_keys par). apply list_elem_of_fmap. by exists e.
Qed.

Lemma repr_entries (h : heap) (t : tree) : forall par e,
  repr h par t -> e ∈ entries par t -> h !! e.1 = Some e.2.
Proof.
  induction t as [|l IHl p k v r IHr]; intros par e Hr He; cbn in *.
  { by apply elem_of_nil in He. }
  destruct Hr as (Hp & Rl & Rr).
  apply elem_of_app in He as [He|He]; [by eapply IHl|].
  apply elem_of_cons in He as [->|He]; [done|by eapply IHr].
Qed.

Lemma elem_nodes_entries par (t : tree) n :
  n ∈ nodes par t -> exists p, (p, n) ∈ entries par t.
Proof.
  rewrite <- entries_nodes. intros ([p n'] & -> & He)%list_elem_of_fmap. by exists p.
Qed.

Lemma elem_locs_entries par (t : tree) p :
  p ∈ locs t -> exists n, (p, n) ∈ entries par t.
Proof.
  rewrite <- (entries_locs par). intros ([p' n] & -> & He)%list_elem_of_fmap. by exists n.
Qed.

(** [Search] finds the node of an entry by its key. *)
Lemma tfind_entry (t : tree) : forall par e,
  bst t -> e ∈ entries par t -> tfind (key e.2) t = Some e.1.
Proof.
  induction t as [|l IHl p k v r IHr]; intros par e HB He; cbn [entries] in He.
  { by apply elem_of_nil in He. }
  apply bst_Br in HB as (Bl & Brr & Hl & Hr). cbn [tfind].
  apply elem_of_app in He as [He|He]; [|apply elem_of_cons in He as [->|He]].
  - pose proof (Hl _ (elem_entries_keys _ _ _ He)) as Hlt.
    rewrite Hlt. by eapply IHl.
  - cbn. by rewrite !less_irrefl.
  - pose proof (Hr _ (elem_entries_keys _ _ _ He)) as Hlt.
    assert (less (key e.2) k = false) as -> by order.
    rewrite Hlt. by eapply IHr.
Qed.

(** The first, and the last, entry whose key passes a test; [res] when
    there is none. *)
Fixpoint first_from (f : K -> bool) (es : list (loc * Node)) (res : ptr) : ptr :=
  match es with
  | [] => res
  | e :: es' => if f (key e.2) then Some e.1 else first_from f es' res
  end.

Fixpoint last_from (f : K -> bool) (es : list (loc * Node)) (res : ptr) : ptr :=
  match es with
  | [] => res
  | e :: es' => last_from f es' (if f (key e.2) then Some e.1 else res)
  end.

Lemma first_from_app f es1 es2 res :
  first_from f (es1 ++ es2) res = first_from f es1 (first_from f es2 res).
Proof.
  induction es1 as [|e es1 IH]; [done|]. cbn [app first_from]. by rewrite IH.
Qed.

Lemma last_from_app f es1 es2 res :
  last_from f (es1 ++ es2) res = last_from f es2 (last_from f es1 res).
Proof.
  revert res. induction es1 as [|e es1 IH]; intros res; [done|].
  cbn [app last_from]. by rewrite IH.
Qed.

Lemma first_from_none f es res :
  (forall e, e ∈ es -> f (key e.2) = false) -> first_from f es res = res.
Proof.
  induction es as [|e es IH]; intros Hf; [done|]. cbn [first_from].
  rewrite (Hf e) by (apply elem_of_cons; by left).
  apply IH. intros e' He'. apply Hf, elem_of_cons. by right.
Qed.

Lemma last_from_none f es res :
  (forall e, e ∈ es -> f (key e.2) = false) -> last_from f es res = res.
Proof.
  revert res. induction es as [|e es IH]; intros res Hf; [done|]. cbn [last_from].
  rewrite (Hf e) by (apply elem_of_cons; by left).
  apply IH. intros e' He'. apply Hf, elem_of_cons. by right.
Qed.

Lemma first_from_cases f es res :
  (first_from f es res = res /\ forall e, e ∈ es -> f (key e.2) = false)
  \/ exists es1 e es2,
       es = es1 ++ e :: es2 /\ first_from f es res = Some e.1
       /\ f (key e.2) = true /\ forall e', e' ∈ es1 -> f (key e'.2) = false.
Proof.
  induction es as [|e es IH]; cbn [first_from].
  { left. split; [done|]. by intros e ?%elem_of_nil. }
  destruct (f (key e.2)) eqn:Ef.
  - right. exists [], e, es. split_and!; try done. by intros e' ?%elem_of_nil.
  - destruct IH as [[E Hn]|(es1 & e0 & es2 & -> & E & Ef0 & Hn)].
    + left. split; [done|]. intros e' [->|He']%elem_of_cons; [done|by apply Hn].
    + right. exists (e :: es1), e0, es2. split_and!; try done.
      intros e' [->|He']%elem_of_cons; [done|by apply Hn].
Qed.

Lemma last_from_cases f es : forall res,
  (last_from f es res = res /\ forall e, e ∈ es -> f (key e.2) = false)
  \/ exists es1 e es2,
       es = es1 ++ e :: es2 /\ last_from f es res = Some e.1
       /\ f (key e.2) = true /\ forall e', e' ∈ es2 -> f (key e'.2) = false.
Proof.
  induction es as [|e es IH] using rev_ind; intros res.
  { left. split; [done|]. by intros e ?%elem_of_nil. }
  rewrite last_from_app. cbn [last_from].
  destruct (f (key e.2)) eqn:Ef.
  - right. exists es, e, []. split_and!; try done. by intros e' ?%elem_of_nil.
  - destruct (IH res) as [[E Hn]|(es1 & e0 & es2 & -> & E & Ef0 & Hn)].
    + left. split; [done|].
      intros e' [He'|He']%elem_of_app; [by apply Hn|].
      by apply list_elem_of_singleton in He' as ->.
    + right. exists es1, e0, (es2 ++ [e]). split_and!; try done.
      * by rewrite <- app_assoc.
      * intros e' [He'|He']%elem_of_app; [by apply Hn|].
        by apply list_elem_of_singleton in He' as ->.
Qed.

End Entries.

(** ** The bounded queries as searches of the ordered sequence *)

Section Bounded.
Context {K V : Type} `{Ordered K}.
Abbreviation Node := (Node K V).
Abbreviation heap := (list Node).
Abbreviation tree := (@tree K V).

Fixpoint tlower (k : K) (t : tree) (res : ptr) : ptr :=
  match t with
  | Leaf => res
  | Br l p k' _ r =>
      if less k k' || equal k k' then tlower k l res
      else tlower k r (Some p)
  end.

Lemma Lower_repr k (t : tree) : forall fuel par res (h : heap),
  repr h par t -> (depth t < fuel)%nat ->
  Lower_loop fuel k (root_of t) res h = Some (tlower k t res).
Proof.
  induction t as [|l IHl p k' v' r IHr]; intros fuel par res h Hr Hf;
    (destruct fuel as [|fuel]; [lia|]); [done|].
  destruct Hr as (Hp & Rl & Rr). cbn [depth] in Hf.
  cbn [Lower_loop root_of tlower]. rewrite Hp. cbn [mbind option_bind node_of key left right].
  destruct (less k k' || equal k k'); [eapply IHl; [done|lia]|eapply IHr; [done|lia]].
Qed.

Lemma entries_below (t : tree) par k e :
  (forall y, y ∈ keys t -> klt y k) -> e ∈ entries par t -> klt (key e.2) k.
Proof. intros Hk He. by eapply Hk, elem_entries_keys. Qed.

Lemma entries_above (t : tree) par k e :
  (forall y, y ∈ keys t -> klt k y) -> e ∈ entries par t -> klt k (key e.2).
Proof. intros Hk He. by eapply Hk, elem_entries_keys. Qed.

Lemma tceil_first k (t : tree) : forall par res,
  bst t -> tceil k t res = first_from (fun y => negb (less y k)) (entries par t) res.
Proof.
  induction t as [|l IHl p k' v r IHr]; intros par res HB; [done|].
  apply bst_Br in HB as (Bl & Brr & Hl & Hr).
  cbn [tceil entries]. rewrite first_from_app. cbn [first_from snd fst node_of key].
  destruct (equal k k') eqn:Eeq.
  - apply equal_true in Eeq as <-. rewrite less_irrefl. cbn [negb].
    rewrite first_from_none; [done|].
    intros e He. pose proof (entries_below _ _ _ _ Hl He). apply negb_false_iff. order.
  - apply equal_false in Eeq. destruct (less k k') eqn:Elt.
    + assert (less k' k = false) as -> by order. cbn [negb]. by apply IHl.
    + assert (less k' k = true) as -> by order. cbn [negb].
      rewrite first_from_none; [by apply IHr|].
      intros e He. pose proof (entries_below _ _ _ _ Hl He). apply negb_false_iff. order.
Qed.

Lemma thigher_first k (t : tree) : forall par res,
  bst t -> thigher k t res = first_from (fun y => less k y) (entries par t) res.
Proof.
  induction t as [|l IHl p k' v r IHr]; intros par res HB; [done|].
  apply bst_Br in HB as (Bl & Brr & Hl & Hr).
  cbn [thigher entries]. rewrite first_from_app. cbn [first_from snd fst node_of key].
  destruct (less k k') eqn:Elt.
  - by apply IHl.
  - rewrite first_from_none; [by apply IHr|].
    intros e He. pose proof (entries_below _ _ _ _ Hl He). order.
Qed.

Lemma tfloor_last k (t : tree) : forall par res,
  bst t -> tfloor k t res = last_from (fun y => negb (less k y)) (entries par t) res.
Proof.
  induction t as [|l IHl p k' v r IHr]; intros par res HB; [done|].
  apply bst_Br in HB as (Bl & Brr & Hl & Hr).
  cbn [tfloor entries]. rewrite last_from_app. cbn [last_from snd fst node_of key].
  destruct (equal k k') eqn:Eeq.
  - apply equal_true in Eeq as <-. rewrite less_irrefl. cbn [negb].
    rewrite last_from_none; [done|].
    intros e He. pose proof (entries_above _ _ _ _ Hr He). apply negb_false_iff. order.
  - apply equal_false in Eeq. destruct (less k k') eqn:Elt; cbn [negb].
    + rewrite last_from_none; [by apply IHl|].
      intros e He. pose proof (entries_above _ _ _ _ Hr He). apply negb_false_iff. order.
    + by apply IHr.
Qed.

Lemma tlower_last k (t : tree) : forall par res,
  bst t -> tlower k t res = last_from (fun y => less y k) (entries par t) res.
Proof.
  induction t as [|l IHl p k' v r IHr]; intros par res HB; [done|].
  apply bst_Br in HB as (Bl & Brr & Hl & Hr).
  cbn [tlower entries]. rewrite last_from_app. cbn [last_from snd fst node_of key].
  destruct (less k k') eqn:Elt; cbn [orb].
  - assert (less k' k = false) as -> by order.
    rewrite last_from_none; [by apply IHl|].
    intros e He. pose proof (entries_above _ _ _ _ Hr He). order.
  - destruct (equal k k') eqn:Eeq.
    + apply equal_true in Eeq as <-. rewrite less_irrefl.
      rewrite last_from_none; [by apply IHl|].
      intros e He. pose proof (entries_above _ _ _ _ Hr He). order.
    + apply equal_false in Eeq. assert (less k' k = true) as -> by order.
      by apply IHr.
Qed.

(** In an ascending sequence the first entry that passes a test has the
    least key that passes it, and the last one the greatest. *)
Lemma first_from_least f par (t : tree) (h : heap) :
  repr h par t -> bst t ->
  match first_from f (entries par t) None with
  | Some p => exists n, h !! p = Some n /\ n ∈ nodes par t /\ f (key n) = true
                /\ forall m, m ∈ nodes par t -> f (key m) = true -> kle (key n) (key m)
  | None => forall m, m ∈ nodes par t -> f (key m) = false
  end.
Proof.
  intros Hr HB. unfold bst in HB. rewrite <- (entries_keys par) in HB.
  destruct (first_from_cases f (entries par t) None)
    as [[-> Hn]|(es1 & e & es2 & Ees & -> & Ef & Hn)].
  - intros m (p & Hm)%elem_nodes_entries. exact (Hn _ Hm).
  - exists e.2. split_and!; [|  |done|].
    + apply (repr_entries h t par e Hr). rewrite Ees. set_solver.
    + rewrite <- entries_nodes. apply list_elem_of_fmap. exists e. split; [done|].
      rewrite Ees. set_solver.
    + intros m (p & Hm)%elem_nodes_entries Hfm. rewrite Ees in Hm, HB.
      rewrite fmap_app, fmap_cons in HB. apply sorted_middle in HB as (_ & _ & _ & Hgt).
      apply elem_of_app in Hm as [Hm|Hm].
      { specialize (Hn _ Hm). cbn in Hn. congruence. }
      apply elem_of_cons in Hm as [<-|Hm]; [apply kle_refl|].
      apply klt_le. apply Hgt. apply list_elem_of_fmap. by exists (p, m).
Qed.

Lemma last_from_greatest f par (t : tree) (h : heap) :
  repr h par t -> bst t ->
  match last_from f (entries par t) None with
  | Some p => exists n, h !! p = Some n /\ n ∈ nodes par t /\ f (key n) = true
                /\ forall m, m ∈ nodes par t -> f (key m) = true -> kle (key m) (key n)
  | None => forall m, m ∈ nodes par t -> f (key m) = false
  end.
Proof.
  intros Hr HB. unfold bst in HB. rewrite <- (entries_keys par) in HB.
  destruct (last_from_cases f (entries par t) None)
    as [[-> Hn]|(es1 & e & es2 & Ees & -> & Ef & Hn)].
  - intros m (p & Hm)%elem_nodes_entries. exact (Hn _ Hm).
  - exists e.2. split_and!; [|  |done|].
    + apply (repr_entries h t par e Hr). rewrite Ees. set_solver.
    + rewrite <- entries_nodes. apply list_elem_of_fmap. exists e. split; [done|].
      rewrite Ees. set_solver.
    + intros m (p & Hm)%elem_nodes_entries Hfm. rewrite Ees in Hm, HB.
      rewrite fmap_app, fmap_cons in HB. apply sorted_middle in HB as (_ & _ & Hlt & _).
      apply elem_of_app in Hm as [Hm|Hm].
      { apply klt_le. apply Hlt. apply list_elem_of_fmap. by exists (p, m). }
      apply elem_of_cons in Hm as [<-|Hm]; [apply kle_refl|].
      specialize (Hn _ Hm). cbn in Hn. congruence.
Qed.

End Bounded.

(** ** The ends of the sequence, and the neighbours of a node *)

Section Neighbours.
Context {K V : Type} `{Ordered K}.
Abbreviation Node := (Node K V).
Abbreviation heap := (list Node).
Abbreviation tree := (@tree K V).

Lemma minNode_first (t : tree) : forall fuel par (h : heap),
  repr h par t -> (depth t <= fuel)%nat -> t <> Leaf ->
  minNode fuel (root_of t) h = Some (head (locs t)).
Proof.
  induction t as [|l IHl p k v r _]; intros fuel par h Hr Hf Hne; [done|].
  destruct Hr as (Hp & Rl & Rr). cbn [depth] in Hf.
  destruct fuel as [|fuel]; [lia|].
  cbn [minNode root_of deref locs]. rewrite Hp. cbn [mbind option_bind node_of left].
  assert (l = Leaf \/ l <> Leaf) as [->|Hl] by (destruct l; [by left|by right]); [done|].
  assert (not_nil (root_of l) = true) as -> by (by destruct l).
  rewrite (IHl fuel (Some p) h Rl) by (done || lia).
  f_equal. rewrite head_app. destruct (head (locs l)) eqn:E; [done|].
  apply head_None in E. destruct l; [done|]. cbn [locs] in E. by destruct (locs l1).
Qed.

Lemma maxNode_last (t : tree) : forall fuel par (h : heap),
  repr h par t -> (depth t <= fuel)%nat -> t <> Leaf ->
  maxNode fuel (root_of t) h = Some (last (locs t)).
Proof.
  induction t as [|l _ p k v r IHr]; intros fuel par h Hr Hf Hne; [done|].
  destruct Hr as (Hp & Rl & Rr). cbn [depth] in Hf.
  destruct fuel as [|fuel]; [lia|].
  cbn [maxNode root_of deref locs]. rewrite Hp. cbn [mbind option_bind node_of right].
  assert (r = Leaf \/ r <> Leaf) as [->|Hrn] by (destruct r; [by left|by right]).
  { cbn [root_of not_nil locs]. by rewrite last_snoc. }
  assert (not_nil (root_of r) = true) as -> by (by destruct r).
  rewrite (IHr fuel (Some p) h Rr) by (done || lia).
  f_equal. rewrite last_app, last_cons. destruct (last (locs r)) eqn:E; [done|].
  apply last_None in E. destruct r; [done|]. cbn [locs] in E. by destruct (locs r1).
Qed.

Lemma Min_holds (h : heap) t (tr : tree) fuel :
  holds h t tr -> (length h < fuel)%nat -> Min fuel t h = Some (head (locs tr)).
Proof.
  intros Hh Hf. pose proof (holds_depth _ _ _ Hh) as Hd.
  destruct Hh as (Hroot & Hr & _). unfold Min. rewrite Hroot.
  destruct tr as [|l p k v r]; [done|].
  cbn [is_nil not_nil root_of negb]. change (Some p) with (root_of (Br l p k v r)).
  eapply minNode_first; [done|lia|done].
Qed.

Lemma Max_holds (h : heap) t (tr : tree) fuel :
  holds h t tr -> (length h < fuel)%nat -> Max fuel t h = Some (last (locs tr)).
Proof.
  intros Hh Hf. pose proof (holds_depth _ _ _ Hh) as Hd.
  destruct Hh as (Hroot & Hr & _). unfold Max. rewrite Hroot.
  destruct tr as [|l p k v r]; [done|].
  cbn [is_nil not_nil root_of negb]. change (Some p) with (root_of (Br l p k v r)).
  eapply maxNode_last; [done|lia|done].
Qed.

(** In an ascending sequence, the first entry above the key of the one
    at [i] is the one at [i + 1], and the last entry below it the one at
    [i - 1]. *)
Lemma first_after (es : list (loc * Node)) i e res :
  sorted ((fun e => key e.2) <$> es) -> es !! i = Some e ->
  first_from (fun y => less (key e.2) y) es res
  = match es !! S i with Some e' => Some e'.1 | None => res end.
Proof.
  intros Hs Hi. rewrite <- (take_drop_middle es i e Hi) in Hs.
  rewrite <- (take_drop_middle es i e Hi) at 1.
  rewrite fmap_app, fmap_cons in Hs. apply sorted_middle in Hs as (_ & _ & Hlt & Hgt).
  rewrite first_from_app, first_from_none.
  2: { intros e' He'. assert (klt (key e'.2) (key e.2)); [|order].
       apply Hlt, list_elem_of_fmap. by exists e'. }
  cbn [first_from]. rewrite less_irrefl.
  pose proof (lookup_drop es (S i) 0) as Hd. rewrite Nat.add_0_r in Hd. rewrite <- Hd.
  destruct (drop (S i) es) as [|e' d]; [done|]. cbn [first_from lookup list_lookup].
  rewrite (Hgt (key e'.2)); [done|]. apply list_elem_of_fmap. exists e'. split; [done|].
  apply elem_of_cons. by left.
Qed.

Lemma last_before (es : list (loc * Node)) i e res :
  sorted ((fun e => key e.2) <$> es) -> es !! i = Some e ->
  last_from (fun y => less y (key e.2)) es res
  = match last (take i es) with Some e' => Some e'.1 | None => res end.
Proof.
  intros Hs Hi. rewrite <- (take_drop_middle es i e Hi) in Hs.
  rewrite <- (take_drop_middle es i e Hi) at 1.
  rewrite fmap_app, fmap_cons in Hs. apply sorted_middle in Hs as (_ & _ & Hlt & Hgt).
  rewrite last_from_app. cbn [last_from]. rewrite less_irrefl.
  rewrite last_from_none.
  2: { intros e' He'. assert (klt (key e.2) (key e'.2)); [|order].
       apply Hgt, list_elem_of_fmap. by exists e'. }
  clear Hgt Hi. revert Hlt. generalize (take i es). clear es.
  intros es. induction es as [|e' es IH] using rev_ind; intros Hlt; [done|].
  rewrite last_from_app, last_snoc. cbn [last_from].
  rewrite (Hlt (key e'.2)); [done|]. apply list_elem_of_fmap. exists e'. split; [done|].
  apply elem_of_app. right. by apply list_elem_of_singleton.
Qed.

(** Above every key of [t], [Lower] ends at the rightmost node of [t]. *)
Lemma tlower_below k (t : tree) : forall res,
  (forall y, y ∈ keys t -> klt y k) ->
  tlower k t res = match last (locs t) with Some q => Some q | None => res end.
Proof.
  induction t as [|l _ p k' v' r IHr]; intros res Hk; [done|].
  cbn [tlower locs].
  assert (klt k' k) as Hlt by (apply Hk, elem_keys_Br; right; by left).
  assert (less k k' = false) as -> by order.
  assert (equal k k' = false) as ->.
  { destruct (equal k k') eqn:E; [|done]. apply equal_true in E as ->.
    by apply klt_irrefl in Hlt. }
  cbn [orb]. rewrite IHr by (intros y Hy; apply Hk, elem_keys_Br; by right; right).
  rewrite last_app, last_cons. by destruct (last (locs r)).
Qed.

(** [Predecessor] of the node found for [k], against [Lower(k)]: within
    the subtree [t], given where the walk up the parents leads from the
    root of [t]. *)
Lemma Predecessor_sub k (t : tree) : forall par res a (h : heap) p fuel,
  repr h par t -> NoDup (locs t) -> bst t -> tfind k t = Some p ->
  (forall f, (a < f)%nat -> Predecessor_loop f (root_of t) par h = Some res) ->
  (depth t + a < fuel)%nat ->
  Predecessor fuel (Some p) h = Some (tlower k t res).
Proof.
  induction t as [|l IHl c k' v' r IHr]; intros par res a h p fuel Hr Hnd HB Hfind U Hf; [done|].
  pose proof Hr as (Hc & Rl & Rr). pose proof HB as (Bl & Brr & Hl & Hrk)%bst_Br.
  cbn [locs] in Hnd. nodup_split. cbn [depth] in Hf.
  cbn [tfind tlower] in *.
  destruct (less k k') eqn:Elt; [|destruct (less k' k) eqn:Egt].
  - cbn [orb]. apply (IHl (Some c) res (S a) h p fuel); try done; [|lia].
    intros f Hlt. destruct f as [|f]; [lia|].
    destruct (tfind_nonempty _ _ _ Hfind) as (lp & El).
    cbn [Predecessor_loop]. rewrite Hc. cbn [mbind option_bind node_of left parent].
    rewrite El. cbn [ptr_eqb]. rewrite Nat.eqb_refl. apply (U f). lia.
  - assert (equal k k' = false) as ->.
    { destruct (equal k k') eqn:E; [|done]. apply equal_true in E as ->.
      by rewrite less_irrefl in Egt. }
    cbn [orb]. apply (IHr (Some c) (Some c) O h p fuel); try done; [|lia].
    intros f Hlt. destruct f as [|f]; [lia|].
    destruct (tfind_nonempty _ _ _ Hfind) as (rp & Er).
    cbn [Predecessor_loop]. rewrite Hc. cbn [mbind option_bind node_of left].
    rewrite Er. assert (ptr_eqb (Some rp) (root_of l) = false) as ->; [|done].
    destruct (root_of l) as [lp|] eqn:El; [|done]. cbn [ptr_eqb].
    apply Nat.eqb_neq. intros ->.
    apply root_in_locs in El, Er. apply (H1 lp El). apply elem_of_cons. by right.
  - injection Hfind as <-. assert (k = k') as <- by order.
    rewrite equal_refl. cbn [orb].
    unfold Predecessor. cbn [deref]. rewrite Hc. cbn [mbind option_bind node_of left parent].
    destruct l as [|ll lp lk lv lr].
    + cbn [root_of not_nil tlower]. apply U. lia.
    + cbn [root_of not_nil].
      change (Some lp) with (root_of (Br ll lp lk lv lr)).
      rewrite (maxNode_last _ fuel (Some c) h Rl) by (done || lia).
      rewrite (tlower_below k (Br ll lp lk lv lr) res Hl).
      f_equal. destruct (last (locs (Br ll lp lk lv lr))) eqn:E; [done|].
      apply last_None in E. cbn [locs] in E. by destruct (locs ll).
Qed.

Lemma Lower_holds (h : heap) t (tr : tree) k fuel :
  holds h t tr -> (length h < fuel)%nat -> Lower fuel t k h = Some (tlower k tr None).
Proof.
  intros Hh Hf. pose proof (holds_depth _ _ _ Hh) as Hd.
  destruct Hh as (Hroot & Hr & _). unfold Lower. rewrite Hroot.
  eapply Lower_repr; [done|lia].
Qed.

(** The neighbours of the node at position [i] of the sequence. *)
Lemma Successor_entry (h : heap) t (tr : tree) fuel i e :
  holds h t tr -> (length h < fuel)%nat -> entries None tr !! i = Some e ->
  Successor fuel (Some e.1) h = Some (locs tr !! S i).
Proof.
  intros Hh Hf Hi. pose proof Hh as (_ & _ & _ & HB & _).
  pose proof (tfind_entry tr None e HB (list_elem_of_lookup_2 _ _ _ Hi)) as Hfind.
  rewrite (Successor_holds _ _ _ _ _ _ Hh Hf Hfind).
  rewrite (thigher_first _ _ None) by done.
  rewrite (first_after _ i e) by (by rewrite ?entries_keys).
  rewrite <- (entries_locs None), list_lookup_fmap.
  by destruct (entries None tr !! S i).
Qed.

Lemma Predecessor_entry (h : heap) t (tr : tree) fuel i e :
  holds h t tr -> (length h < fuel)%nat -> entries None tr !! i = Some e ->
  Predecessor fuel (Some e.1) h = Some (last (take i (locs tr))).
Proof.
  intros Hh Hf Hi. pose proof (holds_depth _ _ _ Hh) as Hd.
  pose proof Hh as (_ & Hr & Hnd & HB & _).
  pose proof (tfind_entry tr None e HB (list_elem_of_lookup_2 _ _ _ Hi)) as Hfind.
  rewrite (Predecessor_sub (key e.2) tr None None O h e.1 fuel); try done.
  - rewrite (tlower_last _ _ None) by done.
    rewrite (last_before _ i e) by (by rewrite ?entries_keys).
    rewrite <- (entries_locs None), <- fmap_take, fmap_last.
    by destruct (last (take i (entries None tr))).
  - intros f Hlt. destruct f; [lia|done].
  - lia.
Qed.

End Neighbours.

(** ** Iteration against a consumer that may stop *)

Section Consumers.
Context {K V : Type} `{Ordered K}.
Abbreviation Node := (Node K V).
Abbreviation heap := (list Node).
Abbreviation tree := (@tree K V).

(** What a consumer has been handed once the sequence [l] is offered to it
    node by node, after [seen]: it gets each node until it answers [false],
    that node included. *)
Fixpoint feed (yield : consumer) (seen l : list Node) : list Node :=
  match l with
  | [] => seen
  | n :: l' => if yield seen n then feed yield (seen ++ [n]) l' else seen ++ [n]
  end.

Lemma feed_prefix (yield : consumer) (l : list Node) : forall seen,
  exists l', feed yield seen l = seen ++ l' /\ l' `prefix_of` l.
Proof.
  induction l as [|n l IH]; intros seen; cbn [feed].
  { exists []. by rewrite app_nil_r. }
  destruct (yield seen n).
  - destruct (IH (seen ++ [n])) as (l' & -> & Hp). exists (n :: l').
    split; [by rewrite <- app_assoc|by apply prefix_cons].
  - exists [n]. split; [done|]. apply prefix_cons, prefix_nil.
Qed.

Lemma InOrder_loop_feed (h : heap) (yield : consumer) : forall fuel par (t : tree) G seen,
  repr h par t -> Forall (frame_ok h) G ->
  (length (nodes par t ++ pending G) < fuel)%nat ->
  InOrder_loop fuel yield seen (G.*1.*1) (root_of t) h
    = Some (feed yield seen (nodes par t ++ pending G)).
Proof.
  induction fuel as [|fuel IH]; intros par t G seen Hr HG Hf; [lia|].
  cbn [InOrder_loop].
  assert (Hd : (depth t < S fuel)%nat).
  { pose proof (depth_le_size t). rewrite length_app, length_nodes in Hf. lia. }
  rewrite (push_left_repr t (S fuel) par G h Hr Hd).
  pose proof (pending_spine par t G) as Hpe. pose proof (spine_ok h par t G Hr HG) as Hok.
  destruct (spine par t G) as [|[[c n] r] G2] eqn:Es.
  - cbn [pending] in Hpe. symmetry in Hpe. rewrite Hpe.
    apply app_eq_nil in Hpe as [Hn Hp]. apply pending_nil in Hp as ->.
    destruct t as [|l p k v r];
      [|cbn [nodes] in Hn; apply app_eq_nil in Hn as [_ Hn]; discriminate].
    done.
  - assert (is_nil (root_of t) && bool_decide (G.*1.*1 = []) = false) as ->.
    { destruct t; [|done]. cbn [spine] in Es. subst G. done. }
    cbn [fmap list_fmap mbind option_bind fst].
    apply Forall_cons in Hok as [(Hc & Hright & Hrr) Hok2]. cbn [fst snd] in *.
    rewrite Hc. cbn [mbind option_bind].
    rewrite <- Hpe in Hf |- *. cbn [pending fst snd length feed] in Hf |- *.
    destruct (yield seen n); [|done]. rewrite Hright.
    by rewrite (IH (Some c) r G2 (seen ++ [n]) Hrr Hok2) by lia.
Qed.

Lemma Range_loop_feed (h : heap) (yield : consumer) from to :
  forall fuel par (t : tree) G seen,
  repr h par t -> Forall (frame_ok h) G ->
  sorted (key <$> nodes par t ++ pending G) ->
  (length (nodes par t ++ pending G) < fuel)%nat ->
  Range_loop fuel from to yield seen (G.*1.*1) (root_of t) h
    = Some (feed yield seen (List.filter (in_range from to) (nodes par t ++ pending G))).
Proof.
  induction fuel as [|fuel IH]; intros par t G seen Hr HG Hs Hf; [lia|].
  cbn [Range_loop].
  assert (Hd : (depth t < S fuel)%nat).
  { pose proof (depth_le_size t). rewrite length_app, length_nodes in Hf. lia. }
  rewrite (push_left_repr t (S fuel) par G h Hr Hd).
  pose proof (pending_spine par t G) as Hpe. pose proof (spine_ok h par t G Hr HG) as Hok.
  destruct (spine par t G) as [|[[c n] r] G2] eqn:Es.
  - cbn [pending] in Hpe. symmetry in Hpe. rewrite Hpe.
    apply app_eq_nil in Hpe as [Hn Hp]. apply pending_nil in Hp as ->.
    destruct t as [|l p k v r];
      [|cbn [nodes] in Hn; apply app_eq_nil in Hn as [_ Hn]; discriminate].
    done.
  - assert (is_nil (root_of t) && bool_decide (G.*1.*1 = []) = false) as ->.
    { destruct t; [|done]. cbn [spine] in Es. subst G. done. }
    cbn [fmap list_fmap mbind option_bind fst].
    apply Forall_cons in Hok as [(Hc & Hright & Hrr) Hok2]. cbn [fst snd] in *.
    rewrite Hc. cbn [mbind option_bind].
    rewrite <- Hpe in Hs, Hf |- *. cbn [pending fst snd length] in Hs, Hf |- *.
    rewrite fmap_cons in Hs. destruct Hs as [Hall Hs].
    cbn [List.filter]. unfold in_range at 1.
    destruct (less (key n) to) eqn:Eto.
    + cbn [negb]. rewrite Hright.
      destruct (negb (less (key n) from)); cbn [andb feed].
      * destruct (yield seen n); [|done].
        by rewrite (IH (Some c) r G2 (seen ++ [n]) Hrr Hok2 Hs) by lia.
      * by rewrite (IH (Some c) r G2 seen Hrr Hok2 Hs) by lia.
    + cbn [negb]. rewrite andb_false_r.
      rewrite fmap_app in Hs, Hall. apply sorted_app in Hs as (_ & Hs2 & _).
      apply Forall_app in Hall as [Hall1 Hall2].
      pose proof (IH None Leaf G2 seen I Hok2) as IH'. cbn [nodes app root_of] in IH'.
      rewrite length_app in Hf.
      rewrite IH' by (done || lia). f_equal. f_equal.
      rewrite List.filter_app. rewrite (filter_none _ (nodes (Some c) r)); [done|].
      intros x Hx. unfold in_range. apply andb_false_intro2.
      assert (klt (key n) (key x)).
      { eapply Forall_forall in Hall1; [done|]. apply list_elem_of_fmap. by exists x. }
      order.
Qed.

Lemma InOrder_feed (h : heap) t (tr : tree) (yield : consumer) fuel :
  holds h t tr -> (length h < fuel)%nat ->
  InOrder fuel t yield h = Some (feed yield [] (nodes None tr)).
Proof.
  intros Hh Hf. destruct (holds_fuel _ _ _ _ Hh Hf) as [_ Hn].
  destruct Hh as (Hroot & Hr & _). unfold InOrder. rewrite Hroot.
  pose proof (InOrder_loop_feed h yield fuel None tr [] [] Hr) as E.
  cbn [pending fmap list_fmap] in E. rewrite app_nil_r in E. apply E; [constructor|done].
Qed.

Lemma Range_feed (h : heap) t (tr : tree) (yield : consumer) from to fuel :
  holds h t tr -> (length h < fuel)%nat ->
  Range fuel t from to yield h
  = Some (feed yield [] (List.filter (in_range from to) (nodes None tr))).
Proof.
  intros Hh Hf. destruct (holds_fuel _ _ _ _ Hh Hf) as [_ Hn].
  destruct Hh as (Hroot & Hr & _ & Hb & _). unfold Range. rewrite Hroot.
  pose proof (Range_loop_feed h yield from to fuel None tr [] [] Hr) as E.
  cbn [pending fmap list_fmap] in E. rewrite app_nil_r in E. apply E; [constructor| |done].
  by rewrite <- keys_nodes.
Qed.

End Consumers.

(** ** More on Insert and Delete *)

Section Mutation.
Context {K V : Type} `{Ordered K}.
Abbreviation Node := (Node K V).
Abbreviation heap := (list Node).
Abbreviation tree := (@tree K V).

(** The keys with their values, of a sequence of nodes. *)
Definition bindings (ns : list Node) : list (K * V) :=
  (fun n => (key n, value n)) <$> ns.

Lemma kvs_nodes par (t : tree) : kvs t = bindings (nodes par t).
Proof.
  revert par. induction t as [|l IHl p k v r IHr]; intros par; [done|].
  unfold bindings in *. cbn [kvs nodes].
  by rewrite fmap_app, fmap_cons, <- IHl, <- IHr.
Qed.

Lemma keys_bindings (ns : list Node) : (bindings ns).*1 = key <$> ns.
Proof. unfold bindings. by rewrite <- list_fmap_compose. Qed.

(** The tree with the value of [k] replaced. *)
Fixpoint tupd (k : K) (v : V) (t : tree) : tree :=
  match t with
  | Leaf => Leaf
  | Br l p k' v' r =>
      if less k k' then Br (tupd k v l) p k' v' r
      else if less k' k then Br l p k' v' (tupd k v r)
      else Br l p k' v r
  end.

Lemma ht_tupd k v (t : tree) : ht (tupd k v t) = ht t.
Proof.
  induction t as [|l IHl p k' v' r IHr]; [done|]. cbn [tupd].
  destruct (less k k'); [|destruct (less k' k)]; cbn [ht]; congruence.
Qed.

Lemma sz_tupd k v (t : tree) : sz (tupd k v t) = sz t.
Proof.
  induction t as [|l IHl p k' v' r IHr]; [done|]. cbn [tupd].
  destruct (less k k'); [|destruct (less k' k)]; cbn [sz]; congruence.
Qed.

Lemma root_of_tupd k v (t : tree) : root_of (tupd k v t) = root_of t.
Proof.
  destruct t as [|l p k' v' r]; [done|]. cbn [tupd].
  by destruct (less k k'); [|destruct (less k' k)].
Qed.

Lemma locs_tupd k v (t : tree) : locs (tupd k v t) = locs t.
Proof.
  induction t as [|l IHl p k' v' r IHr]; [done|]. cbn [tupd].
  destruct (less k k'); [|destruct (less k' k)]; cbn [locs]; congruence.
Qed.

Lemma avl_tupd k v (t : tree) : avl t -> avl (tupd k v t).
Proof.
  induction t as [|l IHl p k' v' r IHr]; [done|]. intros (Al & Ar & Hb). cbn [tupd].
  destruct (less k k'); [|destruct (less k' k)]; cbn [avl]; rewrite ?ht_tupd; auto.
Qed.

(** [Insert] of a key the tree has replaces its value and nothing else. *)
Lemma ins_present f k v (t : tree) :
  bst t -> avl t -> k ∈ keys t -> ins f k v t = (tupd k v t, false).
Proof.
  induction t as [|l IHl p k' v' r IHr]; [by intros _ _ ?%elem_of_nil|].
  intros (Bl & Brr & Hl & Hr)%bst_Br (Al & Ar & Hb) Hk%elem_keys_Br. cbn [ins tupd].
  destruct (less k k') eqn:Elt; [|destruct (less k' k) eqn:Egt]; [| |done].
  - rewrite IHl; [|done|done|].
    + destruct (avl_rebal (tupd k v l) p k' v' r) as (_ & _ & He);
        [by apply avl_tupd|done|rewrite ht_tupd; lia|].
      rewrite He by (rewrite ht_tupd; lia). done.
    + destruct Hk as [Hk|[->|Hk]]; [done|order|]. apply Hr in Hk. order.
  - rewrite IHr; [|done|done|].
    + destruct (avl_rebal l p k' v' (tupd k v r)) as (_ & _ & He);
        [done|by apply avl_tupd|rewrite ht_tupd; lia|].
      rewrite He by (rewrite ht_tupd; lia). done.
    + destruct Hk as [Hk|[->|Hk]]; [|order|done]. apply Hl in Hk. order.
Qed.

Lemma tfind_locs k (t : tree) p : tfind k t = Some p -> p ∈ locs t.
Proof.
  induction t as [|l IHl q k' v' r IHr]; [done|]. cbn [tfind locs].
  rewrite elem_of_app, elem_of_cons.
  destruct (less k k'); [|destruct (less k' k)]; [auto|auto|].
  intros [= ->]. right; by left.
Qed.

Lemma repr_tupd k v (t : tree) : forall (h : heap) par p n,
  repr h par t -> NoDup (locs t) -> tfind k t = Some p -> h !! p = Some n ->
  repr (<[p := set_value v n]> h) par (tupd k v t).
Proof.
  induction t as [|l IHl c k' v' r IHr]; intros h par p n Hr Hnd Hfind Hn; [done|].
  pose proof Hr as (Hc & Rl & Rr). cbn [locs] in Hnd. nodup_split.
  cbn [tfind tupd] in *.
  destruct (less k k') eqn:Elt; [|destruct (less k' k) eqn:Egt].
  - pose proof (tfind_locs _ _ _ Hfind) as Hp. cbn [repr]. split_and!.
    + rewrite list_lookup_insert_ne by (intros ->; set_solver).
      rewrite Hc. unfold node_of. by rewrite ht_tupd, sz_tupd, root_of_tupd.
    + by apply IHl.
    + apply repr_insert_ne; [done|]. intros Hpr. apply (H1 p Hp). set_solver.
  - pose proof (tfind_locs _ _ _ Hfind) as Hp. cbn [repr]. split_and!.
    + rewrite list_lookup_insert_ne by (intros ->; set_solver).
      rewrite Hc. unfold node_of. by rewrite ht_tupd, sz_tupd, root_of_tupd.
    + apply repr_insert_ne; [done|]. intros Hpl. apply (H1 p Hpl). set_solver.
    + by apply IHr.
  - injection Hfind as <-. rewrite Hc in Hn. injection Hn as <-. cbn [repr]. split_and!.
    + rewrite list_lookup_insert_eq by (by eapply lookup_lt_Some). done.
    + apply repr_insert_ne; [done|set_solver].
    + apply repr_insert_ne; [done|set_solver].
Qed.

(** Every node of the tree is reached from its root. *)
Lemma locs_reachable (h : heap) (t : tree) : forall par q,
  repr h par t -> q ∈ locs t -> reachable h (root_of t) q.
Proof.
  induction t as [|l IHl p k v r IHr]; intros par q Hr Hq; cbn in *.
  { by apply elem_of_nil in Hq. }
  destruct Hr as (Hp & Rl & Rr).
  apply elem_of_app in Hq as [Hq|Hq]; [|apply elem_of_cons in Hq as [->|Hq]].
  - eapply reach_left; [exact Hp|]. cbn. by eapply IHl.
  - apply reach_here.
  - eapply reach_right; [exact Hp|]. cbn. by eapply IHr.
Qed.

(** The store after [Insert], outside the tree. *)
Lemma Insert_grown (h : heap) t (tr : tree) k v fuel b t' h' :
  holds h t tr -> (length h < fuel)%nat ->
  Insert fuel t k v h = Some ((b, t'), h') -> grown h h' (locs tr).
Proof.
  intros Hh Hf E. pose proof (holds_depth _ _ _ Hh) as Hd.
  destruct Hh as (Hroot & Hr & Hnd & _).
  destruct (insertRec_repr k v tr fuel None h Hr Hnd) as (h1 & E1 & _ & G & _); [lia|].
  unfold Insert in E. rewrite Hroot in E. unfold bind in E. rewrite E1 in E.
  cbn in E. by injection E as _ _ <-.
Qed.

(** A balanced tree is shallow: its height is at most twice the
    logarithm of its size. *)
Lemma avl_height (t : tree) : avl t -> 2 ^ (ht t / 2) <= sz t + 1.
Proof.
  induction t as [|l IHl p k v r IHr]; [done|]. intros (Al & Ar & Hb).
  specialize (IHl Al). specialize (IHr Ar). cbn [ht sz].
  pose proof (ht_nonneg l) as Hl0. pose proof (ht_nonneg r) as Hr0.
  set (m := Z.max (ht l) (ht r)) in *.
  destruct (Z.eq_dec m 0) as [Hm|Hm].
  { rewrite Hm. change ((0 + 1) / 2) with 0. pose proof (sz_nonneg l). pose proof (sz_nonneg r).
    change (2 ^ 0) with 1. lia. }
  assert (0 <= (m - 1) / 2) as Hq by (apply Z.div_pos; lia).
  assert ((m + 1) / 2 = (m - 1) / 2 + 1) as ->.
  { replace (m + 1) with ((m - 1) + 1 * 2) by lia. by rewrite Z.div_add by lia. }
  rewrite Z.pow_add_r by lia. change (2 ^ 1) with 2.
  assert (2 ^ ((m - 1) / 2) <= 2 ^ (ht l / 2)).
  { apply Z.pow_le_mono_r; [lia|]. apply Z.div_le_mono; lia. }
  assert (2 ^ ((m - 1) / 2) <= 2 ^ (ht r / 2)).
  { apply Z.pow_le_mono_r; [lia|]. apply Z.div_le_mono; lia. }
  lia.
Qed.

(** In an ascending sequence, the keys below the one at position [i] are
    the [i] keys before it. *)
Lemma below_index (l : list K) i x :
  sorted l -> l !! i = Some x -> below x l = Z.of_nat i.
Proof.
  intros Hs Hi. rewrite <- (take_drop_middle l i x Hi) in Hs |- *.
  apply sorted_middle in Hs as (_ & _ & Hlt & Hgt).
  rewrite below_app. cbn [below]. rewrite less_irrefl.
  rewrite (below_all x (take i l)) by done.
  rewrite (below_none x (drop (S i) l)).
  2: { intros y Hy. specialize (Hgt y Hy). order. }
  rewrite length_take. apply lookup_lt_Some in Hi. lia.
Qed.

(** Two sequences of bindings with ascending keys and the same members
    are the same sequence. *)
Lemma sorted_bindings_eq (l1 : list (K * V)) : forall l2,
  sorted l1.*1 -> sorted l2.*1 -> (forall x, x ∈ l1 <-> x ∈ l2) -> l1 = l2.
Proof.
  induction l1 as [|a l1 IH]; intros [|b l2] S1 S2 Hm.
  - done.
  - exfalso. eapply elem_of_nil. apply (proj2 (Hm b)). apply elem_of_cons. by left.
  - exfalso. eapply elem_of_nil. apply (proj1 (Hm a)). apply elem_of_cons. by left.
  - rewrite !fmap_cons in S1, S2. destruct S1 as [F1 S1], S2 as [F2 S2].
    assert (forall x, x ∈ l1 -> klt a.1 x.1) as Ha.
    { intros x Hx. eapply Forall_forall in F1; [done|]. apply list_elem_of_fmap. by exists x. }
    assert (forall x, x ∈ l2 -> klt b.1 x.1) as Hb.
    { intros x Hx. eapply Forall_forall in F2; [done|]. apply list_elem_of_fmap. by exists x. }
    assert (a = b) as <-.
    { assert (a ∈ b :: l2) as Ha2 by (apply Hm, elem_of_cons; by left).
      assert (b ∈ a :: l1) as Hb1 by (apply Hm, elem_of_cons; by left).
      apply elem_of_cons in Ha2 as [Hab|Ha2]; [done|].
      apply elem_of_cons in Hb1 as [Hba|Hb1]; [done|].
      destruct (klt_asym _ _ (Ha _ Hb1) (Hb _ Ha2)). }
    f_equal. apply IH; [done|done|]. intros x. split; intros Hx.
    + assert (x ∈ a :: l2) as Hx2 by (apply Hm, elem_of_cons; by right).
      apply elem_of_cons in Hx2 as [->|Hx2]; [|done].
      destruct (klt_irrefl _ (Ha _ Hx)).
    + assert (x ∈ a :: l1) as Hx1 by (apply Hm, elem_of_cons; by right).
      apply elem_of_cons in Hx1 as [->|Hx1]; [|done].
      destruct (klt_irrefl _ (Hb _ Hx)).
Qed.

End Mutation.

(** ** Properties of the queries *)

Section QueryProperties.
Context {K V : Type} `{Ordered K}.
Abbreviation Node := (Node K V).
Abbreviation heap := (list Node).
Abbreviation tree := (@tree K V).

Lemma holds_nodes_lookup (h : heap) t (tr : tree) i p :
  holds h t tr -> locs tr !! i = Some p ->
  exists n, h !! p = Some n /\ nodes None tr !! i = Some n
            /\ entries None tr !! i = Some (p, n).
Proof.
  intros (_ & Hr & _) Hi.
  rewrite <- (entries_locs None), list_lookup_fmap in Hi.
  destruct (entries None tr !! i) as [[p' n]|] eqn:He; [|done].
  cbn in Hi. injection Hi as ->. exists n. split_and!; [|  |done].
  - exact (repr_entries h tr None (p, n) Hr (list_elem_of_lookup_2 _ _ _ He)).
  - rewrite <- (entries_nodes None), list_lookup_fmap, He. done.
Qed.

Lemma holds_nodes_none (tr : tree) i :
  locs tr !! i = None -> nodes None tr !! i = None.
Proof.
  intros Hi. apply lookup_ge_None in Hi. apply lookup_ge_None.
  by rewrite length_nodes.
Qed.

Lemma last_take {A} (l : list A) i :
  (i <= length l)%nat ->
  last (take i l) = match i with O => None | S j => l !! j end.
Proof.
  intros Hi. destruct i as [|j]; [done|].
  rewrite last_lookup, length_take, Nat.min_l by lia. cbn [pred].
  apply lookup_take_lt. lia.
Qed.

(** X1. [Search] on a well-formed tree finds the node of the tree that
    holds the key, and finds nothing exactly when no node holds it. *)
Theorem Search_correct (h : heap) t k fuel :
  wf h t -> (length h < fuel)%nat ->
  exists ns r,
    InOrder fuel t all h = Some ns
    /\ Search fuel t k h = Some r
    /\ match r with
       | Some p => exists n, h !! p = Some n /\ n ∈ ns /\ key n = k
       | None => k ∉ key <$> ns
       end.
Proof.
  intros [tr Hh] Hf. pose proof Hh as (_ & Hr & _ & HB & _).
  exists (nodes None tr), (tfind k tr).
  split; [by apply InOrder_holds|]. split; [by apply Search_holds|].
  destruct (tfind k tr) as [p|] eqn:Hfind.
  - destruct (tfind_Some _ _ _ Hfind) as (v & _ & Hn).
    destruct (Hn h None Hr) as (n & Hp & Hk & _). exists n. split_and!; [done| |done].
    destruct (elem_locs_entries None tr p (tfind_locs _ _ _ Hfind)) as (n' & He).
    pose proof (repr_entries h tr None _ Hr He) as Hp'. cbn in Hp'.
    rewrite Hp in Hp'. injection Hp' as <-.
    rewrite <- (entries_nodes None). apply list_elem_of_fmap. by exists (p, n).
  - rewrite <- keys_nodes. by apply tfind_None.
Qed.

(** X2. [Min] on a well-formed tree returns the first node of the in-order
    sequence, whose key is the smallest, and finds nothing exactly when the
    tree is empty. *)
Theorem Min_smallest (h : heap) t fuel :
  wf h t -> (length h < fuel)%nat ->
  exists ns r,
    InOrder fuel t all h = Some ns
    /\ Min fuel t h = Some r
    /\ match r with
       | Some p => exists n, h !! p = Some n /\ head ns = Some n
                     /\ forall m, m ∈ ns -> kle (key n) (key m)
       | None => ns = []
       end.
Proof.
  intros [tr Hh] Hf. pose proof Hh as (_ & Hr & _ & HB & _).
  exists (nodes None tr), (head (locs tr)).
  split; [by apply InOrder_holds|]. split; [by apply Min_holds|].
  rewrite head_lookup. destruct (locs tr !! 0%nat) as [p|] eqn:Hp.
  - destruct (holds_nodes_lookup _ _ _ _ _ Hh Hp) as (n & Hn & Hi & _).
    exists n. split_and!; [done|by rewrite head_lookup|].
    intros m Hm. unfold bst in HB. rewrite (keys_nodes None) in HB.
    destruct (nodes None tr) as [|n0 ns]; [done|]. injection Hi as ->.
    apply elem_of_cons in Hm as [->|Hm]; [apply kle_refl|].
    apply klt_le. eapply sorted_cons_inv; [exact HB|]. apply list_elem_of_fmap. by exists m.
  - apply holds_nodes_none in Hp. by destruct (nodes None tr).
Qed.

(** X3. [Max] on a well-formed tree returns the last node of the in-order
    sequence, whose key is the largest, and finds nothing exactly when the
    tree is empty. *)
Theorem Max_largest (h : heap) t fuel :
  wf h t -> (length h < fuel)%nat ->
  exists ns r,
    InOrder fuel t all h = Some ns
    /\ Max fuel t h = Some r
    /\ match r with
       | Some p => exists n, h !! p = Some n /\ last ns = Some n
                     /\ forall m, m ∈ ns -> kle (key m) (key n)
       | None => ns = []
       end.
Proof.
  intros [tr Hh] Hf. pose proof Hh as (_ & Hr & _ & HB & _).
  exists (nodes None tr), (last (locs tr)).
  split; [by apply InOrder_holds|]. split; [by apply Max_holds|].
  rewrite last_lookup. destruct (locs tr !! pred (length (locs tr))) as [p|] eqn:Hp.
  - destruct (holds_nodes_lookup _ _ _ _ _ Hh Hp) as (n & Hn & Hi & _).
    exists n. rewrite <- (length_nodes None), <- last_lookup in Hi.
    split_and!; [done|done|].
    intros m Hm. unfold bst in HB. rewrite (keys_nodes None) in HB.
    apply last_Some in Hi as (ns & Ens). rewrite Ens in Hm, HB.
    apply elem_of_app in Hm as [Hm|Hm].
    + rewrite fmap_app in HB. apply sorted_app in HB as (_ & _ & Hlt).
      apply klt_le, Hlt; [apply list_elem_of_fmap; by exists m|].
      apply list_elem_of_singleton. done.
    + apply list_elem_of_singleton in Hm as ->. apply kle_refl.
  - apply holds_nodes_none in Hp.
    rewrite <- (length_nodes None), <- last_lookup in Hp. by apply last_None.
Qed.

(** X4. [Ceiling] on a well-formed tree returns the node with the smallest
    key that is not less than [k], and finds nothing exactly when every key
    is less than [k]. *)
Theorem Ceiling_least (h : heap) t k fuel :
  wf h t -> (length h < fuel)%nat ->
  exists ns r,
    InOrder fuel t all h = Some ns
    /\ Ceiling fuel t k h = Some r
    /\ match r with
       | Some p => exists n, h !! p = Some n /\ n ∈ ns /\ kle k (key n)
                     /\ forall m, m ∈ ns -> kle k (key m) -> kle (key n) (key m)
       | None => forall m, m ∈ ns -> klt (key m) k
       end.
Proof.
  intros [tr Hh] Hf. pose proof Hh as (_ & Hr & _ & HB & _).
  exists (nodes None tr), (tceil k tr None).
  split; [by apply InOrder_holds|]. split; [by apply Ceiling_holds|].
  rewrite (tceil_first k tr None None HB).
  pose proof (first_from_least (fun y => negb (less y k)) None tr h Hr HB) as Hc.
  destruct (first_from _ (entries None tr) None) as [p|].
  - destruct Hc as (n & Hn & Hin & Hf1 & Hleast). exists n.
    apply negb_true_iff in Hf1. split_and!; [done|done|done|].
    intros m Hm Hkm. apply Hleast; [done|]. by apply negb_true_iff.
  - intros m Hm. specialize (Hc m Hm). by apply negb_false_iff in Hc.
Qed.

(** X5. [Floor] on a well-formed tree returns the node with the largest key
    that is not greater than [k], and finds nothing exactly when every key
    is greater than [k]. *)
Theorem Floor_greatest (h : heap) t k fuel :
  wf h t -> (length h < fuel)%nat ->
  exists ns r,
    InOrder fuel t all h = Some ns
    /\ Floor fuel t k h = Some r
    /\ match r with
       | Some p => exists n, h !! p = Some n /\ n ∈ ns /\ kle (key n) k
                     /\ forall m, m ∈ ns -> kle (key m) k -> kle (key m) (key n)
       | None => forall m, m ∈ ns -> klt k (key m)
       end.
Proof.
  intros [tr Hh] Hf. pose proof Hh as (_ & Hr & _ & HB & _).
  exists (nodes None tr), (tfloor k tr None).
  split; [by apply InOrder_holds|]. split; [by apply Floor_holds|].
  rewrite (tfloor_last k tr None None HB).
  pose proof (last_from_greatest (fun y => negb (less k y)) None tr h Hr HB) as Hc.
  destruct (last_from _ (entries None tr) None) as [p|].
  - destruct Hc as (n & Hn & Hin & Hf1 & Hmost). exists n.
    apply negb_true_iff in Hf1. split_and!; [done|done|done|].
    intros m Hm Hkm. apply Hmost; [done|]. by apply negb_true_iff.
  - intros m Hm. specialize (Hc m Hm). by apply negb_false_iff in Hc.
Qed.

(** X6. [Higher] on a well-formed tree returns the node with the smallest
    key greater than [k], and finds nothing exactly when no key is greater
    than [k]. *)
Theorem Higher_least (h : heap) t k fuel :
  wf h t -> (length h < fuel)%nat ->
  exists ns r,
    InOrder fuel t all h = Some ns
    /\ Higher fuel t k h = Some r
    /\ match r with
       | Some p => exists n, h !! p = Some n /\ n ∈ ns /\ klt k (key n)
                     /\ forall m, m ∈ ns -> klt k (key m) -> kle (key n) (key m)
       | None => forall m, m ∈ ns -> kle (key m) k
       end.
Proof.
  intros [tr Hh] Hf. pose proof Hh as (_ & Hr & _ & HB & _).
  exists (nodes None tr), (thigher k tr None).
  split; [by apply InOrder_holds|]. split; [by apply Higher_holds|].
  rewrite (thigher_first k tr None None HB).
  pose proof (first_from_least (fun y => less k y) None tr h Hr HB) as Hc.
  by destruct (first_from _ (entries None tr) None) as [p|].
Qed.

(** X7. [Lower] on a well-formed tree returns the node with the largest key
    less than [k], and finds nothing exactly when no key is less than
    [k]. *)
Theorem Lower_greatest (h : heap) t k fuel :
  wf h t -> (length h < fuel)%nat ->
  exists ns r,
    InOrder fuel t all h = Some ns
    /\ Lower fuel t k h = Some r
    /\ match r with
       | Some p => exists n, h !! p = Some n /\ n ∈ ns /\ klt (key n) k
                     /\ forall m, m ∈ ns -> klt (key m) k -> kle (key m) (key n)
       | None => forall m, m ∈ ns -> kle k (key m)
       end.
Proof.
  intros [tr Hh] Hf. pose proof Hh as (_ & Hr & _ & HB & _).
  exists (nodes None tr), (tlower k tr None).
  split; [by apply InOrder_holds|]. split; [by apply Lower_holds|].
  rewrite (tlower_last k tr None None HB).
  pose proof (last_from_greatest (fun y => less y k) None tr h Hr HB) as Hc.
  by destruct (last_from _ (entries None tr) None) as [p|].
Qed.

(** X8. [Successor] of a node of a well-formed tree returns the next node
    of the in-order sequence, and finds nothing exactly for the last
    node. *)
Theorem Successor_next (h : heap) t p fuel :
  wf h t -> (length h < fuel)%nat -> reachable h (Root t) p ->
  exists ns i n r,
    InOrder fuel t all h = Some ns
    /\ h !! p = Some n /\ ns !! i = Some n
    /\ Successor fuel (Some p) h = Some r
    /\ match r with
       | Some q => exists m, h !! q = Some m /\ ns !! S i = Some m
       | None => S i = length ns
       end.
Proof.
  intros [tr Hh] Hf Hp. pose proof Hh as (Hroot & Hr & _).
  rewrite Hroot in Hp. apply (repr_reachable h tr None p Hr) in Hp.
  apply list_elem_of_lookup_1 in Hp as [i Hi].
  destruct (holds_nodes_lookup _ _ _ _ _ Hh Hi) as (n & Hn & Hni & Hei).
  exists (nodes None tr), i, n, (locs tr !! S i).
  split; [by apply InOrder_holds|]. split_and!; [done|done| |].
  - exact (Successor_entry h t tr fuel i (p, n) Hh Hf Hei).
  - destruct (locs tr !! S i) as [q|] eqn:Hq.
    + destruct (holds_nodes_lookup _ _ _ _ _ Hh Hq) as (m & Hm & Hmi & _). eauto.
    + apply lookup_ge_None in Hq. apply lookup_lt_Some in Hi.
      rewrite length_nodes. lia.
Qed.

(** X9. [Predecessor] of a node of a well-formed tree returns the previous
    node of the in-order sequence, and finds nothing exactly for the first
    node. *)
Theorem Predecessor_previous (h : heap) t p fuel :
  wf h t -> (length h < fuel)%nat -> reachable h (Root t) p ->
  exists ns i n r,
    InOrder fuel t all h = Some ns
    /\ h !! p = Some n /\ ns !! i = Some n
    /\ Predecessor fuel (Some p) h = Some r
    /\ match r with
       | Some q => exists m j, i = S j /\ h !! q = Some m /\ ns !! j = Some m
       | None => i = O
       end.
Proof.
  intros [tr Hh] Hf Hp. pose proof Hh as (Hroot & Hr & _).
  rewrite Hroot in Hp. apply (repr_reachable h tr None p Hr) in Hp.
  apply list_elem_of_lookup_1 in Hp as [i Hi].
  destruct (holds_nodes_lookup _ _ _ _ _ Hh Hi) as (n & Hn & Hni & Hei).
  exists (nodes None tr), i, n, (last (take i (locs tr))).
  split; [by apply InOrder_holds|]. split_and!; [done|done| |].
  - exact (Predecessor_entry h t tr fuel i (p, n) Hh Hf Hei).
  - pose proof (lookup_lt_Some _ _ _ Hi) as Hlt.
    rewrite last_take by lia. destruct i as [|j]; [done|].
    destruct (locs tr !! j) as [q|] eqn:Hq.
    + destruct (holds_nodes_lookup _ _ _ _ _ Hh Hq) as (m & Hm & Hmi & _). eauto.
    + apply lookup_ge_None in Hq. lia.
Qed.

(** X10. For a key of a well-formed tree, [Lower] returns what
    [Predecessor] returns for the node [Search] finds. *)
Theorem Lower_is_Predecessor (h : heap) t k p fuel :
  wf h t -> (length h < fuel)%nat ->
  Search fuel t k h = Some (Some p) ->
  exists r, Lower fuel t k h = Some r /\ Predecessor fuel (Some p) h = Some r.
Proof.
  intros [tr Hh] Hf Hs. pose proof (holds_depth _ _ _ Hh) as Hd.
  rewrite (Search_holds _ _ _ _ _ Hh Hf) in Hs. injection Hs as Hfind.
  exists (tlower k tr None). split; [by apply Lower_holds|].
  destruct Hh as (_ & Hr & Hnd & HB & _).
  apply (Predecessor_sub k tr None None O h p fuel); try done; [|lia].
  intros f Hlt. destruct f; [lia|done].
Qed.

(** X11. [Rank] and [Kth] are inverse to each other on a well-formed tree:
    the rank of the key of the node [Kth i] finds is [i], and [Kth] at the
    rank of a key of the tree finds the node [Search] finds. *)
Theorem Kth_Rank_inverse (h : heap) t fuel :
  wf h t -> (length h < fuel)%nat ->
  (forall i p n, Kth fuel t i h = Some (Some p) -> h !! p = Some n ->
     Rank fuel t (key n) h = Some i)
  /\ (forall k p, Search fuel t k h = Some (Some p) ->
        exists i, Rank fuel t k h = Some i /\ Kth fuel t i h = Some (Some p)).
Proof.
  intros [tr Hh] Hf. pose proof Hh as (_ & Hr & _ & HB & _). split.
  - intros i p n Hk Hn. rewrite (Kth_holds _ _ _ _ _ Hh Hf) in Hk. injection Hk as Hk.
    destruct (tkth_spec tr i) as [Hin Hout].
    destruct (decide (0 <= i < sz tr)) as [Hi|Hi]; [|by rewrite Hout in Hk].
    rewrite Hin in Hk by done.
    destruct (holds_nodes_lookup _ _ _ _ _ Hh Hk) as (n' & Hn' & Hni & _).
    rewrite Hn in Hn'. injection Hn' as <-.
    rewrite (Rank_holds _ _ _ _ _ Hh Hf). f_equal.
    rewrite (below_index _ (Z.to_nat i)); [lia|done|].
    by rewrite (keys_nodes None), list_lookup_fmap, Hni.
  - intros k p Hs. rewrite (Search_holds _ _ _ _ _ Hh Hf) in Hs. injection Hs as Hfind.
    pose proof (tfind_locs _ _ _ Hfind) as Hp. apply list_elem_of_lookup_1 in Hp as [j Hj].
    destruct (holds_nodes_lookup _ _ _ _ _ Hh Hj) as (n & Hn & Hnj & _).
    destruct (tfind_Some _ _ _ Hfind) as (v & _ & Hn').
    destruct (Hn' h None Hr) as (n' & Hp' & Hk & _).
    rewrite Hn in Hp'. injection Hp' as <-.
    exists (Z.of_nat j). split.
    + rewrite (Rank_holds _ _ _ _ _ Hh Hf). f_equal. apply below_index; [done|].
      by rewrite (keys_nodes None), list_lookup_fmap, Hnj, <- Hk.
    + rewrite (Kth_holds _ _ _ _ _ Hh Hf). f_equal.
      destruct (tkth_spec tr (Z.of_nat j)) as [Hin _].
      rewrite Hin, Nat2Z.id; [done|].
      apply lookup_lt_Some in Hj. rewrite sz_length. lia.
Qed.

End QueryProperties.

(** ** Properties of Insert, Delete, Clear and the iterators *)

Section MutationProperties.
Context {K V : Type} `{Ordered K}.
Abbreviation Node := (Node K V).
Abbreviation heap := (list Node).
Abbreviation tree := (@tree K V).

(** X12. [Insert k v] on a well-formed tree binds [k] to [v] and keeps
    every other binding: the keys with their values after the call are
    [(k, v)] and those that were there under another key. *)
Theorem Insert_bindings (h : heap) t k v fuel :
  wf h t -> (length h + 1 < fuel)%nat ->
  exists ns b t' h' ns',
    InOrder fuel t all h = Some ns
    /\ Insert fuel t k v h = Some ((b, t'), h')
    /\ InOrder fuel t' all h' = Some ns'
    /\ forall x, x ∈ bindings ns' <-> x = (k, v) \/ (x.1 <> k /\ x ∈ bindings ns).
Proof.
  intros [tr Hh] Hf. pose proof Hh as (_ & _ & _ & HB & _).
  destruct (Insert_holds h t tr k v fuel Hh) as (h' & t' & E & Hh' & Hlen); [lia|].
  assert (length h' < fuel)%nat as Hf'
    by (destruct (ins (length h) k v tr).2; lia).
  destruct (ins_spec (length h) k v tr HB) as (_ & Hkv & _).
  exists (nodes None tr), (ins (length h) k v tr).2, t', h',
    (nodes None (ins (length h) k v tr).1).
  split; [apply (InOrder_holds _ _ _ _ Hh); lia|]. split; [done|].
  split; [by apply InOrder_holds|].
  intros x. by rewrite <- !kvs_nodes.
Qed.

(** X13. [Delete k] on a well-formed tree returns [true] exactly when
    [k] was in the tree; it removes the binding of [k] and keeps every
    other binding. *)
Theorem Delete_bindings (h : heap) t k fuel :
  wf h t -> (length h < fuel)%nat ->
  exists ns b t' h' ns',
    InOrder fuel t all h = Some ns
    /\ Delete fuel t k h = Some ((b, t'), h')
    /\ InOrder fuel t' all h' = Some ns'
    /\ (b = true <-> k ∈ key <$> ns)
    /\ forall x, x ∈ bindings ns' <-> x.1 <> k /\ x ∈ bindings ns.
Proof.
  intros [tr Hh] Hf. pose proof Hh as (_ & _ & _ & HB & _).
  destruct (Delete_holds h t tr k fuel Hh Hf) as (h' & t' & E & Hh' & Hlen & _).
  destruct (del_spec tr k HB) as (_ & Hkv & Hres).
  exists (nodes None tr), (del k tr).2, t', h', (nodes None (del k tr).1).
  split; [by apply InOrder_holds|]. split; [done|].
  split; [apply (InOrder_holds _ _ _ _ Hh'); lia|].
  split; [by rewrite <- keys_nodes|].
  intros x. by rewrite <- !kvs_nodes.
Qed.

(** X14. [Insert] of a key that is in a well-formed tree returns [false]
    and writes the value into the node that holds the key; the root and
    every other field of every node stay as they are: no node is added and
    none is rotated. *)
Theorem Insert_in_place (h : heap) t k v p n fuel :
  wf h t -> (length h < fuel)%nat ->
  Search fuel t k h = Some (Some p) -> h !! p = Some n ->
  Insert fuel t k v h = Some ((false, t), <[p := set_value v n]> h).
Proof.
  intros [tr Hh] Hf Hs Hn. pose proof Hh as (Hroot & Hr & Hnd & HB & HA).
  rewrite (Search_holds _ _ _ _ _ Hh Hf) in Hs. injection Hs as Hfind.
  assert (k ∈ keys tr) as Hk.
  { destruct (tfind_Some _ _ _ Hfind) as (v' & Hin & _). by eapply elem_kvs_keys. }
  destruct (Insert_holds h t tr k v fuel Hh Hf) as (h' & t' & E & Hh' & Hlen).
  pose proof (Insert_grown _ _ _ _ _ _ _ _ _ Hh Hf E) as [_ Hg].
  rewrite (ins_present _ k v tr HB HA Hk) in *. cbn [fst snd] in *.
  destruct Hh' as (Hroot' & Hr' & _).
  assert (t' = t) as ->.
  { destruct t, t'; cbn in *. rewrite root_of_tupd in Hroot'. congruence. }
  assert (h' = <[p := set_value v n]> h) as ->; [|done].
  pose proof (repr_tupd k v tr h None p n Hr Hnd Hfind Hn) as Hr2.
  apply list_eq. intros q.
  destruct (decide (q ∈ locs tr)) as [Hq|Hq].
  - apply (repr_agree _ _ (tupd k v tr) None q Hr2 Hr'). by rewrite locs_tupd.
  - rewrite list_lookup_insert_ne by (intros <-; by apply Hq, tfind_locs with k).
    destruct (decide (q < length h)%nat) as [Hlt|Hge]; [by apply Hg|].
    rewrite !lookup_ge_None_2 by lia. done.
Qed.

(** X15. [Insert] on a well-formed tree touches the tree only: every node
    of the store that is not a node of the tree stays as it is; the store
    gains exactly one node when [Insert] returns [true] and none when it
    returns [false]. *)
Theorem Insert_footprint (h : heap) t k v fuel :
  wf h t -> (length h < fuel)%nat ->
  exists b t' h',
    Insert fuel t k v h = Some ((b, t'), h')
    /\ length h' = (if b then S (length h) else length h)
    /\ forall q, (q < length h)%nat -> ~ reachable h (Root t) q -> h' !! q = h !! q.
Proof.
  intros [tr Hh] Hf. pose proof Hh as (Hroot & Hr & _).
  destruct (Insert_holds h t tr k v fuel Hh Hf) as (h' & t' & E & _ & Hlen).
  pose proof (Insert_grown _ _ _ _ _ _ _ _ _ Hh Hf E) as [_ Hg].
  exists (ins (length h) k v tr).2, t', h'. split_and!; [done|done|].
  intros q Hq Hn. apply Hg; [|done]. intros Hin. apply Hn. rewrite Hroot.
  by eapply locs_reachable.
Qed.

(** X16. [Delete] on a well-formed tree touches the tree only: every node
    of the store that is not a node of the tree stays as it is, and the
    store keeps its size. *)
Theorem Delete_footprint (h : heap) t k fuel :
  wf h t -> (length h < fuel)%nat ->
  exists b t' h',
    Delete fuel t k h = Some ((b, t'), h')
    /\ length h' = length h
    /\ forall q, ~ reachable h (Root t) q -> h' !! q = h !! q.
Proof.
  intros [tr Hh] Hf. pose proof Hh as (Hroot & Hr & _).
  destruct (Delete_holds h t tr k fuel Hh Hf) as (h' & t' & E & _ & Hlen & Hu).
  exists (del k tr).2, t', h'. split_and!; [done|done|].
  intros q Hn. apply Hu. intros Hin. apply Hn. rewrite Hroot.
  by eapply locs_reachable.
Qed.

(** X17. [InOrder] against a consumer that may stop: the consumer is
    handed the nodes of the full traversal in order, up to and including
    the first one at which it answers [false], and nothing after it. *)
Theorem InOrder_stops (h : heap) t (yield : consumer) fuel :
  wf h t -> (length h < fuel)%nat ->
  exists ns out,
    InOrder fuel t all h = Some ns
    /\ InOrder fuel t yield h = Some out
    /\ out = feed yield [] ns
    /\ out `prefix_of` ns.
Proof.
  intros [tr Hh] Hf. exists (nodes None tr), (feed yield [] (nodes None tr)).
  split; [by apply InOrder_holds|]. split; [by apply InOrder_feed|]. split; [done|].
  by destruct (feed_prefix yield (nodes None tr) []) as (l' & -> & Hp).
Qed.

(** X18. [Range] against a consumer that may stop: the consumer is handed
    the nodes in range of the full traversal in order, up to and including
    the first one at which it answers [false], and nothing after it. *)
Theorem Range_stops (h : heap) t from to (yield : consumer) fuel :
  wf h t -> (length h < fuel)%nat ->
  exists ns out,
    InOrder fuel t all h = Some ns
    /\ Range fuel t from to yield h = Some out
    /\ out = feed yield [] (List.filter (in_range from to) ns)
    /\ out `prefix_of` List.filter (in_range from to) ns.
Proof.
  intros [tr Hh] Hf.
  exists (nodes None tr), (feed yield [] (List.filter (in_range from to) (nodes None tr))).
  split; [by apply InOrder_holds|]. split; [by apply Range_feed|]. split; [done|].
  by destruct (feed_prefix yield (List.filter (in_range from to) (nodes None tr)) [])
    as (l' & -> & Hp).
Qed.

(** X19. [Range from to] with [to <= from] yields nothing, whatever the
    tree and the consumer. *)
Theorem Range_empty (h : heap) t from to (yield : consumer) fuel :
  wf h t -> (length h < fuel)%nat -> kle to from ->
  Range fuel t from to yield h = Some [].
Proof.
  intros [tr Hh] Hf Hle. rewrite (Range_feed _ _ _ _ _ _ _ Hh Hf).
  rewrite filter_none; [done|].
  intros n _. unfold in_range.
  destruct (less (key n) from) eqn:E1; [done|].
  destruct (less (key n) to) eqn:E2; [|done]. exfalso.
  apply (klt_irrefl (key n)). apply klt_le_trans with to; [exact E2|].
  apply kle_trans with from; [exact Hle|exact E1].
Qed.

(** X20. The height of a well-formed tree is at most twice the logarithm
    of its length: [2 ^ (height / 2) <= Len + 1]. *)
Theorem height_logarithmic (h : heap) t :
  wf h t ->
  exists len, Len t h = Some len /\ 2 ^ (hgt h (Root t) / 2) <= len + 1.
Proof.
  intros [tr Hh]. pose proof Hh as (Hroot & Hr & _ & _ & HA).
  exists (sz tr). split; [by eapply Len_holds|].
  rewrite Hroot, (repr_hgt _ _ _ Hr). by apply avl_height.
Qed.

(** X26. Round trip: [Insert] of a key that is not in a well-formed tree
    followed by [Delete] of that key returns [true] both times and leaves
    the keys with their values as they were before. *)
Theorem Insert_then_Delete (h : heap) t k v fuel :
  wf h t -> (length h + 1 < fuel)%nat ->
  Search fuel t k h = Some None ->
  exists ns t1 h1 t2 h2 ns2,
    InOrder fuel t all h = Some ns
    /\ Insert fuel t k v h = Some ((true, t1), h1)
    /\ Delete fuel t1 k h1 = Some ((true, t2), h2)
    /\ InOrder fuel t2 all h2 = Some ns2
    /\ bindings ns2 = bindings ns.
Proof.
  intros [tr Hh] Hf Hs. pose proof Hh as (_ & _ & _ & HB & _).
  rewrite (Search_holds _ _ _ _ _ Hh) in Hs by lia. injection Hs as Hfind.
  apply tfind_None in Hfind; [|done].
  destruct (Insert_holds h t tr k v fuel Hh) as (h1 & t1 & E1 & Hh1 & Hlen1); [lia|].
  destruct (ins_spec (length h) k v tr HB) as (HB1 & Hkv1 & Hres1).
  apply Hres1 in Hfind as Hb1. rewrite Hb1 in E1, Hlen1.
  set (tr1 := (ins (length h) k v tr).1) in *.
  destruct (Delete_holds h1 t1 tr1 k fuel Hh1) as (h2 & t2 & E2 & Hh2 & Hlen2 & _); [lia|].
  destruct (del_spec tr1 k HB1) as (HB2 & Hkv2 & Hres2).
  assert ((del k tr1).2 = true) as Hb2.
  { apply Hres2. eapply elem_kvs_keys, Hkv1. by left. }
  rewrite Hb2 in E2.
  exists (nodes None tr), t1, h1, t2, h2, (nodes None (del k tr1).1).
  split; [apply (InOrder_holds _ _ _ _ Hh); lia|]. split; [done|]. split; [done|].
  split; [apply (InOrder_holds _ _ _ _ Hh2); lia|].
  rewrite <- !kvs_nodes. apply sorted_bindings_eq.
  - by rewrite <- keys_kvs.
  - by rewrite <- keys_kvs.
  - intros x. rewrite Hkv2, Hkv1. split.
    + intros [Hne [->|[_ Hx]]]; [by destruct Hne|done].
    + intros Hx. assert (x.1 <> k) as Hne.
      { intros <-. apply Hfind. destruct x as [a b]. by eapply elem_kvs_keys. }
      split; [done|]. right. by split.
Qed.

End MutationProperties.

(** ** Properties of the structural maintenance *)

Section MaintenanceProperties.
Context {K V : Type} `{Ordered K}.
Abbreviation Node := (Node K V).
Abbreviation heap := (list Node).
Abbreviation tree := (@tree K V).

(** X21. [rotateLeft] of the node [z] with the right child [y] returns
    [y] and turns the subtree [a z (b y c)] into [(a z b) y c]: the store
    then holds the rotated subtree below the same parent, with the heights,
    the sizes and the back-references of [z], [y] and [b] as they must be;
    no node outside the subtree is touched and none is added. *)
Theorem rotateLeft_rotates (h : heap) par (a : tree) z kz vz (b : tree) y ky vy (c : tree) :
  repr h par (Br a z kz vz (Br b y ky vy c)) ->
  NoDup (locs (Br a z kz vz (Br b y ky vy c))) ->
  exists h',
    rotateLeft (Some z) h = Some (Some y, h')
    /\ repr h' par (Br (Br a z kz vz b) y ky vy c)
    /\ length h' = length h
    /\ forall q, q ∉ locs (Br a z kz vz (Br b y ky vy c)) -> h' !! q = h !! q.
Proof.
  intros Hr Hnd.
  destruct (rotateLeft_repr h par a z kz vz b y ky vy c (repr_stale _ _ _ _ _ _ _ Hr) Hnd)
    as (h' & E & Hr' & Hlen & Hu).
  by exists h'.
Qed.

(** X22. [rotateRight] of the node [z] with the left child [y] returns
    [y] and turns the subtree [(a y b) z c] into [a y (b z c)], in the same
    way. *)
Theorem rotateRight_rotates (h : heap) par (a : tree) y ky vy (b : tree) z kz vz (c : tree) :
  repr h par (Br (Br a y ky vy b) z kz vz c) ->
  NoDup (locs (Br (Br a y ky vy b) z kz vz c)) ->
  exists h',
    rotateRight (Some z) h = Some (Some y, h')
    /\ repr h' par (Br a y ky vy (Br b z kz vz c))
    /\ length h' = length h
    /\ forall q, q ∉ locs (Br (Br a y ky vy b) z kz vz c) -> h' !! q = h !! q.
Proof.
  intros Hr Hnd.
  destruct (rotateRight_repr h par a y ky vy b z kz vz c (repr_stale _ _ _ _ _ _ _ Hr) Hnd)
    as (h' & E & Hr' & Hlen & Hu).
  by exists h'.
Qed.

(** X23. [rebalance] of a node whose height and size may be stale and
    whose children are balanced subtrees with heights at most 2 apart
    returns the root of a balanced subtree with the same keys and values in
    the same order; its height is that of the node with its children, or
    one less; no node outside the subtree is touched and none is added. *)
Theorem rebalance_restores (h : heap) par (l : tree) p k v (r : tree) :
  stale h par l p k v r ->
  NoDup (locs (Br l p k v r)) ->
  avl l -> avl r -> -2 <= ht l - ht r <= 2 ->
  exists h' t',
    rebalance (Some p) h = Some (root_of t', h')
    /\ repr h' par t'
    /\ avl t'
    /\ kvs t' = kvs (Br l p k v r)
    /\ ht (Br l p k v r) - 1 <= ht t' <= ht (Br l p k v r)
    /\ length h' = length h
    /\ forall q, q ∉ locs (Br l p k v r) -> h' !! q = h !! q.
Proof.
  intros Hst Hnd Al Ar Hb.
  destruct (rebalance_repr h par l p k v r Hst Hnd) as (h' & E & Hr' & Hlen & Hu).
  destruct (avl_rebal l p k v r Al Ar Hb) as (Ha & Hht & _).
  exists h', (rebal l p k v r).
  split_and!; [done|done|done|apply kvs_rebal|lia|lia|done|done].
Qed.

(** X24. [updateSize] of a node whose children are other nodes of the
    store, or absent, sets its height to one more than the larger height of
    its children and its size to one more than the sizes of its children,
    an absent child counting 0; it changes no other field and no other
    node. *)
Theorem updateSize_recomputes (h : heap) p n :
  h !! p = Some n -> child_ok h p (left n) -> child_ok h p (right n) ->
  exists n',
    updateSize (Some p) h = Some (tt, <[p := n']> h)
    /\ height n' = Z.max (hgt h (left n)) (hgt h (right n)) + 1
    /\ size n' = 1 + siz h (left n) + siz h (right n)
    /\ key n' = key n /\ value n' = value n
    /\ left n' = left n /\ right n' = right n /\ parent n' = parent n.
Proof.
  intros Hp Hl Hr. eexists. split; [by apply updateSize_spec|]. by split_and!.
Qed.

(** X25. [Clear] resets a tree whatever state it is in: the tree it
    leaves has length 0, and every sequence of operations that follows
    returns and leaves a well-formed tree. *)
Theorem Clear_resets (h : heap) t (ops : list (@op K V)) fuel :
  (length h + length ops < fuel)%nat ->
  Len (Clear t) h = Some 0
  /\ exists t' h', run fuel (OpClear :: ops) (t, h) = Some (t', h') /\ wf h' t'.
Proof.
  intros Hf. split; [done|].
  destruct (run_holds fuel ops (Clear t) h Leaf (holds_Clear h t) Hf)
    as (t' & h' & tr & E & Hh & _).
  exists t', h'. split; [done|by exists tr].
Qed.

End MaintenanceProperties.

(** ** The further properties on the tree of three keys *)

Definition ex_left : @tree Z Z := Br Leaf 1 10 100 Leaf.
Definition ex_right : @tree Z Z := Br Leaf 2 30 300 Leaf.

(** A consumer that stops at the first key from 20 on. *)
Definition ex_until : @consumer Z Z := fun _ n => key n <? 20.

Ltac ex_reach := eapply reach_right; [reflexivity|apply reach_here].

Ltac ex_repr := cbn; repeat split; reflexivity.

Lemma Search_correct_witness :
  wf ex_heap ex_tree /\ (length ex_heap < 8)%nat
  /\ exists ns r,
       InOrder 8 ex_tree all ex_heap = Some ns
       /\ Search 8 ex_tree 30 ex_heap = Some r
       /\ match r with
          | Some p => exists n, ex_heap !! p = Some n /\ n ∈ ns /\ key n = 30
          | None => 30 ∉ key <$> ns
          end.
Proof.
  split; [ex_wf|]. split; [cbn; lia|].
  apply (Search_correct ex_heap ex_tree 30 8); [ex_wf|cbn; lia].
Defined.

Lemma Min_smallest_witness :
  wf ex_heap ex_tree /\ (length ex_heap < 8)%nat
  /\ exists ns r,
       InOrder 8 ex_tree all ex_heap = Some ns
       /\ Min 8 ex_tree ex_heap = Some r
       /\ match r with
          | Some p => exists n, ex_heap !! p = Some n /\ head ns = Some n
                        /\ forall m, m ∈ ns -> kle (key n) (key m)
          | None => ns = []
          end.
Proof.
  split; [ex_wf|]. split; [cbn; lia|].
  apply (Min_smallest ex_heap ex_tree 8); [ex_wf|cbn; lia].
Defined.

Lemma Max_largest_witness :
  wf ex_heap ex_tree /\ (length ex_heap < 8)%nat
  /\ exists ns r,
       InOrder 8 ex_tree all ex_heap = Some ns
       /\ Max 8 ex_tree ex_heap = Some r
       /\ match r with
          | Some p => exists n, ex_heap !! p = Some n /\ last ns = Some n
                        /\ forall m, m ∈ ns -> kle (key m) (key n)
          | None => ns = []
          end.
Proof.
  split; [ex_wf|]. split; [cbn; lia|].
  apply (Max_largest ex_heap ex_tree 8); [ex_wf|cbn; lia].
Defined.

Lemma Ceiling_least_witness :
  wf ex_heap ex_tree /\ (length ex_heap < 8)%nat
  /\ exists ns r,
       InOrder 8 ex_tree all ex_heap = Some ns
       /\ Ceiling 8 ex_tree 15 ex_heap = Some r
       /\ match r with
          | Some p => exists n, ex_heap !! p = Some n /\ n ∈ ns /\ kle 15 (key n)
                        /\ forall m, m ∈ ns -> kle 15 (key m) -> kle (key n) (key m)
          | None => forall m, m ∈ ns -> klt (key m) 15
          end.
Proof.
  split; [ex_wf|]. split; [cbn; lia|].
  apply (Ceiling_least ex_heap ex_tree 15 8); [ex_wf|cbn; lia].
Defined.

Lemma Floor_greatest_witness :
  wf ex_heap ex_tree /\ (length ex_heap < 8)%nat
  /\ exists ns r,
       InOrder 8 ex_tree all ex_heap = Some ns
       /\ Floor 8 ex_tree 15 ex_heap = Some r
       /\ match r with
          | Some p => exists n, ex_heap !! p = Some n /\ n ∈ ns /\ kle (key n) 15
                        /\ forall m, m ∈ ns -> kle (key m) 15 -> kle (key m) (key n)
          | None => forall m, m ∈ ns -> klt 15 (key m)
          end.
Proof.
  split; [ex_wf|]. split; [cbn; lia|].
  apply (Floor_greatest ex_heap ex_tree 15 8); [ex_wf|cbn; lia].
Defined.

Lemma Higher_least_witness :
  wf ex_heap ex_tree /\ (length ex_heap < 8)%nat
  /\ exists ns r,
       InOrder 8 ex_tree all ex_heap = Some ns
       /\ Higher 8 ex_tree 20 ex_heap = Some r
       /\ match r with
          | Some p => exists n, ex_heap !! p = Some n /\ n ∈ ns /\ klt 20 (key n)
                        /\ forall m, m ∈ ns -> klt 20 (key m) -> kle (key n) (key m)
          | None => forall m, m ∈ ns -> kle (key m) 20
          end.
Proof.
  split; [ex_wf|]. split; [cbn; lia|].
  apply (Higher_least ex_heap ex_tree 20 8); [ex_wf|cbn; lia].
Defined.

Lemma Lower_greatest_witness :
  wf ex_heap ex_tree /\ (length ex_heap < 8)%nat
  /\ exists ns r,
       InOrder 8 ex_tree all ex_heap = Some ns
       /\ Lower 8 ex_tree 20 ex_heap = Some r
       /\ match r with
          | Some p => exists n, ex_heap !! p = Some n /\ n ∈ ns /\ klt (key n) 20
                        /\ forall m, m ∈ ns -> klt (key m) 20 -> kle (key m) (key n)
          | None => forall m, m ∈ ns -> kle 20 (key m)
          end.
Proof.
  split; [ex_wf|]. split; [cbn; lia|].
  apply (Lower_greatest ex_heap ex_tree 20 8); [ex_wf|cbn; lia].
Defined.

Lemma Successor_next_witness :
  wf ex_heap ex_tree /\ (length ex_heap < 8)%nat
  /\ reachable ex_heap (Root ex_tree) 2%nat
  /\ exists ns i n r,
       InOrder 8 ex_tree all ex_heap = Some ns
       /\ ex_heap !! 2%nat = Some n /\ ns !! i = Some n
       /\ Successor 8 (Some 2%nat) ex_heap = Some r
       /\ match r with
          | Some q => exists m, ex_heap !! q = Some m /\ ns !! S i = Some m
          | None => S i = length ns
          end.
Proof.
  split; [ex_wf|]. split; [cbn; lia|]. split; [ex_reach|].
  apply (Successor_next ex_heap ex_tree 2%nat 8); [ex_wf|cbn; lia|ex_reach].
Defined.

Lemma Predecessor_previous_witness :
  wf ex_heap ex_tree /\ (length ex_heap < 8)%nat
  /\ reachable ex_heap (Root ex_tree) 2%nat
  /\ exists ns i n r,
       InOrder 8 ex_tree all ex_heap = Some ns
       /\ ex_heap !! 2%nat = Some n /\ ns !! i = Some n
       /\ Predecessor 8 (Some 2%nat) ex_heap = Some r
       /\ match r with
          | Some q => exists m j, i = S j /\ ex_heap !! q = Some m /\ ns !! j = Some m
          | None => i = O
          end.
Proof.
  split; [ex_wf|]. split; [cbn; lia|]. split; [ex_reach|].
  apply (Predecessor_previous ex_heap ex_tree 2%nat 8); [ex_wf|cbn; lia|ex_reach].
Defined.

Lemma Lower_is_Predecessor_witness :
  wf ex_heap ex_tree /\ (length ex_heap < 8)%nat
  /\ Search 8 ex_tree 20 ex_heap = Some (Some 0%nat)
  /\ exists r, Lower 8 ex_tree 20 ex_heap = Some r
               /\ Predecessor 8 (Some 0%nat) ex_heap = Some r.
Proof.
  split; [ex_wf|]. split; [cbn; lia|]. split; [vm_compute; reflexivity|].
  apply (Lower_is_Predecessor ex_heap ex_tree 20 0%nat 8);
    [ex_wf|cbn; lia|vm_compute; reflexivity].
Defined.

Lemma Kth_Rank_inverse_witness :
  wf ex_heap ex_tree /\ (length ex_heap < 8)%nat
  /\ (forall i p n, Kth 8 ex_tree i ex_heap = Some (Some p) -> ex_heap !! p = Some n ->
        Rank 8 ex_tree (key n) ex_heap = Some i)
  /\ (forall k p, Search 8 ex_tree k ex_heap = Some (Some p) ->
        exists i, Rank 8 ex_tree k ex_heap = Some i
                  /\ Kth 8 ex_tree i ex_heap = Some (Some p)).
Proof.
  split; [ex_wf|]. split; [cbn; lia|].
  apply (Kth_Rank_inverse ex_heap ex_tree 8); [ex_wf|cbn; lia].
Defined.

Lemma Insert_bindings_witness :
  wf ex_heap ex_tree /\ (length ex_heap + 1 < 8)%nat
  /\ exists ns b t' h' ns',
       InOrder 8 ex_tree all ex_heap = Some ns
       /\ Insert 8 ex_tree 25 250 ex_heap = Some ((b, t'), h')
       /\ InOrder 8 t' all h' = Some ns'
       /\ forall x, x ∈ bindings ns' <-> x = (25, 250) \/ (x.1 <> 25 /\ x ∈ bindings ns).
Proof.
  split; [ex_wf|]. split; [cbn; lia|].
  apply (Insert_bindings ex_heap ex_tree 25 250 8); [ex_wf|cbn; lia].
Defined.

Lemma Delete_bindings_witness :
  wf ex_heap ex_tree /\ (length ex_heap < 8)%nat
  /\ exists ns b t' h' ns',
       InOrder 8 ex_tree all ex_heap = Some ns
       /\ Delete 8 ex_tree 20 ex_heap = Some ((b, t'), h')
       /\ InOrder 8 t' all h' = Some ns'
       /\ (b = true <-> 20 ∈ key <$> ns)
       /\ forall x, x ∈ bindings ns' <-> x.1 <> 20 /\ x ∈ bindings ns.
Proof.
  split; [ex_wf|]. split; [cbn; lia|].
  apply (Delete_bindings ex_heap ex_tree 20 8); [ex_wf|cbn; lia].
Defined.

Lemma Insert_in_place_witness :
  wf ex_heap ex_tree /\ (length ex_heap < 8)%nat
  /\ Search 8 ex_tree 30 ex_heap = Some (Some 2%nat)
  /\ ex_heap !! 2%nat = Some (mkNode 30 300 1 1 None None (Some 0%nat))
  /\ Insert 8 ex_tree 30 350 ex_heap
     = Some ((false, ex_tree),
             <[2%nat := set_value 350 (mkNode 30 300 1 1 None None (Some 0%nat))]> ex_heap).
Proof.
  split; [ex_wf|]. split; [cbn; lia|]. split; [vm_compute; reflexivity|].
  split; [reflexivity|].
  apply (Insert_in_place ex_heap ex_tree 30 350 2%nat
           (mkNode 30 300 1 1 None None (Some 0%nat)) 8);
    [ex_wf|cbn; lia|vm_compute; reflexivity|reflexivity].
Defined.

Lemma Insert_footprint_witness :
  wf ex_heap ex_tree /\ (length ex_heap < 8)%nat
  /\ exists b t' h',
       Insert 8 ex_tree 25 250 ex_heap = Some ((b, t'), h')
       /\ length h' = (if b then S (length ex_heap) else length ex_heap)
       /\ forall q, (q < length ex_heap)%nat -> ~ reachable ex_heap (Root ex_tree) q ->
            h' !! q = ex_heap !! q.
Proof.
  split; [ex_wf|]. split; [cbn; lia|].
  apply (Insert_footprint ex_heap ex_tree 25 250 8); [ex_wf|cbn; lia].
Defined.

Lemma Delete_footprint_witness :
  wf ex_heap ex_tree /\ (length ex_heap < 8)%nat
  /\ exists b t' h',
       Delete 8 ex_tree 20 ex_heap = Some ((b, t'), h')
       /\ length h' = length ex_heap
       /\ forall q, ~ reachable ex_heap (Root ex_tree) q -> h' !! q = ex_heap !! q.
Proof.
  split; [ex_wf|]. split; [cbn; lia|].
  apply (Delete_footprint ex_heap ex_tree 20 8); [ex_wf|cbn; lia].
Defined.

Lemma InOrder_stops_witness :
  wf ex_heap ex_tree /\ (length ex_heap < 8)%nat
  /\ exists ns out,
       InOrder 8 ex_tree all ex_heap = Some ns
       /\ InOrder 8 ex_tree ex_until ex_heap = Some out
       /\ out = feed ex_until [] ns
       /\ out `prefix_of` ns.
Proof.
  split; [ex_wf|]. split; [cbn; lia|].
  apply (InOrder_stops ex_heap ex_tree ex_until 8); [ex_wf|cbn; lia].
Defined.

Lemma Range_stops_witness :
  wf ex_heap ex_tree /\ (length ex_heap < 8)%nat
  /\ exists ns out,
       InOrder 8 ex_tree all ex_heap = Some ns
       /\ Range 8 ex_tree 10 40 ex_until ex_heap = Some out
       /\ out = feed ex_until [] (List.filter (in_range 10 40) ns)
       /\ out `prefix_of` List.filter (in_range 10 40) ns.
Proof.
  split; [ex_wf|]. split; [cbn; lia|].
  apply (Range_stops ex_heap ex_tree 10 40 ex_until 8); [ex_wf|cbn; lia].
Defined.

Lemma Range_empty_witness :
  wf ex_heap ex_tree /\ (length ex_heap < 8)%nat /\ kle 20 30
  /\ Range 8 ex_tree 30 20 all ex_heap = Some [].
Proof.
  split; [ex_wf|]. split; [cbn; lia|]. split; [reflexivity|].
  apply (Range_empty ex_heap ex_tree 30 20 all 8); [ex_wf|cbn; lia|reflexivity].
Defined.

Lemma height_logarithmic_witness :
  wf ex_heap ex_tree
  /\ exists len, Len ex_tree ex_heap = Some len
                 /\ 2 ^ (hgt ex_heap (Root ex_tree) / 2) <= len + 1.
Proof.
  split; [ex_wf|]. apply (height_logarithmic ex_heap ex_tree). ex_wf.
Defined.

Lemma rotateLeft_rotates_witness :
  repr ex_heap None (Br ex_left 0 20 200 (Br Leaf 2 30 300 Leaf))
  /\ NoDup (locs (Br ex_left 0 20 200 (Br Leaf 2 30 300 Leaf)))
  /\ exists h',
       rotateLeft (Some 0%nat) ex_heap = Some (Some 2%nat, h')
       /\ repr h' None (Br (Br ex_left 0 20 200 Leaf) 2 30 300 Leaf)
       /\ length h' = length ex_heap
       /\ forall q, q ∉ locs (Br ex_left 0 20 200 (Br Leaf 2 30 300 Leaf)) ->
            h' !! q = ex_heap !! q.
Proof.
  split; [ex_repr|]. split; [decide_it|].
  apply (rotateLeft_rotates ex_heap None ex_left 0%nat 20 200 Leaf 2%nat 30 300 Leaf);
    [ex_repr|decide_it].
Defined.

Lemma rotateRight_rotates_witness :
  repr ex_heap None (Br (Br Leaf 1 10 100 Leaf) 0 20 200 ex_right)
  /\ NoDup (locs (Br (Br Leaf 1 10 100 Leaf) 0 20 200 ex_right))
  /\ exists h',
       rotateRight (Some 0%nat) ex_heap = Some (Some 1%nat, h')
       /\ repr h' None (Br Leaf 1 10 100 (Br Leaf 0 20 200 ex_right))
       /\ length h' = length ex_heap
       /\ forall q, q ∉ locs (Br (Br Leaf 1 10 100 Leaf) 0 20 200 ex_right) ->
            h' !! q = ex_heap !! q.
Proof.
  split; [ex_repr|]. split; [decide_it|].
  apply (rotateRight_rotates ex_heap None Leaf 1%nat 10 100 Leaf 0%nat 20 200 ex_right);
    [ex_repr|decide_it].
Defined.

Lemma rebalance_restores_witness :
  stale ex_heap None ex_left 0 20 200 ex_right
  /\ NoDup (locs (Br ex_left 0 20 200 ex_right))
  /\ avl ex_left /\ avl ex_right /\ -2 <= ht ex_left - ht ex_right <= 2
  /\ exists h' t',
       rebalance (Some 0%nat) ex_heap = Some (root_of t', h')
       /\ repr h' None t'
       /\ avl t'
       /\ kvs t' = kvs (Br ex_left 0 20 200 ex_right)
       /\ ht (Br ex_left 0 20 200 ex_right) - 1 <= ht t' <= ht (Br ex_left 0 20 200 ex_right)
       /\ length h' = length ex_heap
       /\ forall q, q ∉ locs (Br ex_left 0 20 200 ex_right) -> h' !! q = ex_heap !! q.
Proof.
  assert (stale ex_heap None ex_left 0 20 200 ex_right) as Hst.
  { split; [eexists _, _; reflexivity|ex_repr]. }
  split; [exact Hst|]. split; [decide_it|].
  split; [cbn; lia|]. split; [cbn; lia|]. split; [cbn; lia|].
  apply (rebalance_restores ex_heap None ex_left 0%nat 20 200 ex_right);
    [exact Hst|decide_it|cbn; lia|cbn; lia|cbn; lia].
Defined.

Lemma updateSize_recomputes_witness :
  ex_heap !! 0%nat = Some (mkNode 20 200 2 3 (Some 1%nat) (Some 2%nat) None)
  /\ child_ok ex_heap 0 (Some 1%nat) /\ child_ok ex_heap 0 (Some 2%nat)
  /\ exists n',
       updateSize (Some 0%nat) ex_heap = Some (tt, <[0%nat := n']> ex_heap)
       /\ height n' = Z.max (hgt ex_heap (Some 1%nat)) (hgt ex_heap (Some 2%nat)) + 1
       /\ size n' = 1 + siz ex_heap (Some 1%nat) + siz ex_heap (Some 2%nat)
       /\ key n' = 20 /\ value n' = 200
       /\ left n' = Some 1%nat /\ right n' = Some 2%nat /\ parent n' = None.
Proof.
  split; [reflexivity|]. split; [split; [lia|by eexists]|]. split; [split; [lia|by eexists]|].
  apply (updateSize_recomputes ex_heap 0%nat
           (mkNode 20 200 2 3 (Some 1%nat) (Some 2%nat) None));
    [reflexivity|split; [lia|by eexists]|split; [lia|by eexists]].
Defined.

Lemma Clear_resets_witness :
  (length ex_heap + length ex_ops < 12)%nat
  /\ Len (Clear ex_tree) ex_heap = Some 0
  /\ exists t' h', run 12 (OpClear :: ex_ops) (ex_tree, ex_heap) = Some (t', h') /\ wf h' t'.
Proof.
  split; [cbn; lia|]. apply (Clear_resets ex_heap ex_tree ex_ops 12). cbn; lia.
Defined.

Lemma Insert_then_Delete_witness :
  wf ex_heap ex_tree /\ (length ex_heap + 1 < 8)%nat
  /\ Search 8 ex_tree 25 ex_heap = Some None
  /\ exists ns t1 h1 t2 h2 ns2,
       InOrder 8 ex_tree all ex_heap = Some ns
       /\ Insert 8 ex_tree 25 250 ex_heap = Some ((true, t1), h1)
       /\ Delete 8 t1 25 h1 = Some ((true, t2), h2)
       /\ InOrder 8 t2 all h2 = Some ns2
       /\ bindings ns2 = bindings ns.
Proof.
  split; [ex_wf|]. split; [cbn; lia|]. split; [vm_compute; reflexivity|].
  apply (Insert_then_Delete ex_heap ex_tree 25 250 8);
    [ex_wf|cbn; lia|vm_compute; reflexivity].
Defined.
